(** * Provider-to-agent control plane of the Feishu gateway

    A shallow embedding of the gateway's control plane:
    - [StatusReaction]: extensions/feishu/src/status-reaction.ts
    - [InFlight]: extensions/feishu/src/inflight-store.ts, the task life cycle
      of extensions/feishu/src/bot.ts and the auto-finalisation of
      extensions/feishu/src/outbound.ts
    - [Inbound]: the admission gate of extensions/feishu/src/bot.ts
    - [Announce]: src/agents/subagent-announce-queue.ts
    - [Guard]: src/agents/session-tool-result-guard.ts

    Conventions.  Identifiers (message ids, task ids, emoji names) are
    [string]s.  Texts whose length matters are sequences of UTF-16 code units
    ([jstext]), so that [length] is JavaScript's [.length].  Integers are [Z].
    Calls to the provider and to the agent are recorded as events; whether
    such a call returns or throws is read from an oracle. *)

From Stdlib Require Import ZArith List String Ascii Bool Lia DecimalString DecimalPos.
Import ListNotations.

Local Open Scope string_scope.
Local Open Scope Z_scope.
Local Open Scope list_scope.

(** ** JavaScript values *)

(** A JavaScript string read as its UTF-16 code units. *)
Definition jstext := list N.

(** The code units of an ASCII literal. *)
Fixpoint units (s : string) : jstext :=
  match s with
  | EmptyString => []
  | String c r => N_of_ascii c :: units r
  end.

(** [Boolean(s)] for a string: the empty string is falsy. *)
Definition truthy (s : string) : bool := negb (s =? "")%string.

(** [Boolean(x?.f)] for an optional string. *)
Definition truthyOpt (o : option string) : bool :=
  match o with Some s => truthy s | None => false end.

(** [a ?? b] *)
Definition orElse {A} (o : option A) (d : A) : A :=
  match o with Some a => a | None => d end.

(** [Array.prototype.findIndex]; [None] stands for -1. *)
Fixpoint findIndex {A} (p : A -> bool) (l : list A) : option nat :=
  match l with
  | [] => None
  | x :: r => if p x then Some O else option_map S (findIndex p r)
  end.

(** [arr[i] = x] for an index inside the array. *)
Fixpoint setAt {A} (i : nat) (x : A) (l : list A) : list A :=
  match l, i with
  | [], _ => []
  | _ :: r, O => x :: r
  | y :: r, S j => y :: setAt j x r
  end.

(** [arr.slice(-n)] for [n >= 1]: the last [n] elements. *)
Definition sliceLast {A} (n : nat) (l : list A) : list A :=
  skipn (List.length l - n) l.

(** [String.prototype.trim] on identifiers: ASCII white space. *)
Definition isSpace (a : ascii) : bool :=
  let n := nat_of_ascii a in
  ((9 <=? n) && (n <=? 13) || (n =? 32))%nat.

Fixpoint dropSpaces (l : list ascii) : list ascii :=
  match l with
  | [] => []
  | a :: r => if isSpace a then dropSpaces r else l
  end.

Definition trim (s : string) : string :=
  string_of_list_ascii
    (rev (dropSpaces (rev (dropSpaces (list_ascii_of_string s))))).


(** ** Numbers

    JavaScript numbers are IEEE 754 doubles: 53 significant bits, rounded to
    the nearest, ties to even. *)

(** The integer nearest to [a / b], for [0 <= a] and [0 < b]; half-way cases
    go to the even one. *)
Definition roundHalfEven (a b : Z) : Z :=
  let q := a / b in
  let r := a mod b in
  if 2 * r <? b then q
  else if b <? 2 * r then q + 1
  else if Z.even q then q else q + 1.

(** The double nearest to the integer [n >= 0] (an integer itself).  Up to
    2^53 every integer is a double. *)
Definition nearestDouble (n : Z) : Z :=
  let e := Z.log2 n - 52 in
  if e <=? 0 then n else roundHalfEven n (2 ^ e) * 2 ^ e.

(** The double nearest to [a / b], for [0 <= a] and [0 < b], as a fraction
    whose denominator is a power of 2.  With [k] large enough for the scaled
    quotient [a * 2^k / b] to have more than 53 bits, [s] is the number of
    bits to round away.  (The quotients taken here are far from the
    subnormal range and from overflow.) *)
Definition roundQuotient (a b : Z) : Z * Z :=
  if a <=? 0 then (0, 1)
  else
    let k := 54 + Z.log2 b in
    let x := a * 2 ^ k in
    let s := Z.log2 (x / b) - 52 in
    (roundHalfEven x (b * 2 ^ s) * 2 ^ s, 2 ^ k).

(** A number as [Number.parseInt] returns it. *)
Inductive JsNumber :=
| NaN
| Infinity (negative : bool)
| Num (z : Z).

(** [Number.isFinite(x) ? x : undefined] *)
Definition finiteValue (x : JsNumber) : option Z :=
  match x with Num z => Some z | _ => None end.

(** The Number value of the integer [n]: the nearest double, which is
    infinite from 2^1024 on. *)
Definition numberOfInt (n : Z) : JsNumber :=
  let d := nearestDouble (Z.abs n) in
  if 2 ^ 1024 <=? d then Infinity (n <? 0)
  else Num (if n <? 0 then - d else d).

(** [Number.parseInt(s, 10)]: leading white space, a sign, then decimal
    digits up to the first other character.  [mathInt] is the integer the
    digits denote, [None] when there is no digit (NaN).  All the digits are
    read; an implementation may take the digits after the 20th for zeros,
    which changes nothing up to 2^53. *)
Definition digitOf (a : ascii) : option Z :=
  let n := nat_of_ascii a in
  if ((48 <=? n) && (n <=? 57))%nat then Some (Z.of_nat n - 48) else None.

Fixpoint digitsValue (acc : Z) (seen : bool) (l : list ascii) : option Z :=
  match l with
  | [] => if seen then Some acc else None
  | a :: r =>
      match digitOf a with
      | Some d => digitsValue (10 * acc + d) true r
      | None => if seen then Some acc else None
      end
  end.

Definition mathInt (s : string) : option Z :=
  match dropSpaces (list_ascii_of_string s) with
  | "-"%char :: r => option_map Z.opp (digitsValue 0 false r)
  | "+"%char :: r => digitsValue 0 false r
  | l => digitsValue 0 false l
  end.

Definition parseInt10 (s : string) : JsNumber :=
  match mathInt s with
  | Some n => numberOfInt n
  | None => NaN
  end.

(** [String(n)] for an integer (below 10^21 in absolute value). *)
Definition showZ (n : Z) : jstext :=
  units (DecimalString.NilZero.string_of_int (Z.to_int n)).

(** [haystack.includes(needle)] on code units. *)
Fixpoint startsWith (needle hay : jstext) : bool :=
  match needle, hay with
  | [], _ => true
  | _ :: _, [] => false
  | a :: n', b :: h' => N.eqb a b && startsWith n' h'
  end.

Fixpoint includes (needle hay : jstext) : bool :=
  startsWith needle hay ||
  match hay with
  | [] => false
  | _ :: h' => includes needle h'
  end.

(** ** Effects: provider calls, a world, exceptions *)

(** The result of a computation that may throw. *)
Inductive Exc (A : Type) : Type :=
| Ret (a : A)
| Throw.
Arguments Ret {A} a.
Arguments Throw {A}.

(** The body of an outbound message.  The fixed notices of bot.ts are named;
    [Text] carries a computed body. *)
Inductive Body :=
| NoResumableTaskNotice   (* "我这边没找到可继续的上一条任务，..." *)
| DispatchFailedNotice    (* "⚠️ 刚刚处理失败（接口校验/权限问题），..." *)
| InterruptedNotice       (* "⚠️ 我刚才在处理你这条消息时服务重启被打断了。..." *)
| Text (t : jstext).

(** What a run does to the outside: calls of the provider API, the hand-over
    to the agent, log lines. *)
Inductive Event :=
| AddReaction (messageId emojiType : string)
| RemoveReaction (messageId reactionId : string)
| ListReactions (messageId emojiType : string)
| SendMessage (to : string) (replyToMessageId : option string) (text : Body)
| DispatchToAgent (messageSid : string)
| Log (line : string).

(** The provider as an oracle.  [None] and [false] stand for a rejected
    promise. *)
Record Provider := {
  addReactionFeishu : string -> string -> option string;
  removeReactionFeishu : string -> string -> bool;
  listReactionsFeishu : string -> string -> option (list (option string * string));
  sendMessageFeishu : string -> option string -> Body -> bool
}.

(** A computation over a world [W]: it records the events it performed and
    leaves a world behind, also when it throws. *)
Definition M (W A : Type) : Type := W -> (list Event * W * Exc A)%type.

Definition ret {W A} (a : A) : M W A := fun w => ([], w, Ret a).
Definition emit {W} (e : Event) : M W unit := fun w => ([e], w, Ret tt).
Definition throw {W A} : M W A := fun w => ([], w, Throw).
Definition get {W} : M W W := fun w => ([], w, Ret w).
Definition put {W} (w' : W) : M W unit := fun _ => ([], w', Ret tt).

Definition bind {W A B} (m : M W A) (f : A -> M W B) : M W B :=
  fun w =>
    match m w with
    | (ev, w', Ret a) => let '(ev', w'', r) := f a w' in (ev ++ ev', w'', r)
    | (ev, w', Throw) => (ev, w', Throw)
    end.

(** [try { m } catch { h }] *)
Definition tryCatch {W A} (m : M W A) (h : M W A) : M W A :=
  fun w =>
    match m w with
    | (ev, w', Ret a) => (ev, w', Ret a)
    | (ev, w', Throw) => let '(ev', w'', r) := h w' in (ev ++ ev', w'', r)
    end.

Declare Scope eff_scope.
Delimit Scope eff_scope with eff.
Notation "x <- m ;; k" := (bind m (fun x => k))
  (at level 61, m at next level, right associativity) : eff_scope.
Notation "m ;;; k" := (bind m (fun _ => k))
  (at level 61, right associativity) : eff_scope.

(** [for (const x of xs) acc = body(acc, x)] *)
Fixpoint foldM {W A B} (body : B -> A -> M W B) (acc : B) (xs : list A) : M W B :=
  match xs with
  | [] => ret acc
  | x :: r => bind (body acc x) (fun acc' => foldM body acc' r)
  end.

Definition eventsOf {W A} (r : list Event * W * Exc A) : list Event := fst (fst r).
Definition worldOf {W A} (r : list Event * W * Exc A) : W := snd (fst r).
Definition resultOf {W A} (r : list Event * W * Exc A) : Exc A := snd r.

Definition callAdd {W} (P : Provider) (messageId emoji : string) : M W string :=
  fun w =>
    ([AddReaction messageId emoji], w,
     match addReactionFeishu P messageId emoji with
     | Some rid => Ret rid
     | None => Throw
     end).

Definition callRemove {W} (P : Provider) (messageId rid : string) : M W unit :=
  fun w =>
    ([RemoveReaction messageId rid], w,
     if removeReactionFeishu P messageId rid then Ret tt else Throw).

Definition callList {W} (P : Provider) (messageId emoji : string)
    : M W (list (option string * string)) :=
  fun w =>
    ([ListReactions messageId emoji], w,
     match listReactionsFeishu P messageId emoji with
     | Some rs => Ret rs
     | None => Throw
     end).

Definition callSend {W} (P : Provider) (to : string) (replyTo : option string)
    (text : Body) : M W unit :=
  fun w =>
    ([SendMessage to replyTo text], w,
     if sendMessageFeishu P to replyTo text then Ret tt else Throw).

Definition isRemove (e : Event) : bool :=
  match e with RemoveReaction _ _ => true | _ => false end.
Definition isSend (e : Event) : bool :=
  match e with SendMessage _ _ _ => true | _ => false end.
Definition isDispatch (e : Event) : bool :=
  match e with DispatchToAgent _ => true | _ => false end.

(** ** Status reactions (status-reaction.ts) *)

Module StatusReaction.

Record StatusReactionState := {
  emojiType : string;
  reactionId : string
}.

(** [replaceStatusReaction], the copy that compares the returned id with the
    previous one before removing. *)
Definition replaceStatusReaction {W} (P : Provider) (messageId nextEmojiType : string)
    (prev : option StatusReactionState) : M W StatusReactionState :=
  (rid <- callAdd P messageId nextEmojiType ;;
   (if truthyOpt (option_map reactionId prev)
       && negb (orElse (option_map reactionId prev) "" =? rid)%string
    then tryCatch (callRemove P messageId (orElse (option_map reactionId prev) ""))
                  (emit (Log "failed to remove previous status reaction"))
    else ret tt) ;;;
   ret {| emojiType := nextEmojiType; reactionId := rid |})%eff.

(** [replaceStatusReaction], the other copy of status-reaction.ts: the
    previous reaction is removed whenever it has an id. *)
Definition replaceStatusReaction_unguarded {W} (P : Provider)
    (messageId nextEmojiType : string)
    (prev : option StatusReactionState) : M W StatusReactionState :=
  (rid <- callAdd P messageId nextEmojiType ;;
   (if truthyOpt (option_map reactionId prev)
    then tryCatch (callRemove P messageId (orElse (option_map reactionId prev) ""))
                  (emit (Log "failed to remove previous status reaction"))
    else ret tt) ;;;
   ret {| emojiType := nextEmojiType; reactionId := rid |})%eff.

End StatusReaction.

(** ** The in-flight store (inflight-store.ts) and the task life cycle
       (bot.ts, outbound.ts) *)

Module InFlight.
Import StatusReaction.

Inductive FeishuInFlightState :=
| received | queued | working | waiting | done | failed | interrupted.

Inductive ChatType := direct | group.

(** [FeishuInFlightTask]; the constant field [provider: "feishu"] is left out. *)
Record FeishuInFlightTask := {
  id : string;
  accountId : string;
  chatId : string;
  chatType : ChatType;
  userOpenId : option string;
  messageId : string;
  originalText : jstext;
  truncated : option bool;
  state : FeishuInFlightState;
  reaction : option StatusReactionState;
  runId : option string;
  resumeAttempts : option Z;
  updatedAtMs : Z;
  interruptedHandled : option bool
}.

(** [FeishuInFlightStore]; [lastInterruptibleByChatId] is a plain object, kept
    here as its list of own properties. *)
Record FeishuInFlightStore := {
  tasks : list FeishuInFlightTask;
  lastInterruptibleByChatId : option (list (string * string))
}.

Definition state_eqb (a b : FeishuInFlightState) : bool :=
  match a, b with
  | received, received | queued, queued | working, working | waiting, waiting
  | done, done | failed, failed | interrupted, interrupted => true
  | _, _ => false
  end.

Definition hasId (taskId : string) (t : FeishuInFlightTask) : bool :=
  (id t =? taskId)%string.

(** [store.tasks.find((t) => t.id === taskId)] *)
Definition findTask (taskId : string) (store : FeishuInFlightStore)
    : option FeishuInFlightTask :=
  find (hasId taskId) (tasks store).

Definition clampOriginalText (text : jstext) (maxChars : nat) : jstext * bool :=
  if (List.length text <=? maxChars)%nat then (text, false)
  else (firstn maxChars text, true).

Definition upsertTask (store : FeishuInFlightStore) (task : FeishuInFlightTask)
    : FeishuInFlightStore :=
  {| tasks :=
       match findIndex (hasId (id task)) (tasks store) with
       | Some idx => setAt idx task (tasks store)
       | None => tasks store ++ [task]
       end;
     lastInterruptibleByChatId := lastInterruptibleByChatId store |}.

Definition removeTask (store : FeishuInFlightStore) (taskId : string)
    : FeishuInFlightStore :=
  {| tasks := filter (fun t => negb (hasId taskId t)) (tasks store);
     lastInterruptibleByChatId := lastInterruptibleByChatId store |}.

(** [{ ...obj, [k]: v }]: an existing property keeps its place. *)
Fixpoint recordSet (k v : string) (obj : list (string * string))
    : list (string * string) :=
  match obj with
  | [] => [(k, v)]
  | (k', v') :: r =>
      if (k' =? k)%string then (k, v) :: r else (k', v') :: recordSet k v r
  end.

Fixpoint recordGet (k : string) (obj : list (string * string)) : option string :=
  match obj with
  | [] => None
  | (k', v') :: r => if (k' =? k)%string then Some v' else recordGet k r
  end.

Definition setLastInterruptible (store : FeishuInFlightStore) (chat taskId : string)
    : FeishuInFlightStore :=
  {| tasks := tasks store;
     lastInterruptibleByChatId :=
       Some (recordSet chat taskId (orElse (lastInterruptibleByChatId store) [])) |}.

Definition getLastInterruptibleTask (store : FeishuInFlightStore) (chat : string)
    : option FeishuInFlightTask :=
  match lastInterruptibleByChatId store with
  | None => None
  | Some obj =>
      match recordGet chat obj with
      | None => None
      | Some tid => if truthy tid then findTask tid store else None
      end
  end.

(** The names of the status emoji ([FeishuEmoji], reactions.ts). *)
Definition GLANCE := "GLANCE".
Definition ONE_SECOND := "ONE_SECOND".
Definition HAMMER := "HAMMER".
Definition ALARM := "ALARM".
Definition DONE := "DONE".
Definition ERROR := "ERROR".
Definition TYPING := "TYPING".

(** The world of the task life cycle: the clock read by [Date.now()], the
    store file of the account, every store written to it so far, and the file
    system as an oracle: [writable store] is false when one of [fs.mkdir],
    [fs.writeFile] and [fs.rename] rejects for that store, [stateDirOk] is
    false when [getFeishuRuntime().state.resolveStateDir()] throws. *)
Record World := {
  clock : nat -> Z;
  tick : nat;
  disk : FeishuInFlightStore;
  writes : list FeishuInFlightStore;
  writable : FeishuInFlightStore -> bool;
  stateDirOk : bool
}.

(** The world after one reading of the clock. *)
Definition ticked (w : World) : World :=
  {| clock := clock w; tick := S (tick w); disk := disk w; writes := writes w;
     writable := writable w; stateDirOk := stateDirOk w |}.

(** The world after [store] has replaced the file. *)
Definition stored (store : FeishuInFlightStore) (w : World) : World :=
  {| clock := clock w; tick := tick w; disk := store; writes := writes w ++ [store];
     writable := writable w; stateDirOk := stateDirOk w |}.

Definition dateNow : M World Z :=
  fun w => ([], ticked w, Ret (clock w (tick w))).

(** [getFeishuRuntime().state.resolveStateDir()] *)
Definition resolveStateDir : M World unit :=
  fun w => ([], w, if stateDirOk w then Ret tt else Throw).

(** [readFeishuInFlightStore] catches every error of the read: [disk] is the
    store it returns. *)
Definition readFeishuInFlightStore : M World FeishuInFlightStore :=
  fun w => ([], w, Ret (disk w)).

(** [writeFeishuInFlightStore]: the store goes to a temporary file that is
    renamed over the store file, so a rejected write leaves the file as it
    was. *)
Definition writeFeishuInFlightStore (store : FeishuInFlightStore) : M World unit :=
  fun w => if writable w store then ([], stored store w, Ret tt) else ([], w, Throw).

(** The two copies of [replaceStatusReaction]. *)
Inductive ReactorCopy := Guarded | Unguarded.

Definition replaceStatus (c : ReactorCopy) (P : Provider)
    (anchor nextEmojiType : string) (prev : option StatusReactionState)
    : M World StatusReactionState :=
  match c with
  | Guarded => replaceStatusReaction P anchor nextEmojiType prev
  | Unguarded => replaceStatusReaction_unguarded P anchor nextEmojiType prev
  end.

Record StatusParams := {
  p_accountId : string;
  p_chatId : string;
  p_chatType : ChatType;
  p_userOpenId : option string;
  p_messageId : string;
  p_taskId : string;
  p_nextState : FeishuInFlightState;
  p_nextEmojiType : string;
  p_originalText : option jstext;
  p_truncated : option bool
}.

(** The record [setFeishuStatus] writes for the task: [prev] is the stored
    record of that id, [reaction1] the reaction after the repaint. *)
Definition statusTask (prm : StatusParams) (prev : option FeishuInFlightTask)
    (reaction1 : option StatusReactionState) (now : Z) : FeishuInFlightTask :=
  {| id := p_taskId prm;
     accountId := p_accountId prm;
     chatId := p_chatId prm;
     chatType := p_chatType prm;
     userOpenId := p_userOpenId prm;
     messageId := p_messageId prm;
     originalText :=
       match p_originalText prm with
       | Some t => t
       | None => match prev with Some t => originalText t | None => [] end
       end;
     truncated :=
       match p_truncated prm with
       | Some b => Some b
       | None => match prev with Some t => truncated t | None => None end
       end;
     state := p_nextState prm;
     reaction :=
       match reaction1 with
       | Some r => Some {| emojiType := emojiType r; reactionId := reactionId r |}
       | None => match prev with Some t => reaction t | None => None end
       end;
     runId := match prev with Some t => runId t | None => None end;
     resumeAttempts :=
       Some (orElse (match prev with Some t => resumeAttempts t | None => None end) 0);
     updatedAtMs := now;
     interruptedHandled :=
       match prev with Some t => interruptedHandled t | None => None end |}.

(** [setFeishuStatus]: paint the emoji, then rewrite the task record.  A
    failed repaint is logged and leaves the previous reaction. *)
Definition setFeishuStatus (c : ReactorCopy) (P : Provider) (prm : StatusParams)
    : M World unit :=
  (store <- readFeishuInFlightStore ;;
   now <- dateNow ;;
   let prev := findTask (p_taskId prm) store in
   let reaction0 := match prev with Some t => reaction t | None => None end in
   reaction1 <- tryCatch
     (r <- replaceStatus c P (p_messageId prm) (p_nextEmojiType prm) reaction0 ;;
      ret (Some r))
     (emit (Log "failed to set status reaction") ;;; ret reaction0) ;;
   writeFeishuInFlightStore (upsertTask store (statusTask prm prev reaction1 now)))%eff.

(** What the handler reads of the parsed inbound message. *)
Record Ctx := {
  c_chatId : string;
  c_messageId : string;
  c_senderOpenId : string;
  c_isGroup : bool;
  c_content : jstext
}.

(** When the dispatcher's [onIdle] callback runs relative to the branch on
    [counts.final]: the callback is not awaited by the handler. *)
Inductive IdleTiming := IdleNever | IdleBeforeFinalBranch | IdleAfterFinalBranch.

(** What the agent side does during one dispatch. *)
Record Agent := {
  preDispatchThrows : bool;   (* routing, media or envelope building throws *)
  dispatchThrows : bool;      (* dispatchReplyFromConfig rejects *)
  replyStarts : bool;         (* statusCallbacks.onReplyStart fires *)
  idle : IdleTiming;          (* statusCallbacks.onIdle *)
  countsFinal : Z;
  queuedFinal : bool
}.

Definition isTerminal (s : FeishuInFlightState) : bool :=
  match s with done | failed | interrupted => true | _ => false end.

(** The test of bot.ts that decides whether [last] may be resumed. *)
Definition resumable (isGroup : bool) (sender : string) (last : FeishuInFlightTask)
    : bool :=
  (state_eqb (state last) interrupted || state_eqb (state last) failed)
  && (orElse (resumeAttempts last) 0 <? 2)
  && (negb isGroup
      || negb (truthyOpt (userOpenId last))
      || match userOpenId last with
         | Some u => (u =? sender)%string
         | None => false
         end).

Definition chatTypeOf (isGroup : bool) : ChatType :=
  if isGroup then group else direct.

Definition statusParams (acct : string) (ctx : Ctx) (anchor taskId : string)
    (next : FeishuInFlightState) (emoji : string)
    (text : option jstext) (trunc : option bool) : StatusParams :=
  {| p_accountId := acct;
     p_chatId := c_chatId ctx;
     p_chatType := chatTypeOf (c_isGroup ctx);
     p_userOpenId := Some (c_senderOpenId ctx);
     p_messageId := anchor;
     p_taskId := taskId;
     p_nextState := next;
     p_nextEmojiType := emoji;
     p_originalText := text;
     p_truncated := trunc |}.

(** [statusCallbacks.onIdle] of the handler. *)
Definition onIdle (c : ReactorCopy) (P : Provider) (acct : string) (ctx : Ctx)
    (anchor taskId : string) (sawReplyStart : bool) : M World unit :=
  tryCatch
    (store <- readFeishuInFlightStore ;;
     if negb sawReplyStart then ret tt
     else match findTask taskId store with
          | None => ret tt
          | Some task =>
              if isTerminal (state task) then ret tt
              else
                setFeishuStatus c P
                  (statusParams acct ctx anchor taskId done DONE None None) ;;;
                st2 <- readFeishuInFlightStore ;;
                writeFeishuInFlightStore (removeTask st2 taskId)
          end)%eff
    (ret tt).

(** The resumed record written before the task is moved back to [received]. *)
Definition resumedTask (src : FeishuInFlightTask) (now : Z) : FeishuInFlightTask :=
  {| id := id src; accountId := accountId src; chatId := chatId src;
     chatType := chatType src; userOpenId := userOpenId src;
     messageId := messageId src; originalText := originalText src;
     truncated := truncated src; state := state src; reaction := reaction src;
     runId := runId src;
     resumeAttempts := Some (orElse (resumeAttempts src) 0 + 1);
     updatedAtMs := now;
     interruptedHandled := Some true |}.

Definition replyTarget (ctx : Ctx) : string :=
  if c_isGroup ctx then c_chatId ctx else c_senderOpenId ctx.

(** The handler from the classification on (the [try] block that ends
    [handleFeishuMessage]), in two parts.  [wantsContinue] is
    [isContinueMessage(ctx.content)] and [freshId] the value of
    [createInFlightId()].

    [beginTask] classifies the message and creates or resumes the task; it
    returns [inFlightTaskId] and [anchorMessageId], or [None] when a
    "continue" finds nothing to resume and the notice has been sent. *)
Definition beginTask (c : ReactorCopy) (P : Provider) (acct : string) (ctx : Ctx)
    (wantsContinue : bool) (freshId : string) (inflightStore : FeishuInFlightStore)
    : M World (option (string * string)) :=
  let last := getLastInterruptibleTask inflightStore (c_chatId ctx) in
  let resumeSourceTask :=
    if wantsContinue then
      match last with
      | Some l => if resumable (c_isGroup ctx) (c_senderOpenId ctx) l
                  then Some l else None
      | None => None
      end
    else None in
  match wantsContinue, resumeSourceTask with
  | true, None =>
      (callSend P (replyTarget ctx) (Some (c_messageId ctx)) NoResumableTaskNotice ;;;
       ret None)%eff
  | _, None =>
      let truncateInfo := clampOriginalText (c_content ctx) (Z.to_nat 8000) in
      (setFeishuStatus c P
         (statusParams acct ctx (c_messageId ctx) freshId received GLANCE
            (Some (fst truncateInfo)) (Some (snd truncateInfo))) ;;;
       ret (Some (freshId, c_messageId ctx)))%eff
  | _, Some src =>
      (now <- dateNow ;;
       let resumed := resumedTask src now in
       writeFeishuInFlightStore
         (setLastInterruptible (upsertTask inflightStore resumed)
            (c_chatId ctx) (id resumed)) ;;;
       setFeishuStatus c P
         (statusParams acct ctx (messageId src) (id src) received GLANCE None None) ;;;
       ret (Some (id src, messageId src)))%eff
  end.

(** [finishTask] is the rest of the block: queue, dispatch, and the branch on
    what the agent produced.  The optional dispatch of a permission notice,
    which touches no task, is left out. *)
Definition finishTask (c : ReactorCopy) (P : Provider) (agent : Agent)
    (acct : string) (ctx : Ctx) (inFlightTaskId anchorMessageId : string)
    : M World unit :=
  let st next emoji :=
    setFeishuStatus c P
      (statusParams acct ctx anchorMessageId inFlightTaskId next emoji None None) in
  ((if preDispatchThrows agent then throw else ret tt) ;;;
   st queued ONE_SECOND ;;;
   emit (DispatchToAgent (c_messageId ctx)) ;;;
   (if dispatchThrows agent then throw else ret tt) ;;;
   (if replyStarts agent then st working HAMMER else ret tt) ;;;
   (match idle agent with
    | IdleBeforeFinalBranch =>
        onIdle c P acct ctx anchorMessageId inFlightTaskId (replyStarts agent)
    | _ => ret tt
    end) ;;;
   (if countsFinal agent =? 0 then
      if queuedFinal agent then st waiting ALARM
      else
        st failed ERROR ;;;
        callSend P (replyTarget ctx) (Some anchorMessageId) DispatchFailedNotice ;;;
        store <- readFeishuInFlightStore ;;
        writeFeishuInFlightStore
          (setLastInterruptible store (c_chatId ctx) inFlightTaskId)
    else ret tt) ;;;
   (match idle agent with
    | IdleAfterFinalBranch =>
        onIdle c P acct ctx anchorMessageId inFlightTaskId (replyStarts agent)
    | _ => ret tt
    end))%eff.

Definition handleTask (c : ReactorCopy) (P : Provider) (agent : Agent)
    (acct : string) (ctx : Ctx) (wantsContinue : bool) (freshId : string)
    : M World unit :=
  tryCatch
    (resolveStateDir ;;;
     inflightStore <- readFeishuInFlightStore ;;
     r <- beginTask c P acct ctx wantsContinue freshId inflightStore ;;
     match r with
     | None => ret tt
     | Some (inFlightTaskId, anchorMessageId) =>
         finishTask c P agent acct ctx inFlightTaskId anchorMessageId
     end)%eff
    (emit (Log "failed to dispatch message")).

(** [cleanupTypingReactionsForMessage]: only typing indicators added by the
    app are removed. *)
Definition cleanupTypingReactionsForMessage (P : Provider) (anchor : string)
    : M World unit :=
  tryCatch
    (reactions <- callList P anchor TYPING ;;
     foldM (fun (_ : unit) (r : option string * string) =>
              if negb (snd r =? "app")%string then ret tt
              else if negb (truthyOpt (fst r)) then ret tt
              else callRemove P anchor (orElse (fst r) ""))
           tt reactions ;;;
     (if (0 <? Z.of_nat (List.length reactions))
      then emit (Log "cleaned up typing reactions") else ret tt))%eff
    (emit (Log "typing cleanup failed")).

Definition interruptedTask (task : FeishuInFlightTask) (r : StatusReactionState)
    (now : Z) : FeishuInFlightTask :=
  {| id := id task; accountId := accountId task; chatId := chatId task;
     chatType := chatType task; userOpenId := userOpenId task;
     messageId := messageId task; originalText := originalText task;
     truncated := truncated task; state := interrupted;
     reaction := Some {| emojiType := emojiType r; reactionId := reactionId r |};
     runId := runId task; resumeAttempts := resumeAttempts task;
     updatedAtMs := now; interruptedHandled := Some true |}.

Definition reconcilable (acct : string) (now maxAgeMs : Z) (task : FeishuInFlightTask)
    : bool :=
  (accountId task =? acct)%string
  && negb (orElse (interruptedHandled task) false)
  && (state_eqb (state task) queued || state_eqb (state task) working
      || state_eqb (state task) waiting)
  && negb (maxAgeMs <? now - updatedAtMs task).

(** [reconcileFeishuInFlight]; [maxAgeMs] is the resolved bound
    ([Math.max(0, params.maxAgeMs)] or 24 h).  The pair carries [nextStore] and
    whether it still is the object that was read. *)
Definition reconcileFeishuInFlight (c : ReactorCopy) (P : Provider) (acct : string)
    (maxAgeMs : Z) : M World unit :=
  (resolveStateDir ;;;
   store <- readFeishuInFlightStore ;;
   now <- dateNow ;;
   acc <- foldM
     (fun (acc : FeishuInFlightStore * bool) (task : FeishuInFlightTask) =>
        if negb (reconcilable acct now maxAgeMs task) then ret acc
        else
          tryCatch
            (cleanupTypingReactionsForMessage P (messageId task) ;;;
             r <- replaceStatus c P (messageId task) ERROR (reaction task) ;;
             callSend P
               (match chatType task with
                | group => chatId task
                | direct => orElse (userOpenId task) (chatId task)
                end)
               (Some (messageId task)) InterruptedNotice ;;;
             ret (setLastInterruptible
                    (upsertTask (fst acc) (interruptedTask task r now))
                    (chatId task) (id task), true))
            (emit (Log "reconcile inflight failed") ;;; ret acc))
     (store, false) (tasks store) ;;
   if snd acc
   then writeFeishuInFlightStore (fst acc) ;;;
        emit (Log "inflight reconciliation complete")
   else ret tt)%eff.

(** [maybeFinalizeWaitingInFlightTask] of outbound.ts.  The world's store file
    is the one of [accountId ?? "default"]. *)
Definition maybeFinalizeWaitingInFlightTask (c : ReactorCopy) (P : Provider)
    (acct : option string) (replyToMessageId : option string) : M World unit :=
  let anchor := option_map trim replyToMessageId in
  if negb (truthyOpt anchor) then ret tt
  else
    tryCatch
      (resolveStateDir ;;;
       store <- readFeishuInFlightStore ;;
       match find (fun t => (messageId t =? orElse anchor "")%string) (tasks store) with
       | None => ret tt
       | Some task =>
           if negb (state_eqb (state task) waiting)
              || negb (accountId task =? orElse acct "default")%string
           then ret tt
           else
             replaceStatus c P (messageId task) DONE (reaction task) ;;;
             writeFeishuInFlightStore (removeTask store (id task))
       end)%eff
      (ret tt).

(** [feishuOutbound.sendText]: the message is sent, then the task it answers
    is finalised. *)
Definition sendText (c : ReactorCopy) (P : Provider) (to : string) (text : jstext)
    (acct : option string) (replyToId : option string) : M World unit :=
  (callSend P to replyToId (Text text) ;;;
   maybeFinalizeWaitingInFlightTask c P acct replyToId)%eff.

(** The operations of the gateway that write the store file of one account. *)
Inductive Operation :=
| Handle (agent : Agent) (ctx : Ctx) (wantsContinue : bool) (freshId : string)
| Reconcile (maxAgeMs : Z)
| SendText (to : string) (text : jstext) (replyToId : option string).

Definition run (c : ReactorCopy) (P : Provider) (acct : string) (op : Operation)
    : M World unit :=
  match op with
  | Handle agent ctx wantsContinue freshId =>
      handleTask c P agent acct ctx wantsContinue freshId
  | Reconcile maxAgeMs => reconcileFeishuInFlight c P acct maxAgeMs
  | SendText to text replyToId => sendText c P to text (Some acct) replyToId
  end.

(** [op] is a "continue" message that the handler accepts as a resume of [t]. *)
Definition acceptedResume (op : Operation) (store : FeishuInFlightStore)
    (t : FeishuInFlightTask) : Prop :=
  match op with
  | Handle _ ctx true _ =>
      getLastInterruptibleTask store (c_chatId ctx) = Some t /\
      resumable (c_isGroup ctx) (c_senderOpenId ctx) t = true
  | _ => False
  end.

(** [resumeAttempts ?? 0] *)
Definition attempts (t : FeishuInFlightTask) : Z := orElse (resumeAttempts t) 0.

End InFlight.

(** ** The inbound gate (bot.ts) *)

Module Inbound.

Definition DEDUP_TTL_MS : Z := 30 * 60 * 1000.
Definition DEDUP_MAX_SIZE : nat := Z.to_nat 1000.
Definition DEDUP_CLEANUP_INTERVAL_MS : Z := 5 * 60 * 1000.
Definition FEISHU_RECENT_IDS_LIMIT : Z := 250.
Definition FEISHU_STALE_SKEW_WINDOW_MS : Z := 5000.

(** [feishuCfg.staleDrop] as configured (numbers taken as integers). *)
Record RawStaleDrop := {
  raw_enabled : option bool;
  raw_reply : option bool;
  raw_skewWindowMs : option Z;
  raw_recentIdsLimit : option Z
}.

Record StaleDropConfig := {
  enabled : bool;
  reply : bool;
  skewWindowMs : Z;
  recentIdsLimit : nat
}.

Definition resolveStaleDropConfig (cfg : RawStaleDrop) : StaleDropConfig :=
  {| enabled := orElse (raw_enabled cfg) true;
     reply := orElse (raw_reply cfg) true;
     skewWindowMs :=
       match raw_skewWindowMs cfg with
       | Some x => Z.max 0 x
       | None => FEISHU_STALE_SKEW_WINDOW_MS
       end;
     recentIdsLimit :=
       Z.to_nat (match raw_recentIdsLimit cfg with
                 | Some x => Z.max 1 x
                 | None => FEISHU_RECENT_IDS_LIMIT
                 end) |}.

Record FeishuInboundState := {
  lastProcessedSentAtMs : option Z;
  recentMessageIds : option (list string);
  updatedAtMs : option Z
}.

(** The fields of a [FeishuMessageEvent] the gate reads. *)
Record FeishuMessageEvent := {
  message_id : string;
  chat_id : string;
  chat_type_group : bool;
  sender_open_id : string;
  create_time : option string
}.

Record FeishuMessageContext := {
  chatId : string;
  messageId : string;
  senderOpenId : string;
  isGroup : bool;
  createTimeMs : option Z
}.

(** [parseFeishuMessageEvent], as far as the gate is concerned: an absent or
    empty [create_time], or one that does not parse to a finite number, gives
    no [createTimeMs]. *)
Definition parseFeishuMessageEvent (event : FeishuMessageEvent)
    : FeishuMessageContext :=
  {| chatId := chat_id event;
     messageId := message_id event;
     senderOpenId := sender_open_id event;
     isGroup := chat_type_group event;
     createTimeMs :=
       match create_time event with
       | Some s => if truthy s then finiteValue (parseInt10 s) else None
       | None => None
       end |}.

(** The world of the gate: the clock, the in-memory map [processedMessageIds]
    in insertion order with [lastCleanupTime], the state file of each chat of
    the account, and whether the state directory can be resolved and written. *)
Record World := {
  clock : nat -> Z;
  tick : nat;
  processedMessageIds : list (string * Z);
  lastCleanupTime : Z;
  files : string -> FeishuInboundState;
  stateDirOk : bool;
  writable : bool
}.

Definition dateNow : M World Z :=
  fun w => ([], {| clock := clock w; tick := S (tick w);
                   processedMessageIds := processedMessageIds w;
                   lastCleanupTime := lastCleanupTime w; files := files w;
                   stateDirOk := stateDirOk w; writable := writable w |},
            Ret (clock w (tick w))).

Definition hasKey (k : string) (m : list (string * Z)) : bool :=
  existsb (fun e => (fst e =? k)%string) m.

(** The throttled sweep of [tryRecordMessage]. *)
Definition sweep (now : Z) (m : list (string * Z)) (last : Z) : list (string * Z) * Z :=
  if DEDUP_CLEANUP_INTERVAL_MS <? now - last
  then (filter (fun e => negb (DEDUP_TTL_MS <? now - snd e)) m, now)
  else (m, last).

(** [tryRecordMessage] on the map alone. *)
Definition record (messageId : string) (now : Z) (m : list (string * Z)) (last : Z)
    : bool * (list (string * Z) * Z) :=
  let (m1, last1) := sweep now m last in
  if hasKey messageId m1 then (false, (m1, last1))
  else
    let m2 := if (DEDUP_MAX_SIZE <=? List.length m1)%nat then tl m1 else m1 in
    (true, (m2 ++ [(messageId, now)], last1)).

Definition tryRecordMessage (messageId : string) : M World bool :=
  (now <- dateNow ;;
   fun w =>
     let '(ok, (m, last)) :=
       record messageId now (processedMessageIds w) (lastCleanupTime w) in
     ([], {| clock := clock w; tick := tick w; processedMessageIds := m;
             lastCleanupTime := last; files := files w;
             stateDirOk := stateDirOk w; writable := writable w |}, Ret ok))%eff.

Definition resolveStateDir : M World unit :=
  fun w => ([], w, if stateDirOk w then Ret tt else Throw).

(** [readFeishuInboundState]: a missing or corrupt file reads as [{}]. *)
Definition readFeishuInboundState (chat : string) : M World FeishuInboundState :=
  fun w => ([], w, Ret (files w chat)).

Definition writeFeishuInboundState (chat : string) (st : FeishuInboundState)
    : M World unit :=
  fun w =>
    if writable w
    then ([], {| clock := clock w; tick := tick w;
                 processedMessageIds := processedMessageIds w;
                 lastCleanupTime := lastCleanupTime w;
                 files := fun c => if (c =? chat)%string then st else files w c;
                 stateDirOk := stateDirOk w; writable := writable w |}, Ret tt)
    else ([], w, Throw).

(** [new Date(t).toISOString()]: a RangeError outside the range of dates;
    [fmt] renders a date of the range. *)
Definition toISOString (fmt : Z -> jstext) (t : Z) : M World jstext :=
  if Z.abs t <=? 8640000000000000 then ret (fmt t) else throw.

(** "过期消息，被忽略。" *)
Definition staleHeadline : jstext :=
  [0x8FC7; 0x671F; 0x6D88; 0x606F; 0xFF0C; 0x88AB; 0x5FFD; 0x7565; 0x3002]%N.

Definition staleReason : jstext := units "reason=out_of_order_delivery".

Definition staleText (sentAt last : Z) (isoSent isoLast : jstext) : jstext :=
  staleHeadline ++ [10%N]
  ++ units "sentAt=" ++ showZ sentAt ++ units " (" ++ isoSent ++ units ")" ++ [10%N]
  ++ units "lastProcessedSentAt=" ++ showZ last ++ units " (" ++ isoLast
  ++ units ")" ++ [10%N]
  ++ staleReason.

Inductive GateResult :=
| DroppedDuplicate
| DroppedStale
| LetThrough.

(** The block "Persistent dedup + stale drop (best-effort)" of
    [handleFeishuMessage].  An exception anywhere in it is logged and the
    message goes on. *)
Definition persistentGate (cfg : StaleDropConfig) (P : Provider) (fmt : Z -> jstext)
    (ctx : FeishuMessageContext) : M World GateResult :=
  if negb (enabled cfg) then ret LetThrough
  else
    tryCatch
      (resolveStateDir ;;;
       st <- readFeishuInboundState (chatId ctx) ;;
       let recent := orElse (recentMessageIds st) [] in
       if existsb (String.eqb (messageId ctx)) recent then
         emit (Log "skipping duplicate message (persistent)") ;;;
         ret DroppedDuplicate
       else
         let sentAt := createTimeMs ctx in
         let last := lastProcessedSentAtMs st in
         let nextRecent := sliceLast (recentIdsLimit cfg) (recent ++ [messageId ctx]) in
         let isStale :=
           match sentAt, last with
           | Some s, Some l => s <? l - skewWindowMs cfg
           | _, _ => false
           end in
         if isStale then
           isoSent <- toISOString fmt (orElse sentAt 0) ;;
           isoLast <- toISOString fmt (orElse last 0) ;;
           (if reply cfg then
              callSend P (if isGroup ctx then chatId ctx else senderOpenId ctx)
                (Some (messageId ctx))
                (Text (staleText (orElse sentAt 0) (orElse last 0) isoSent isoLast))
            else ret tt) ;;;
           now <- dateNow ;;
           writeFeishuInboundState (chatId ctx)
             {| lastProcessedSentAtMs := lastProcessedSentAtMs st;
                recentMessageIds := Some nextRecent;
                updatedAtMs := Some now |} ;;;
           ret DroppedStale
         else
           let nextLast :=
             match sentAt with
             | Some s => Some (Z.max (orElse last 0) s)
             | None => last
             end in
           now <- dateNow ;;
           writeFeishuInboundState (chatId ctx)
             {| lastProcessedSentAtMs := nextLast;
                recentMessageIds := Some nextRecent;
                updatedAtMs := Some now |} ;;;
           ret LetThrough)%eff
      (emit (Log "persistent dedup/stale check failed") ;;; ret LetThrough)%eff.

(** [handleFeishuMessage] up to the gate.  [rest] gives the events of the
    remainder of the handler (sender lookup, policy checks, task life cycle,
    dispatch to the agent), which reads neither the map nor the state files. *)
Definition handleFeishuMessage (raw : RawStaleDrop) (P : Provider) (fmt : Z -> jstext)
    (rest : FeishuMessageContext -> list Event) (event : FeishuMessageEvent)
    : M World unit :=
  (fresh <- tryRecordMessage (message_id event) ;;
   if negb fresh then emit (Log "skipping duplicate message")
   else
     let ctx := parseFeishuMessageEvent event in
     r <- persistentGate (resolveStaleDropConfig raw) P fmt ctx ;;
     match r with
     | LetThrough => fun w => (rest ctx, w, Ret tt)
     | _ => ret tt
     end)%eff.


End Inbound.

(** ** The announce queue (subagent-announce-queue.ts) *)

Module Announce.

Inductive QueueMode := followup | collect.
Inductive QueueDropPolicy := summarize | old | new.

Record AnnounceQueueItem := {
  announceId : option string;
  prompt : string;
  summaryLine : option string;
  enqueuedAt : Z;
  sessionKey : string;
  origin : option string;       (* the normalized delivery context *)
  originKey : option string;
  highPriority : bool           (* absent reads as false *)
}.

Record AnnounceQueueState := {
  items : list AnnounceQueueItem;
  draining : bool;
  lastEnqueuedAt : Z;
  mode : QueueMode;
  debounceMs : Z;
  cap : Z;
  dropPolicy : QueueDropPolicy;
  droppedCount : Z;
  summaryLines : list string;
  maxAgeMs : Z
}.

(** One call of the queue's [send] callback: the item passed, the time, the
    queue's [maxAgeMs] then, and whether the promise resolved. *)
Record SendCall := {
  sentItem : AnnounceQueueItem;
  sentAt : Z;
  sentMaxAge : Z;
  resolved : bool
}.

(** The world of one queue key: the clock, the queue object, whether it is
    still in [ANNOUNCE_QUEUES], and the calls of [send] so far. *)
Record World := {
  clock : nat -> Z;
  tick : nat;
  queue : AnnounceQueueState;
  inMap : bool;
  sent : list SendCall
}.

Definition withQueue (w : World) (q : AnnounceQueueState) : World :=
  {| clock := clock w; tick := tick w; queue := q; inMap := inMap w; sent := sent w |}.

Definition dateNow : M World Z :=
  fun w => ([], {| clock := clock w; tick := S (tick w); queue := queue w;
                   inMap := inMap w; sent := sent w |}, Ret (clock w (tick w))).

Definition getQueue : M World AnnounceQueueState := fun w => ([], w, Ret (queue w)).

Definition modifyQueue (f : AnnounceQueueState -> AnnounceQueueState) : M World unit :=
  fun w => ([], withQueue w (f (queue w)), Ret tt).

Definition setItems (l : list AnnounceQueueItem) (q : AnnounceQueueState) :=
  {| items := l; draining := draining q; lastEnqueuedAt := lastEnqueuedAt q;
     mode := mode q; debounceMs := debounceMs q; cap := cap q;
     dropPolicy := dropPolicy q; droppedCount := droppedCount q;
     summaryLines := summaryLines q; maxAgeMs := maxAgeMs q |}.

Definition setDraining (b : bool) (q : AnnounceQueueState) :=
  {| items := items q; draining := b; lastEnqueuedAt := lastEnqueuedAt q;
     mode := mode q; debounceMs := debounceMs q; cap := cap q;
     dropPolicy := dropPolicy q; droppedCount := droppedCount q;
     summaryLines := summaryLines q; maxAgeMs := maxAgeMs q |}.

Definition setLastEnqueuedAt (t : Z) (q : AnnounceQueueState) :=
  {| items := items q; draining := draining q; lastEnqueuedAt := t;
     mode := mode q; debounceMs := debounceMs q; cap := cap q;
     dropPolicy := dropPolicy q; droppedCount := droppedCount q;
     summaryLines := summaryLines q; maxAgeMs := maxAgeMs q |}.

Definition clearQueueSummaryState (q : AnnounceQueueState) :=
  {| items := items q; draining := draining q; lastEnqueuedAt := lastEnqueuedAt q;
     mode := mode q; debounceMs := debounceMs q; cap := cap q;
     dropPolicy := dropPolicy q; droppedCount := 0;
     summaryLines := []; maxAgeMs := maxAgeMs q |}.

Definition withPrompt (p : string) (i : AnnounceQueueItem) : AnnounceQueueItem :=
  {| announceId := announceId i; prompt := p; summaryLine := summaryLine i;
     enqueuedAt := enqueuedAt i; sessionKey := sessionKey i; origin := origin i;
     originKey := originKey i; highPriority := highPriority i |}.

(** [isStaleItem]; [maxAgeMs] is always a finite number here. *)
Definition isStaleItem (q : AnnounceQueueState) (item : AnnounceQueueItem) (now : Z)
    : bool :=
  if highPriority item then false
  else if maxAgeMs q <=? 0 then false
  else maxAgeMs q <? now - enqueuedAt item.

(** [dropStaleItemsInPlace], on the items. *)
Definition dropStaleItemsInPlace (q : AnnounceQueueState) (now : Z)
    : AnnounceQueueState :=
  if maxAgeMs q <=? 0 then q
  else setItems (filter (fun i => negb (isStaleItem q i now)) (items q)) q.

(** How the drain classifies an item for [hasCrossChannelItems]. *)
Inductive ChannelKey := NoOrigin | Cross | Key (k : string).

Definition channelKey (i : AnnounceQueueItem) : ChannelKey :=
  match origin i, originKey i with
  | None, _ => NoOrigin
  | Some _, None => Cross
  | Some _, Some k => if truthy k then Key k else Cross
  end.

(** The helpers of utils/queue-helpers.ts, which is not part of the sources. *)
Record Helpers := {
  buildQueueSummaryPrompt : QueueDropPolicy -> Z -> list string -> option string;
  buildCollectPrompt : list AnnounceQueueItem -> option string -> string;
  hasCrossChannelItems : list ChannelKey -> bool
}.

Definition previewQueueSummaryPrompt (H : Helpers) (q : AnnounceQueueState)
    : option string :=
  buildQueueSummaryPrompt H (dropPolicy q) (droppedCount q) (summaryLines q).

(** [sendIfFresh]: [ok n item] says whether the [n]-th call of [send]
    resolves. *)
Definition sendIfFresh (ok : nat -> AnnounceQueueItem -> bool)
    (item : AnnounceQueueItem) : M World unit :=
  (now <- dateNow ;;
   q <- getQueue ;;
   if isStaleItem q item now then emit (Log "stale_message_dropped")
   else
     fun w =>
       let r := ok (List.length (sent w)) item in
       ([Log (if r then "queue_delivery" else "queue_delivery_failed")],
        {| clock := clock w; tick := tick w; queue := queue w; inMap := inMap w;
           sent := sent w ++ [{| sentItem := item; sentAt := now;
                                 sentMaxAge := maxAgeMs q; resolved := r |}] |},
        if r then Ret tt else Throw))%eff.

Inductive LoopEnd := Finished | OutOfFuel.

Definition shiftItems : M World unit :=
  modifyQueue (fun q => setItems (tl (items q)) q).

(** [items.at(-1)] *)
Definition lastItem (l : list AnnounceQueueItem) : option AnnounceQueueItem :=
  nth_error l (List.length l - 1).

(** A summary prompt that passes [if (summaryPrompt)]. *)
Definition truthySummary (s : option string) : option string :=
  match s with
  | Some t => if truthy t then Some t else None
  | None => None
  end.

(** The [while] loop of the drain.  [fuel] bounds the number of iterations;
    [await waitForQueueDebounce(queue)] only lets time pass and is not
    modelled otherwise: the clock decides what the next [Date.now()] reads. *)
Fixpoint drainLoop (H : Helpers) (ok : nat -> AnnounceQueueItem -> bool)
    (fuel : nat) (forceIndividualCollect : bool) : M World LoopEnd :=
  match fuel with
  | O => ret OutOfFuel
  | S fuel' =>
      (q0 <- getQueue ;;
       if negb (negb (Nat.eqb (List.length (items q0)) 0) || (0 <? droppedCount q0))
       then ret Finished
       else
         now <- dateNow ;;
         modifyQueue (fun q => dropStaleItemsInPlace q now) ;;;
         q <- getQueue ;;
         match mode q with
         | collect =>
             if forceIndividualCollect
                || hasCrossChannelItems H (map channelKey (items q))
             then
               match items q with
               | [] => ret Finished
               | next :: _ =>
                   sendIfFresh ok next ;;;
                   shiftItems ;;;
                   drainLoop H ok fuel' true
               end
             else
               let its := items q in
               let summary := previewQueueSummaryPrompt H q in
               let collected := buildCollectPrompt H its summary in
               match lastItem its with
               | None => ret Finished
               | Some final =>
                   sendIfFresh ok (withPrompt collected final) ;;;
                   modifyQueue (fun q' => setItems (skipn (List.length its) (items q')) q') ;;;
                   (if truthyOpt summary then modifyQueue clearQueueSummaryState
                    else ret tt) ;;;
                   drainLoop H ok fuel' false
               end
         | followup =>
             match truthySummary (previewQueueSummaryPrompt H q) with
             | Some summaryPrompt =>
                 match items q with
                 | [] => ret Finished
                 | next :: _ =>
                     sendIfFresh ok (withPrompt summaryPrompt next) ;;;
                     shiftItems ;;;
                     modifyQueue clearQueueSummaryState ;;;
                     drainLoop H ok fuel' forceIndividualCollect
                 end
             | None =>
                 match items q with
                 | [] => ret Finished
                 | next :: _ =>
                     sendIfFresh ok next ;;;
                     shiftItems ;;;
                     drainLoop H ok fuel' forceIndividualCollect
                 end
             end
         end)%eff
  end.

Definition removeFromMap : M World unit :=
  fun w => ([], {| clock := clock w; tick := tick w; queue := queue w;
                   inMap := false; sent := sent w |}, Ret tt).

(** One run of the body of [scheduleAnnounceDrain]: the guarded loop, the
    [catch] and the [finally].  The result says whether the [finally] has
    scheduled another drain. *)
Definition drainPass (H : Helpers) (ok : nat -> AnnounceQueueItem -> bool)
    : M World bool :=
  (w <- get ;;
   if negb (inMap w) || draining (queue w) then ret false
   else
     modifyQueue (setDraining true) ;;;
     tryCatch
       (drainLoop H ok (S (List.length (items (queue w)))) false ;;; ret tt)
       (now <- dateNow ;;
        modifyQueue (setLastEnqueuedAt now) ;;;
        emit (Log "announce queue drain failed")) ;;;
     modifyQueue (setDraining false) ;;;
     q <- getQueue ;;
     if Nat.eqb (List.length (items q)) 0 && (droppedCount q =? 0)
     then removeFromMap ;;; ret false
     else ret true)%eff.

(** [scheduleAnnounceDrain], followed through at most [passes] drains; [true]
    when a further drain is still scheduled at the end. *)
Fixpoint scheduleAnnounceDrain (H : Helpers) (ok : nat -> AnnounceQueueItem -> bool)
    (passes : nat) : M World bool :=
  match passes with
  | O => ret true
  | S p =>
      (again <- drainPass H ok ;;
       if again then scheduleAnnounceDrain H ok p else ret false)%eff
  end.

Record AnnounceQueueSettings := {
  s_mode : QueueMode;
  s_debounceMs : option Z;
  s_cap : option Z;
  s_dropPolicy : option QueueDropPolicy;
  s_maxAgeMs : option Z
}.

(** [getAnnounceQueue]: the queue of the key, created or updated. *)
Definition getAnnounceQueue (existing : option AnnounceQueueState)
    (settings : AnnounceQueueSettings) : AnnounceQueueState :=
  let capOf d := match s_cap settings with
                 | Some c => if 0 <? c then c else d
                 | None => d
                 end in
  match existing with
  | Some q =>
      {| items := items q; draining := draining q;
         lastEnqueuedAt := lastEnqueuedAt q;
         mode := s_mode settings;
         debounceMs := match s_debounceMs settings with
                       | Some d => Z.max 0 d | None => debounceMs q end;
         cap := capOf (cap q);
         dropPolicy := orElse (s_dropPolicy settings) (dropPolicy q);
         droppedCount := droppedCount q; summaryLines := summaryLines q;
         maxAgeMs := match s_maxAgeMs settings with
                     | Some a => Z.max 0 a | None => maxAgeMs q end |}
  | None =>
      {| items := []; draining := false; lastEnqueuedAt := 0;
         mode := s_mode settings;
         debounceMs := match s_debounceMs settings with
                       | Some d => Z.max 0 d | None => 1000 end;
         cap := capOf 20;
         dropPolicy := orElse (s_dropPolicy settings) summarize;
         droppedCount := 0; summaryLines := [];
         maxAgeMs := match s_maxAgeMs settings with
                     | Some a => Z.max 0 a | None => 10 * 60 * 1000 end |}
  end.



End Announce.

(** ** The tool-result guard of a session transcript *)

Module Guard.

Inductive Role := assistant | toolResult | otherRole.

(** A content block: a text block with a string [text], a tool call of an
    assistant message, or anything else. *)
Inductive ContentBlock :=
| TextBlock (text : jstext)
| ToolCallBlock (id : string) (name : option string)
| OtherBlock (tag : string).

Record AgentMessage := {
  role : Role;
  content : option (list ContentBlock);   (* [None]: not an array *)
  toolCallId : option string;
  toolName : option string;
  isError : bool
}.

Definition withContent (c : list ContentBlock) (m : AgentMessage) : AgentMessage :=
  {| role := role m; content := Some c; toolCallId := toolCallId m;
     toolName := toolName m; isError := isError m |}.

Definition role_eqb (a b : Role) : bool :=
  match a, b with
  | assistant, assistant | toolResult, toolResult | otherRole, otherRole => true
  | _, _ => false
  end.

(** [text.length] *)
Definition len (t : jstext) : Z := Z.of_nat (List.length t).

Definition GUARD_TRUNCATION_SUFFIX : jstext :=
  [10; 10; 9888; 65039]%N
  ++ units " [Content truncated during persistence " ++ [8212%N]
  ++ units " original exceeded size limit. "
  ++ units "Use offset/limit parameters or request specific sections for large content.]".

Definition RECOVERABLE_ERROR_HINT_PREFIX : jstext :=
  [10; 10]%N ++ units "[RECOVERABLE_TOOL_ERROR]".

Definition textOf (b : ContentBlock) : option jstext :=
  match b with TextBlock t => Some t | _ => None end.

Fixpoint texts (c : list ContentBlock) : list jstext :=
  match c with
  | [] => []
  | TextBlock t :: r => t :: texts r
  | _ :: r => texts r
  end.

Definition getToolResultTextBlocks (msg : AgentMessage) : list jstext :=
  match role msg, content msg with
  | toolResult, Some c => texts c
  | _, _ => []
  end.

Definition appendToolResultHint (msg : AgentMessage) (hint : jstext) : AgentMessage :=
  match role msg, content msg with
  | toolResult, Some c => withContent (c ++ [TextBlock hint]) msg
  | _, _ => msg
  end.

Record Meta := {
  m_toolCallId : option string;
  m_toolName : option string;
  m_isSynthetic : bool
}.

(** [s.toLowerCase()] on the letters A to Z. *)
Definition lowerAscii (a : ascii) : ascii :=
  let n := nat_of_ascii a in
  if ((65 <=? n) && (n <=? 90))%nat then ascii_of_nat (n + 32) else a.

Fixpoint toLowerCase (s : string) : string :=
  match s with
  | EmptyString => EmptyString
  | String a r => String (lowerAscii a) (toLowerCase r)
  end.

(** [texts.join("\n")] *)
Fixpoint joinLines (l : list jstext) : jstext :=
  match l with
  | [] => []
  | [t] => t
  | t :: r => t ++ 10%N :: joinLines r
  end.

(** [annotateRecoverableToolErrors].  [editHint meta text] stands for the two
    regular expressions on the text of an edit failure and for the rendering
    of the hint with its JSON payload: the hint when the first expression
    matches. *)
Definition annotateRecoverableToolErrors (editHint : Meta -> jstext -> option jstext)
    (msg : AgentMessage) (meta : Meta) : AgentMessage :=
  if m_isSynthetic meta then msg
  else
    match role msg with
    | toolResult =>
        let name := toLowerCase (trim (orElse (m_toolName meta)
                                         (orElse (toolName msg) ""))) in
        if negb (isError msg) then msg
        else
          let existingText := joinLines (getToolResultTextBlocks msg) in
          if includes RECOVERABLE_ERROR_HINT_PREFIX existingText then msg
          else if (name =? "edit")%string then
            match editHint meta existingText with
            | Some hint => appendToolResultHint msg hint
            | None => msg
            end
          else msg
    | _ => msg
    end.

(** [text.lastIndexOf(c, from)]: the last index at most [from] that holds
    [c]; [None] stands for -1. *)
Fixpoint lastIndexOf (c : N) (from : nat) (t : jstext) {struct t} : option nat :=
  match t with
  | [] => None
  | a :: r =>
      match match from with
            | O => None
            | S f => option_map S (lastIndexOf c f r)
            end with
      | Some i => Some i
      | None => if N.eqb a c then Some O else None
      end
  end.

Definition totalTextChars (c : list ContentBlock) : Z :=
  fold_left (fun acc b => match b with TextBlock t => acc + len t | _ => acc end) c 0.

(** [Math.floor(HARD_MAX_TOOL_RESULT_CHARS * blockShare)] with
    [blockShare = text.length / totalTextChars], in doubles as the source
    computes it: the quotient is rounded, then its product with the limit.
    The lengths and the limit are integers below 2^53. *)
Definition flooredShare (hardMax total n : Z) : Z :=
  let blockShare := roundQuotient n total in
  let product := roundQuotient (hardMax * fst blockShare) (snd blockShare) in
  fst product / snd product.

(** The budget of a block of [n] chars among [total]. *)
Definition blockBudget (hardMax total n : Z) : Z :=
  Z.max 2000 (flooredShare hardMax total n - len GUARD_TRUNCATION_SUFFIX).

(** [lastNewline > blockBudget * 0.8] on integers is [5 * lastNewline >
    4 * blockBudget]. *)
Definition cutPoint (budget : Z) (t : jstext) : Z :=
  match lastIndexOf 10%N (Z.to_nat budget) t with
  | Some i => if 4 * budget <? 5 * Z.of_nat i then Z.of_nat i else budget
  | None => budget
  end.

Definition capBlock (hardMax total : Z) (b : ContentBlock) : ContentBlock :=
  match b with
  | TextBlock t =>
      let budget := blockBudget hardMax total (len t) in
      if len t <=? budget then b
      else TextBlock (firstn (Z.to_nat (cutPoint budget t)) t ++ GUARD_TRUNCATION_SUFFIX)
  | _ => b
  end.

(** [capToolResultSize], with [HARD_MAX_TOOL_RESULT_CHARS] as [hardMax]. *)
Definition capToolResultSize (hardMax : Z) (msg : AgentMessage) : AgentMessage :=
  match role msg, content msg with
  | toolResult, Some c =>
      let total := totalTextChars c in
      if total <=? hardMax then msg
      else withContent (map (capBlock hardMax total) c) msg
  | _, _ => msg
  end.

(** What the guard imports from modules that are not part of these sources:
    the constant of pi-embedded-runner/tool-result-truncation.ts, the repair
    functions of session-transcript-repair.ts and the readers of
    tool-call-id.ts.  [sanitizeToolCallInputs] is applied to one message and
    gives back at most one. *)
Record Imports := {
  HARD_MAX_TOOL_RESULT_CHARS : Z;
  makeMissingToolResult : string -> option string -> AgentMessage;
  sanitizeToolCallInputs : AgentMessage -> option AgentMessage;
  extractToolCallsFromAssistant : AgentMessage -> list (string * option string);
  extractToolResultId : AgentMessage -> option string;
  editHint : Meta -> jstext -> option jstext
}.

(** The result of the before_message_write hook. *)
Record HookResult := {
  block : bool;
  message : option AgentMessage
}.

Record Options := {
  transformMessageForPersistence : option (AgentMessage -> AgentMessage);
  transformToolResultForPersistence : option (AgentMessage -> Meta -> AgentMessage);
  allowSyntheticToolResults : option bool;
  beforeMessageWriteHook : option (AgentMessage -> option HookResult)
}.

Definition noOptions : Options :=
  {| transformMessageForPersistence := None;
     transformToolResultForPersistence := None;
     allowSyntheticToolResults := None;
     beforeMessageWriteHook := None |}.

(** The session manager and the guard's closure: the entries written by the
    original [appendMessage], the [pending] map in insertion order, the
    session file and the number of transcript updates emitted. *)
Record Session := {
  entries : list AgentMessage;
  pending : list (string * option string);
  sessionFile : option string;
  updates : nat
}.

Definition originalAppend (m : AgentMessage) (s : Session) : Session :=
  {| entries := entries s ++ [m]; pending := pending s;
     sessionFile := sessionFile s; updates := updates s |}.

Definition setPending (p : list (string * option string)) (s : Session) : Session :=
  {| entries := entries s; pending := p; sessionFile := sessionFile s;
     updates := updates s |}.

Definition emitSessionTranscriptUpdate (s : Session) : Session :=
  {| entries := entries s; pending := pending s; sessionFile := sessionFile s;
     updates := S (updates s) |}.

(** [Map.prototype.set], [delete] and [get] on the insertion-ordered map. *)
Fixpoint mapSet (k : string) (v : option string) (l : list (string * option string))
    : list (string * option string) :=
  match l with
  | [] => [(k, v)]
  | (k', v') :: r => if (k' =? k)%string then (k, v) :: r else (k', v') :: mapSet k v r
  end.

Definition mapDelete (k : string) (l : list (string * option string))
    : list (string * option string) :=
  filter (fun e => negb (fst e =? k)%string) l.

Fixpoint mapGet (k : string) (l : list (string * option string)) : option string :=
  match l with
  | [] => None
  | (k', v) :: r => if (k' =? k)%string then v else mapGet k r
  end.

Section Installed.
Variable I : Imports.
Variable opts : Options.

Definition persistMessage (m : AgentMessage) : AgentMessage :=
  match transformMessageForPersistence opts with
  | Some f => f m
  | None => m
  end.

Definition persistToolResult (m : AgentMessage) (meta : Meta) : AgentMessage :=
  annotateRecoverableToolErrors (editHint I)
    (match transformToolResultForPersistence opts with
     | Some f => f m meta
     | None => m
     end) meta.

Definition allowSynthetic : bool := orElse (allowSyntheticToolResults opts) true.

(** [applyBeforeWriteHook]; [None] is the blocked message. *)
Definition applyBeforeWriteHook (msg : AgentMessage) : option AgentMessage :=
  match beforeMessageWriteHook opts with
  | None => Some msg
  | Some beforeWrite =>
      match beforeWrite msg with
      | Some result =>
          if block result then None
          else match message result with
               | Some m => Some m
               | None => Some msg
               end
      | None => Some msg
      end
  end.

Definition flushOne (s : Session) (e : string * option string) : Session :=
  let synthetic := makeMissingToolResult I (fst e) (snd e) in
  match applyBeforeWriteHook
          (persistToolResult (persistMessage synthetic)
             {| m_toolCallId := Some (fst e); m_toolName := snd e;
                m_isSynthetic := true |}) with
  | Some flushed => originalAppend flushed s
  | None => s
  end.

Definition flushPendingToolResults (s : Session) : Session :=
  match pending s with
  | [] => s
  | _ :: _ =>
      setPending []
        (if allowSynthetic then fold_left flushOne (pending s) s else s)
  end.

Definition nonEmpty {A} (l : list A) : bool :=
  match l with [] => false | _ :: _ => true end.

(** [guardedAppend], as a change of the session. *)
Definition guardedAppend (msg : AgentMessage) (s : Session) : Session :=
  let sanitized :=
    match role msg with
    | assistant => sanitizeToolCallInputs I msg
    | _ => Some msg
    end in
  match sanitized with
  | None =>
      if allowSynthetic && nonEmpty (pending s) then flushPendingToolResults s else s
  | Some nextMessage =>
      match role nextMessage with
      | toolResult =>
          let id := extractToolResultId I nextMessage in
          let name := if truthyOpt id then mapGet (orElse id "") (pending s) else None in
          let s1 := if truthyOpt id
                    then setPending (mapDelete (orElse id "") (pending s)) s else s in
          let capped :=
            capToolResultSize (HARD_MAX_TOOL_RESULT_CHARS I) (persistMessage nextMessage) in
          match applyBeforeWriteHook
                  (persistToolResult capped
                     {| m_toolCallId := id; m_toolName := name;
                        m_isSynthetic := false |}) with
          | None => s1
          | Some persisted => originalAppend persisted s1
          end
      | nextRole =>
          let toolCalls :=
            match nextRole with
            | assistant => extractToolCallsFromAssistant I nextMessage
            | _ => []
            end in
          let s1 :=
            if allowSynthetic then
              let s' :=
                if nonEmpty (pending s)
                   && (negb (nonEmpty toolCalls) || negb (role_eqb nextRole assistant))
                then flushPendingToolResults s else s in
              if nonEmpty (pending s') && nonEmpty toolCalls
              then flushPendingToolResults s' else s'
            else s in
          match applyBeforeWriteHook (persistMessage nextMessage) with
          | None => s1
          | Some finalMessage =>
              let s2 := originalAppend finalMessage s1 in
              let s3 := if truthyOpt (sessionFile s2)
                        then emitSessionTranscriptUpdate s2 else s2 in
              setPending
                (fold_left (fun p call => mapSet (fst call) (snd call) p)
                   toolCalls (pending s3)) s3
          end
      end
  end.

Definition getPendingIds (s : Session) : list string := map fst (pending s).

(** A run of appends through the guard. *)
Definition appendAll (msgs : list AgentMessage) (s : Session) : Session :=
  fold_left (fun s m => guardedAppend m s) msgs s.

End Installed.

Definition newSession (file : option string) : Session :=
  {| entries := []; pending := []; sessionFile := file; updates := 0 |}.

(** Modelled from the spec: the imports as the spec describes them.  The
    placeholder of a missing result is an error tool result carrying the id
    of the call; the sanitizer keeps a well-formed message; the tool calls of
    an assistant message are its tool-call blocks, and the id of a tool
    result is its [toolCallId]. *)
Fixpoint toolCallsOf (c : list ContentBlock) : list (string * option string) :=
  match c with
  | [] => []
  | ToolCallBlock id name :: r => (id, name) :: toolCallsOf r
  | _ :: r => toolCallsOf r
  end.

Definition specImports (hardMax : Z) : Imports :=
  {| HARD_MAX_TOOL_RESULT_CHARS := hardMax;
     makeMissingToolResult := fun id name =>
       {| role := toolResult;
          content := Some [TextBlock (units "missing tool result in session history")];
          toolCallId := Some id; toolName := Some (orElse name "unknown");
          isError := true |};
     sanitizeToolCallInputs := fun m => Some m;
     extractToolCallsFromAssistant := fun m =>
       match content m with Some c => toolCallsOf c | None => [] end;
     extractToolResultId := toolCallId;
     editHint := fun _ _ => None |}.

End Guard.

(** ** Texts: white space, words and the regular expressions of the sources *)

Module JsText.
Local Open Scope N_scope.

(** [\s], which is also what [trim] removes: the white space and the line
    terminators of ECMAScript. *)
Definition isWhite (c : N) : bool :=
  ((9 <=? c) && (c <=? 13)) || (c =? 32) || (c =? 160) || (c =? 5760)
  || ((8192 <=? c) && (c <=? 8202)) || (c =? 8232) || (c =? 8233)
  || (c =? 8239) || (c =? 8287) || (c =? 12288) || (c =? 65279).

(** [\w] *)
Definition isWord (c : N) : bool :=
  ((48 <=? c) && (c <=? 57)) || ((65 <=? c) && (c <=? 90)) || (c =? 95)
  || ((97 <=? c) && (c <=? 122)).

(** The letters a to z in upper case.  Under the flag [i] (without [u]) a
    code unit outside ASCII never matches an ASCII letter, so a pattern
    character matches the code units with the same [upper]. *)
Definition upper (c : N) : N :=
  if (97 <=? c) && (c <=? 122) then c - 32 else c.

Definition sameLetter (p c : N) : bool := upper p =? upper c.

Fixpoint dropWhile (f : N -> bool) (t : jstext) : jstext :=
  match t with
  | [] => []
  | c :: r => if f c then dropWhile f r else t
  end.

Fixpoint takeWhile (f : N -> bool) (t : jstext) : jstext :=
  match t with
  | [] => []
  | c :: r => if f c then c :: takeWhile f r else []
  end.

Definition trimStart (t : jstext) : jstext := dropWhile isWhite t.
Definition trimEnd (t : jstext) : jstext := rev (dropWhile isWhite (rev t)).
(** [t.trim()] *)
Definition trimBoth (t : jstext) : jstext := trimEnd (trimStart t).

(** A literal pattern at the start of [t], under the flag [i]: the text
    after it. *)
Fixpoint matchCI (pat t : jstext) : option jstext :=
  match pat, t with
  | [], _ => Some t
  | _ :: _, [] => None
  | p :: pat', c :: t' => if sameLetter p c then matchCI pat' t' else None
  end.

(** [\b] between a word character and [rest], and between a character that
    is not a word character and [rest]. *)
Definition wordEnds (rest : jstext) : bool :=
  match rest with [] => true | c :: _ => negb (isWord c) end.

Definition wordStarts (rest : jstext) : bool :=
  match rest with [] => false | c :: _ => isWord c end.

(** The leftmost position at which [here] matches. *)
Fixpoint search {A} (here : jstext -> option A) (t : jstext) : option A :=
  match here t with
  | Some a => Some a
  | None => match t with [] => None | _ :: r => search here r end
  end.

(** A literal pattern at the start of [t]: the text after it. *)
Fixpoint matchCase (pat t : jstext) : option jstext :=
  match pat, t with
  | [], _ => Some t
  | _ :: _, [] => None
  | p :: pat', c :: t' => if p =? c then matchCase pat' t' else None
  end.

(** [t.indexOf(needle)], as the text before the first occurrence and the
    text after it. *)
Fixpoint breakAt (needle t : jstext) {struct t} : option (jstext * jstext) :=
  match matchCase needle t with
  | Some rest => Some ([], rest)
  | None =>
      match t with
      | [] => None
      | c :: r =>
          match breakAt needle r with
          | Some (before, after) => Some (c :: before, after)
          | None => None
          end
      end
  end.

End JsText.

(** ** Continue messages (bot.ts) *)

Module BotText.
Import JsText.

(** The three [CONTINUE_PATTERNS]: [/^继续\b/i], [/^continue\b/i] and
    [/^resume\b/i].  The word boundary after "继续", whose last character is
    not a word character, asks for a word character next; after "continue"
    and "resume" it asks for the end or a character that is not one. *)
Definition continueZh (t : jstext) : bool :=
  match matchCI [32487; 32493]%N t with
  | Some rest => wordStarts rest
  | None => false
  end.

Definition continueEn (t : jstext) : bool :=
  match matchCI (units "continue") t with
  | Some rest => wordEnds rest
  | None => false
  end.

Definition resumeEn (t : jstext) : bool :=
  match matchCI (units "resume") t with
  | Some rest => wordEnds rest
  | None => false
  end.

Definition isContinueMessage (text : jstext) : bool :=
  let t := trimBoth text in
  match t with
  | [] => false
  | _ :: _ => continueZh t || continueEn t || resumeEn t
  end.

End BotText.

(** ** Recoverable tool errors (session-tool-result-guard.ts and
       pi-embedded-runner/recoverable-tool-errors.ts) *)

Module Recovery.
Import JsText Guard.

Definition notFoundPhrase : jstext := units "Could not find the exact text".

(** [/Could not find the exact text\b/i] at the start of [t]. *)
Definition notFoundHere (t : jstext) : option unit :=
  match matchCI notFoundPhrase t with
  | Some rest => if wordEnds rest then Some tt else None
  | None => None
  end.

(** [/Could not find the exact text\b/i.test(text)] *)
Definition matchNotFound (text : jstext) : bool :=
  match search notFoundHere text with Some _ => true | None => false end.

(** [/Could not find the exact text in ([^\n.]+)\./i] at the start of [t]:
    the group.  The group takes every character up to the first newline or
    full stop, and a full stop has to follow. *)
Definition pathHere (t : jstext) : option jstext :=
  match matchCI (units "Could not find the exact text in ") t with
  | Some rest =>
      let run := takeWhile (fun c => negb ((c =? 10) || (c =? 46))%N) rest in
      match run, skipn (List.length run) rest with
      | _ :: _, 46%N :: _ => Some run
      | _, _ => None
      end
  | None => None
  end.

(** [existingText.match(...)?.[1]?.trim()] *)
Definition hintPath (text : jstext) : option jstext :=
  option_map trimBoth (search pathHere text).

Definition nonEmptyText (t : jstext) : bool :=
  match t with [] => false | _ :: _ => true end.

(** The lines of the hint before [filter(Boolean)]; [payloadJson] is
    [JSON.stringify(payload, null, 2)]. *)
Definition hintLines (payloadJson : jstext) (filePath : option jstext) : list jstext :=
  [RECOVERABLE_ERROR_HINT_PREFIX;
   units "kind: EDIT_EXACT_MATCH_NOT_FOUND"]
  ++ match filePath with
     | Some p => if nonEmptyText p then [units "path: " ++ p] else []
     | None => []
     end
  ++ [units "recovery_payload_json:";
      units "```json";
      payloadJson;
      units "```";
      units "suggested_recovery:";
      units "- call read(path) to fetch the current file content (head 100-200 lines)";
      units "- retry edit with a smaller/unique oldText anchor (e.g. only the header line)";
      units "- if still failing, rebuild the full updated content and use write as a fallback (ask first if risky)"].

(** The hint of [annotateRecoverableToolErrors] for the text of an edit
    failure.  [stringify toolCallId path] stands for [JSON.stringify] on the
    payload, whose only varying fields are these two. *)
Definition renderEditHint (stringify : option string -> option jstext -> jstext)
    (meta : Meta) (existingText : jstext) : option jstext :=
  if matchNotFound existingText then
    let filePath := hintPath existingText in
    Some (joinLines (filter nonEmptyText
                       (hintLines (stringify (m_toolCallId meta) filePath) filePath)))
  else None.

(** [LastToolError] and [RecoverableToolError]; the only kind is
    [EDIT_EXACT_MATCH_NOT_FOUND]. *)
Record LastToolError := {
  l_toolName : option string;
  l_error : option jstext
}.

Record RecoverableToolError := {
  r_toolName : string;
  r_path : option jstext;
  r_rawError : jstext
}.

Definition oldTextPhrase : jstext := units "The old text".

(** [([^\n]+?)\.\s*The old text] from [rest] on, with [taken] already in the
    group (in reverse): the shortest group. *)
Fixpoint lazyPath (taken rest : jstext) : option jstext :=
  match rest with
  | [] => None
  | c :: r =>
      if (c =? 10)%N then None
      else
        match r with
        | 46%N :: r' =>
            match matchCI oldTextPhrase (dropWhile isWhite r') with
            | Some _ => Some (rev (c :: taken))
            | None => lazyPath (c :: taken) r
            end
        | _ => lazyPath (c :: taken) r
        end
  end.

(** [/Could not find the exact text in ([^\n]+?)\.\s*The old text/i] at the
    start of [t]: the group. *)
Definition errorPathHere (t : jstext) : option jstext :=
  match matchCI (units "Could not find the exact text in ") t with
  | Some rest => lazyPath [] rest
  | None => None
  end.

(** [classifyRecoverableToolError] *)
Definition classifyRecoverableToolError (lastToolError : option LastToolError)
    : option RecoverableToolError :=
  match lastToolError with
  | None => None
  | Some e =>
      let name := toLowerCase (trim (orElse (l_toolName e) "")) in
      let error := orElse (l_error e) [] in
      if (name =? "edit")%string then
        if matchNotFound error then
          let path := option_map trimBoth (search errorPathHere error) in
          Some {| r_toolName := name;
                  r_path := match path with
                            | Some p => if nonEmptyText p then Some p else None
                            | None => None
                            end;
                  r_rawError := error |}
        else None
      else None
  end.

End Recovery.

(** ** Sanitizers of outbound text (sanitize.ts) *)

Module Sanitize.
Import JsText.

(** [text.split(/(\s+)/)]: the tokens between runs of white space and the
    runs themselves, in turn; the first and the last part are tokens, empty
    when the text starts or ends with white space.  [cur] is the part being
    read, in reverse. *)
Fixpoint splitParts (inWhite : bool) (cur : jstext) (t : jstext) : list jstext :=
  match t with
  | [] => if inWhite then [rev cur; []] else [rev cur]
  | c :: r =>
      if isWhite c then
        if inWhite then splitParts true (c :: cur) r
        else rev cur :: splitParts true [c] r
      else
        if inWhite then rev cur :: splitParts false [c] r
        else splitParts false (c :: cur) r
  end.

Definition splitWhite (text : jstext) : list jstext := splitParts false [] text.

(** The loop that wraps a token: [rest] is [part.slice(i)].  Each round adds
    the next [wrapAt] characters, and a newline if more follow. *)
Fixpoint wrapLoop (fuel wrapAt : nat) (rest : jstext) : jstext :=
  match fuel with
  | O => []
  | S fuel' =>
      match rest with
      | [] => []
      | _ :: _ =>
          firstn wrapAt rest
          ++ (match skipn wrapAt rest with [] => [] | _ :: _ => [10%N] end)
          ++ wrapLoop fuel' wrapAt (skipn wrapAt rest)
      end
  end.

(** What [map] does to a part; [None] when the loop does not end, which is
    the case of a long token with [wrapAt] at most 0. *)
Definition wrapPart (tokenLimit wrapAt : Z) (part : jstext) : option jstext :=
  match part with
  | [] => Some part
  | _ :: _ =>
      if existsb isWhite part then Some part
      else if existsb (N.eqb 10) part then Some part
      else if Z.of_nat (List.length part) <=? tokenLimit then Some part
      else if wrapAt <=? 0 then None
      else Some (wrapLoop (List.length part) (Z.to_nat wrapAt) part)
  end.

Fixpoint joinParts (parts : list (option jstext)) : option jstext :=
  match parts with
  | [] => Some []
  | None :: _ => None
  | Some p :: r =>
      match joinParts r with
      | Some t => Some (p ++ t)
      | None => None
      end
  end.

(** [softWrapLongTokens(text, { tokenLimit, wrapAt })] with whole numbers. *)
Definition softWrapLongTokens (text : jstext) (tokenLimit wrapAt : Z) : option jstext :=
  joinParts (map (wrapPart tokenLimit wrapAt) (splitWhite text)).

(** [text.split(/\r?\n/)] *)
Fixpoint splitLines (cur : jstext) (t : jstext) : list jstext :=
  match t with
  | [] => [rev cur]
  | 13%N :: 10%N :: r => rev cur :: splitLines [] r
  | 10%N :: r => rev cur :: splitLines [] r
  | c :: r => splitLines (c :: cur) r
  end.

(** [lines.join("\n")] *)
Fixpoint joinLF (lines : list jstext) : jstext :=
  match lines with
  | [] => []
  | [l] => l
  | l :: r => l ++ 10%N :: joinLF r
  end.

(** The line-level transform of [formatInlineJsonAfterPrefix]: the new line
    and whether it was rewritten.  [pretty after] is
    [JSON.stringify(JSON.parse(after), null, 2)], [None] when the parse
    throws. *)
Definition formatLine (pretty : jstext -> option jstext) (prefix line : jstext)
    : jstext * bool :=
  match breakAt prefix line with
  | None => (line, false)
  | Some (before, rest) =>
      let after := trimStart rest in
      match after with
      | 123%N :: _ =>
          match pretty after with
          | Some p =>
              (before ++ prefix ++ [10; 10]%N ++ units "```json" ++ [10%N] ++ p
               ++ [10%N] ++ units "```", true)
          | None => (line, false)
          end
      | _ => (line, false)
      end
  end.

Definition formatInlineJsonAfterPrefix (pretty : jstext -> option jstext)
    (text prefix : jstext) : jstext :=
  match breakAt prefix text with
  | None => text
  | Some _ =>
      let next := map (formatLine pretty prefix) (splitLines [] text) in
      if existsb snd next then joinLF (map fst next) else text
  end.

(** [sanitizeForFeishu] *)
Definition sanitizeForFeishu (pretty : jstext -> option jstext) (text : jstext)
    : option jstext :=
  softWrapLongTokens
    (formatInlineJsonAfterPrefix pretty text (units "fetched quoted message:"))
    200 120.

End Sanitize.

(* ------------------------------------------------------------------ *)
(** * Properties *)

(** ** A small program logic for computations over the in-flight world *)

Section Safety.
Import InFlight.

(** [Inv] is an invariant of the world and [G] what it says of a store that is
    read from or written to the disk. *)
Variable Inv : World -> Prop.
Variable G : FeishuInFlightStore -> Prop.
Hypothesis Inv_tick : forall w, Inv w -> Inv (ticked w).
Hypothesis Inv_read : forall w, Inv w -> G (disk w).
Hypothesis Inv_write : forall w s, Inv w -> G s -> Inv (stored s w).

(** [m] keeps the invariant, also when it throws, and returns values in [Q]. *)
Definition safe {A} (Q : A -> Prop) (m : M World A) : Prop :=
  forall w, Inv w -> Inv (worldOf (m w)) /\ forall a, resultOf (m w) = Ret a -> Q a.

Lemma safe_weaken {A} (Q R : A -> Prop) m :
  (forall a, Q a -> R a) -> safe Q m -> safe R m.
Proof.
  intros HQR Hm w Hw. destruct (Hm w Hw) as [H1 H2]. split; auto.
Qed.

Lemma safe_ret {A} (Q : A -> Prop) a : Q a -> safe Q (ret a).
Proof.
  intros Ha w Hw. split; [exact Hw|]. cbn. intros a' E. inversion E. subst. exact Ha.
Qed.

Lemma safe_throw {A} (Q : A -> Prop) : safe Q (@throw World A).
Proof. intros w Hw. split; [exact Hw|]. cbn. discriminate. Qed.

Lemma safe_emit e : safe (fun _ => True) (@emit World e).
Proof. intros w Hw. split; [exact Hw|]. auto. Qed.

Lemma safe_bind {A B} (Q : A -> Prop) (R : B -> Prop) m (f : A -> M World B) :
  safe Q m -> (forall a, Q a -> safe R (f a)) -> safe R (bind m f).
Proof.
  intros Hm Hf w Hw. destruct (Hm w Hw) as [H1 H2].
  unfold bind, worldOf, resultOf in *.
  destruct (m w) as [[ev w'] [a|]]; cbn in *.
  - specialize (Hf a (H2 a eq_refl) w' H1).
    unfold worldOf, resultOf in Hf. destruct (f a w') as [[ev' w''] r]. cbn in *. exact Hf.
  - split; [exact H1|]. discriminate.
Qed.

Lemma safe_tryCatch {A} (Q : A -> Prop) (m h : M World A) :
  safe Q m -> safe Q h -> safe Q (tryCatch m h).
Proof.
  intros Hm Hh w Hw. destruct (Hm w Hw) as [H1 H2].
  unfold tryCatch, worldOf, resultOf in *.
  destruct (m w) as [[ev w'] [a|]]; cbn in *.
  - split; auto.
  - specialize (Hh w' H1). unfold worldOf, resultOf in Hh.
    destruct (h w') as [[ev' w''] r]. cbn in *. exact Hh.
Qed.

Lemma safe_foldM {A B} (Q : B -> Prop) (body : B -> A -> M World B) xs :
  (forall acc x, In x xs -> Q acc -> safe Q (body acc x)) ->
  forall acc, Q acc -> safe Q (foldM body acc xs).
Proof.
  induction xs as [|x r IH]; intros Hb acc Hacc; cbn [foldM].
  - apply safe_ret. exact Hacc.
  - eapply safe_bind.
    + apply Hb; [left; reflexivity | exact Hacc].
    + intros acc' Hacc'. apply IH; [|exact Hacc'].
      intros acc0 x0 Hin. apply Hb. right. exact Hin.
Qed.

Lemma safe_call_add P m e : safe (fun _ => True) (@callAdd World P m e).
Proof. intros w Hw. split; [exact Hw|]. auto. Qed.

Lemma safe_call_remove P m r : safe (fun _ => True) (@callRemove World P m r).
Proof. intros w Hw. split; [exact Hw|]. auto. Qed.

Lemma safe_call_list P m e : safe (fun _ => True) (@callList World P m e).
Proof. intros w Hw. split; [exact Hw|]. auto. Qed.

Lemma safe_call_send P to r b : safe (fun _ => True) (@callSend World P to r b).
Proof. intros w Hw. split; [exact Hw|]. auto. Qed.

Lemma safe_dateNow : safe (fun _ => True) dateNow.
Proof. intros w Hw. split; [apply Inv_tick; exact Hw|]. auto. Qed.

Lemma safe_read : safe G readFeishuInFlightStore.
Proof.
  intros w Hw. split; [exact Hw|]. cbn. intros a E. inversion E. subst.
  apply Inv_read. exact Hw.
Qed.

Lemma safe_resolveStateDir : safe (fun _ => True) resolveStateDir.
Proof. intros w Hw. split; [exact Hw|]. auto. Qed.

Lemma safe_write s : G s -> safe (fun _ => True) (writeFeishuInFlightStore s).
Proof.
  intros Hs w Hw. unfold writeFeishuInFlightStore.
  destruct (writable w s); cbn; split; auto.
Qed.


Ltac safe_go :=
  lazymatch goal with
  | |- safe _ (bind _ _) =>
      eapply (safe_bind (fun _ => True)); [ safe_go | intros ? _; safe_go ]
  | |- safe _ (tryCatch _ _) => apply safe_tryCatch; safe_go
  | |- safe _ (if ?b then _ else _) => destruct b; safe_go
  | |- safe _ (ret _) => apply safe_ret; try exact Logic.I
  | |- safe _ throw => apply safe_throw
  | |- safe _ (emit _) => apply safe_emit
  | |- safe _ (callAdd _ _ _) => apply safe_call_add
  | |- safe _ (callRemove _ _ _) => apply safe_call_remove
  | |- safe _ (callList _ _ _) => apply safe_call_list
  | |- safe _ (callSend _ _ _ _) => apply safe_call_send
  | |- safe _ dateNow => apply safe_dateNow
  | _ => idtac
  end.

Lemma safe_replaceStatus c P a e prev :
  safe (fun _ => True) (replaceStatus c P a e prev).
Proof.
  destruct c; unfold replaceStatus, StatusReaction.replaceStatusReaction,
    StatusReaction.replaceStatusReaction_unguarded; safe_go.
Qed.

(** The stores of [G] are closed under the writes made for the task [tid]. *)
Definition okId (tid : string) : Prop :=
  (forall prm store r now,
      p_taskId prm = tid -> G store ->
      G (upsertTask store (statusTask prm (findTask tid store) r now))) /\
  (forall store, G store -> G (removeTask store tid)).

Hypothesis G_last : forall store chat x,
  G store -> G (setLastInterruptible store chat x).

Lemma safe_setFeishuStatus c P prm :
  okId (p_taskId prm) -> safe (fun _ => True) (setFeishuStatus c P prm).
Proof.
  intros [Hup _]. unfold setFeishuStatus.
  eapply safe_bind; [apply safe_read|]. intros store Hs.
  eapply (safe_bind (fun _ => True)); [apply safe_dateNow|]. intros now _.
  eapply (safe_bind (fun _ => True)).
  - apply safe_tryCatch.
    + eapply (safe_bind (fun _ => True)); [apply safe_replaceStatus|].
      intros r _. apply safe_ret. exact Logic.I.
    + safe_go.
  - intros r _. apply safe_write. apply Hup; [reflexivity | exact Hs].
Qed.

Lemma safe_onIdle c P acct ctx anchor tid saw :
  okId tid -> safe (fun _ => True) (onIdle c P acct ctx anchor tid saw).
Proof.
  intros Hok. unfold onIdle. apply safe_tryCatch; [|safe_go].
  eapply safe_bind; [apply safe_read|]. intros store Hs.
  destruct (negb saw); [safe_go|].
  destruct (findTask tid store) as [task|]; [|safe_go].
  destruct (isTerminal (state task)); [safe_go|].
  eapply (safe_bind (fun _ => True)).
  - apply safe_setFeishuStatus. exact Hok.
  - intros _ _. eapply safe_bind; [apply safe_read|]. intros st2 Hs2.
    apply safe_write. apply Hok. exact Hs2.
Qed.

Lemma safe_finishTask c P agent acct ctx tid anchor :
  okId tid -> safe (fun _ => True) (finishTask c P agent acct ctx tid anchor).
Proof.
  intros Hok. unfold finishTask.
  assert (Hst : forall next emoji,
             safe (fun _ => True)
               (setFeishuStatus c P
                  (statusParams acct ctx anchor tid next emoji None None))).
  { intros. apply safe_setFeishuStatus. exact Hok. }
  eapply (safe_bind (fun _ => True)); [safe_go|]. intros _ _.
  eapply (safe_bind (fun _ => True)); [apply Hst|]. intros _ _.
  eapply (safe_bind (fun _ => True)); [safe_go|]. intros _ _.
  eapply (safe_bind (fun _ => True)); [safe_go|]. intros _ _.
  eapply (safe_bind (fun _ => True)).
  { destruct (replyStarts agent); [apply Hst | safe_go]. }
  intros _ _.
  eapply (safe_bind (fun _ => True)).
  { destruct (idle agent); try (apply safe_ret; exact Logic.I).
    apply safe_onIdle. exact Hok. }
  intros _ _.
  eapply (safe_bind (fun _ => True)).
  { destruct (countsFinal agent =? 0); [|safe_go].
    destruct (queuedFinal agent); [apply Hst|].
    eapply (safe_bind (fun _ => True)); [apply Hst|]. intros _ _.
    eapply (safe_bind (fun _ => True)); [safe_go|]. intros _ _.
    eapply safe_bind; [apply safe_read|]. intros store Hs.
    apply safe_write. apply G_last. exact Hs. }
  intros _ _.
  destruct (idle agent); try (apply safe_ret; exact Logic.I).
  apply safe_onIdle. exact Hok.
Qed.

Lemma safe_beginTask c P acct ctx wantsContinue freshId store0 :
  G store0 ->
  (wantsContinue = false -> okId freshId) ->
  (forall src now,
      wantsContinue = true ->
      getLastInterruptibleTask store0 (c_chatId ctx) = Some src ->
      resumable (c_isGroup ctx) (c_senderOpenId ctx) src = true ->
      okId (id src) /\ G (upsertTask store0 (resumedTask src now))) ->
  safe (fun r => match r with Some (tid, _) => okId tid | None => True end)
       (beginTask c P acct ctx wantsContinue freshId store0).
Proof.
  intros Hs0 Hfresh Hres. unfold beginTask.
  destruct wantsContinue.
  - destruct (getLastInterruptibleTask store0 (c_chatId ctx)) as [l|] eqn:El.
    + destruct (resumable (c_isGroup ctx) (c_senderOpenId ctx) l) eqn:Er.
      * eapply (safe_bind (fun _ => True)); [apply safe_dateNow|]. intros now _.
        destruct (Hres l now eq_refl eq_refl Er) as [Hok Hup].
        eapply (safe_bind (fun _ => True)).
        { apply safe_write. apply G_last. exact Hup. }
        intros _ _.
        eapply (safe_bind (fun _ => True)).
        { apply safe_setFeishuStatus. exact Hok. }
        intros _ _. apply safe_ret. exact Hok.
      * eapply (safe_bind (fun _ => True)); [safe_go|]. intros _ _.
        apply safe_ret. exact Logic.I.
    + eapply (safe_bind (fun _ => True)); [safe_go|]. intros _ _.
      apply safe_ret. exact Logic.I.
  - eapply (safe_bind (fun _ => True)).
    { apply safe_setFeishuStatus. apply Hfresh. reflexivity. }
    intros _ _. apply safe_ret. apply Hfresh. reflexivity.
Qed.

Lemma safe_handleTask c P agent acct ctx wantsContinue freshId w :
  Inv w ->
  (wantsContinue = false -> okId freshId) ->
  (forall src now,
      wantsContinue = true ->
      getLastInterruptibleTask (disk w) (c_chatId ctx) = Some src ->
      resumable (c_isGroup ctx) (c_senderOpenId ctx) src = true ->
      okId (id src) /\ G (upsertTask (disk w) (resumedTask src now))) ->
  Inv (worldOf (handleTask c P agent acct ctx wantsContinue freshId w)).
Proof.
  intros Hw Hfresh Hres.
  assert (Hbody : safe (fun _ => True)
            (r <- beginTask c P acct ctx wantsContinue freshId (disk w) ;;
             match r with
             | None => ret tt
             | Some (tid, anchor) => finishTask c P agent acct ctx tid anchor
             end)%eff).
  { eapply safe_bind.
    - apply safe_beginTask; [apply Inv_read; exact Hw | exact Hfresh | exact Hres].
    - intros [[tid anchor]|] Hr; [|apply safe_ret; exact Logic.I].
      apply safe_finishTask. exact Hr. }
  assert (Hall : safe (fun _ => True)
            (tryCatch
               (r <- beginTask c P acct ctx wantsContinue freshId (disk w) ;;
                match r with
                | None => ret tt
                | Some (tid, anchor) => finishTask c P agent acct ctx tid anchor
                end)%eff
               (emit (Log "failed to dispatch message")))).
  { apply safe_tryCatch; [exact Hbody | apply safe_emit]. }
  destruct (Hall w Hw) as [H _].
  unfold handleTask. unfold tryCatch at 1. unfold bind at 1.
  unfold resolveStateDir. destruct (stateDirOk w); [|exact Hw].
  unfold bind at 1. unfold readFeishuInFlightStore. cbn beta iota.
  unfold tryCatch in H at 1.
  unfold worldOf in *.
  destruct (bind (beginTask c P acct ctx wantsContinue freshId (disk w)) _ w)
    as [[ev w'] [a|]]; cbn in *; exact H.
Qed.

Lemma safe_cleanupTyping P anchor :
  safe (fun _ => True) (cleanupTypingReactionsForMessage P anchor).
Proof.
  unfold cleanupTypingReactionsForMessage. apply safe_tryCatch; [|safe_go].
  eapply (safe_bind (fun _ => True)); [safe_go|]. intros rs _.
  eapply (safe_bind (fun _ => True)); [|intros _ _; safe_go].
  apply safe_foldM; [|exact Logic.I]. intros [] r _ _. safe_go.
Qed.

Lemma safe_reconcile c P acct maxAgeMs :
  (forall store0 task now0,
      G store0 -> In task (tasks store0) ->
      reconcilable acct now0 maxAgeMs task = true ->
      forall store r now, G store -> G (upsertTask store (interruptedTask task r now))) ->
  safe (fun _ => True) (reconcileFeishuInFlight c P acct maxAgeMs).
Proof.
  intros Hrec. unfold reconcileFeishuInFlight.
  eapply (safe_bind (fun _ => True)); [apply safe_resolveStateDir|]. intros _ _.
  eapply safe_bind; [apply safe_read|]. intros store Hs.
  eapply (safe_bind (fun _ => True)); [apply safe_dateNow|]. intros now _.
  eapply (safe_bind (fun acc => G (fst acc))).
  - apply safe_foldM; [|exact Hs]. intros acc task Hin Hacc.
    destruct (reconcilable acct now maxAgeMs task) eqn:Er; cbn [negb].
    + apply safe_tryCatch.
      * eapply (safe_bind (fun _ => True)); [apply safe_cleanupTyping|]. intros _ _.
        eapply (safe_bind (fun _ => True)); [apply safe_replaceStatus|]. intros r _.
        eapply (safe_bind (fun _ => True)); [safe_go|]. intros _ _.
        apply safe_ret. cbn [fst]. apply G_last.
        apply (Hrec store task now Hs Hin Er). exact Hacc.
      * eapply (safe_bind (fun _ => True)); [safe_go|]. intros _ _.
        apply safe_ret. exact Hacc.
    + apply safe_ret. exact Hacc.
  - intros acc Hacc. destruct (snd acc); [|safe_go].
    eapply (safe_bind (fun _ => True)); [apply safe_write; exact Hacc|].
    intros _ _. safe_go.
Qed.

Lemma safe_maybeFinalize c P acct replyTo :
  (forall store task,
      G store -> In task (tasks store) -> state task = waiting ->
      G (removeTask store (id task))) ->
  safe (fun _ => True) (maybeFinalizeWaitingInFlightTask c P acct replyTo).
Proof.
  intros Hfin. unfold maybeFinalizeWaitingInFlightTask.
  destruct (negb (truthyOpt (option_map trim replyTo))); [safe_go|].
  apply safe_tryCatch; [|safe_go].
  eapply (safe_bind (fun _ => True)); [apply safe_resolveStateDir|]. intros _ _.
  eapply safe_bind; [apply safe_read|]. intros store Hs.
  destruct (find _ (tasks store)) as [task|] eqn:Ef; [|safe_go].
  destruct (state_eqb (state task) waiting) eqn:Est; cbn [negb orb]; [|safe_go].
  destruct (negb (accountId task =? orElse acct "default")%string); [safe_go|].
  eapply (safe_bind (fun _ => True)); [apply safe_replaceStatus|]. intros _ _.
  apply safe_write. apply Hfin; [exact Hs| |].
  - apply find_some in Ef. apply Ef.
  - destruct (state task); cbn in Est; congruence.
Qed.

Lemma safe_sendText c P to text acct replyTo :
  (forall store task,
      G store -> In task (tasks store) -> state task = waiting ->
      G (removeTask store (id task))) ->
  safe (fun _ => True) (sendText c P to text acct replyTo).
Proof.
  intros Hfin. unfold sendText.
  eapply (safe_bind (fun _ => True)); [safe_go|]. intros _ _.
  apply safe_maybeFinalize. exact Hfin.
Qed.

End Safety.

(** ** Facts about the in-flight store *)

Section StoreFacts.
Import InFlight.

(** [upsertTask] on the list of tasks, by recursion. *)
Fixpoint upsertList (x : FeishuInFlightTask) (l : list FeishuInFlightTask)
    : list FeishuInFlightTask :=
  match l with
  | [] => [x]
  | y :: r => if hasId (id x) y then x :: r else y :: upsertList x r
  end.

Lemma tasks_upsertTask store x :
  tasks (upsertTask store x) = upsertList x (tasks store).
Proof.
  unfold upsertTask. cbn [tasks]. induction (tasks store) as [|y r IH]; cbn.
  - reflexivity.
  - destruct (hasId (id x) y); [reflexivity|].
    destruct (findIndex (hasId (id x)) r); cbn in *; rewrite IH; reflexivity.
Qed.

Lemma hasId_true tid t : hasId tid t = true <-> id t = tid.
Proof. unfold hasId. apply String.eqb_eq. Qed.

Lemma hasId_false tid t : hasId tid t = false <-> id t <> tid.
Proof. unfold hasId. apply String.eqb_neq. Qed.

Lemma In_upsertList x u l : In u (upsertList x l) -> u = x \/ In u l.
Proof.
  induction l as [|y r IH]; cbn.
  - intros [H|[]]; auto.
  - destruct (hasId (id x) y); cbn; intros [H|H]; auto.
    destruct (IH H); auto.
Qed.

Lemma In_upsertList_keep x u l :
  In u l -> id u <> id x -> In u (upsertList x l).
Proof.
  induction l as [|y r IH]; cbn; [tauto|].
  intros [H|H] Hne.
  - subst y. apply hasId_false in Hne. rewrite Hne. left. reflexivity.
  - destruct (hasId (id x) y); [right; exact H | right; apply IH; assumption].
Qed.

Lemma find_upsertList_same x l : find (hasId (id x)) (upsertList x l) = Some x.
Proof.
  assert (Hx : hasId (id x) x = true) by (apply hasId_true; reflexivity).
  induction l as [|y r IH]; cbn.
  - rewrite Hx. reflexivity.
  - destruct (hasId (id x) y) eqn:E; cbn; [rewrite Hx; reflexivity|].
    rewrite E. exact IH.
Qed.

Lemma find_upsertList_other x tid l :
  tid <> id x -> find (hasId tid) (upsertList x l) = find (hasId tid) l.
Proof.
  intros Hne.
  assert (Hx : hasId tid x = false) by (apply hasId_false; congruence).
  induction l as [|y r IH]; cbn.
  - rewrite Hx. reflexivity.
  - destruct (hasId (id x) y) eqn:E; cbn.
    + rewrite Hx. apply hasId_true in E.
      assert (Hy : hasId tid y = false) by (apply hasId_false; congruence).
      rewrite Hy. reflexivity.
    + destruct (hasId tid y); [reflexivity | exact IH].
Qed.

Lemma findTask_upsert_same store x : findTask (id x) (upsertTask store x) = Some x.
Proof. unfold findTask. rewrite tasks_upsertTask. apply find_upsertList_same. Qed.

Lemma findTask_remove_same store tid : findTask tid (removeTask store tid) = None.
Proof.
  unfold findTask, removeTask. cbn [tasks].
  induction (tasks store) as [|y r IH]; cbn; [reflexivity|].
  destruct (hasId tid y) eqn:E; cbn; [exact IH|]. rewrite E. exact IH.
Qed.

Lemma findTask_setLast store chat x tid :
  findTask tid (setLastInterruptible store chat x) = findTask tid store.
Proof. reflexivity. Qed.

Lemma findTask_In tid store t : findTask tid store = Some t -> In t (tasks store) /\ id t = tid.
Proof.
  unfold findTask. intros H. apply find_some in H. destruct H as [H1 H2].
  split; [exact H1 | apply hasId_true; exact H2].
Qed.

(** A list without two records of one id: the record of an id is the one
    [find] returns. *)
Lemma NoDup_ids_unique (l : list FeishuInFlightTask) t u :
  NoDup (map id l) -> In t l -> In u l -> id u = id t -> u = t.
Proof.
  induction l as [|y r IH]; cbn; [tauto|].
  intros Hnd Ht Hu E. inversion Hnd as [|? ? Hnot Hnd']; subst.
  destruct Ht as [Ht|Ht], Hu as [Hu|Hu]; subst.
  - reflexivity.
  - exfalso. apply Hnot. rewrite <- E. apply in_map. exact Hu.
  - exfalso. apply Hnot. rewrite E. apply in_map. exact Ht.
  - apply IH; assumption.
Qed.

(** [t] is stored and is the only record of its id. *)
Definition kept (t : FeishuInFlightTask) (store : FeishuInFlightStore) : Prop :=
  In t (tasks store) /\ forall u, In u (tasks store) -> id u = id t -> u = t.

Lemma kept_findTask t store : kept t store -> findTask (id t) store = Some t.
Proof.
  intros [Hin Huniq]. unfold findTask.
  destruct (find (hasId (id t)) (tasks store)) as [u|] eqn:E.
  - apply find_some in E. destruct E as [Hu Hid]. apply hasId_true in Hid.
    rewrite (Huniq u Hu Hid). reflexivity.
  - exfalso. apply (find_none _ _ E) in Hin.
    assert (hasId (id t) t = true) by (apply hasId_true; reflexivity). congruence.
Qed.

Lemma kept_upsert t store x : id x <> id t -> kept t store -> kept t (upsertTask store x).
Proof.
  intros Hne [Hin Huniq]. unfold kept. rewrite tasks_upsertTask. split.
  - apply In_upsertList_keep; [exact Hin | congruence].
  - intros u Hu E. apply In_upsertList in Hu. destruct Hu as [Hu|Hu].
    + subst u. contradiction.
    + apply Huniq; assumption.
Qed.

Lemma kept_remove t store tid : tid <> id t -> kept t store -> kept t (removeTask store tid).
Proof.
  intros Hne [Hin Huniq]. unfold kept, removeTask. cbn [tasks]. split.
  - apply filter_In. split; [exact Hin|].
    assert (hasId tid t = false) by (apply hasId_false; congruence).
    rewrite H. reflexivity.
  - intros u Hu E. apply filter_In in Hu. apply Huniq; [apply Hu | exact E].
Qed.

Lemma kept_setLast t store chat x : kept t store -> kept t (setLastInterruptible store chat x).
Proof. intros H. exact H. Qed.

(** No record has been resumed more than twice. *)
Definition bounded (store : FeishuInFlightStore) : Prop :=
  Forall (fun u => attempts u <= 2) (tasks store).

Lemma bounded_upsert store x : attempts x <= 2 -> bounded store -> bounded (upsertTask store x).
Proof.
  unfold bounded. intros Hx Hb. rewrite tasks_upsertTask.
  apply Forall_forall. intros u Hu. apply In_upsertList in Hu.
  destruct Hu as [Hu|Hu]; [subst; exact Hx|].
  rewrite Forall_forall in Hb. apply Hb. exact Hu.
Qed.

Lemma bounded_remove store tid : bounded store -> bounded (removeTask store tid).
Proof.
  unfold bounded, removeTask. cbn [tasks]. intros Hb.
  apply Forall_forall. intros u Hu. apply filter_In in Hu.
  rewrite Forall_forall in Hb. apply Hb. apply Hu.
Qed.

Lemma bounded_statusTask store prm r now :
  bounded store ->
  attempts (statusTask prm (findTask (p_taskId prm) store) r now) <= 2.
Proof.
  intros Hb. unfold attempts, statusTask. cbn [resumeAttempts orElse].
  destruct (findTask (p_taskId prm) store) as [u|] eqn:E; [|cbn; lia].
  apply findTask_In in E. destruct E as [Hin _].
  unfold bounded in Hb. rewrite Forall_forall in Hb. apply (Hb u Hin).
Qed.

Lemma resumable_spec isGroup sender t :
  resumable isGroup sender t = true <->
  (state t = interrupted \/ state t = failed) /\
  attempts t < 2 /\
  (isGroup = true ->
   truthyOpt (userOpenId t) = false \/ userOpenId t = Some sender).
Proof.
  unfold resumable, attempts.
  rewrite !andb_true_iff, !orb_true_iff, Z.ltb_lt, !negb_true_iff.
  split.
  - intros [[Hs Ha] Hu]. split; [|split; [exact Ha|]].
    + destruct (state t); cbn in Hs; intuition congruence.
    + intros Hg. destruct Hu as [[Hu|Hu]|Hu]; [congruence | left; exact Hu |].
      destruct (userOpenId t) as [u|]; [|discriminate].
      right. apply String.eqb_eq in Hu. subst. reflexivity.
  - intros [Hs [Ha Hu]]. split; [split; [|exact Ha]|].
    + destruct Hs as [Hs|Hs]; rewrite Hs; cbn; auto.
    + destruct isGroup; [|left; left; reflexivity].
      destruct (Hu eq_refl) as [H|H]; [left; right; exact H|].
      right. rewrite H. apply String.eqb_refl.
Qed.

End StoreFacts.

(** ** The life cycle keeps the invariants of the store *)

Section LifeCycleFacts.
Import InFlight.

(** Every store on the disk or written so far satisfies [G]. *)
Definition always (G : FeishuInFlightStore -> Prop) (w : World) : Prop :=
  G (disk w) /\ Forall G (writes w).

Lemma always_tick G w : always G w -> always G (ticked w).
Proof. intros H. exact H. Qed.

Lemma always_read G w : always G w -> G (disk w).
Proof. intros [H _]. exact H. Qed.

Lemma always_write G w s : always G w -> G s -> always G (stored s w).
Proof.
  intros [_ H] Hs. split; [exact Hs|]. cbn [writes].
  apply Forall_app. split; [exact H | constructor; [exact Hs | constructor]].
Qed.

Lemma okId_bounded tid : okId bounded tid.
Proof.
  split.
  - intros prm store r now E Hb. subst tid.
    apply bounded_upsert; [apply bounded_statusTask; exact Hb | exact Hb].
  - intros store Hb. apply bounded_remove. exact Hb.
Qed.

Lemma okId_kept t tid : tid <> id t -> okId (kept t) tid.
Proof.
  intros Hne. split.
  - intros prm store r now E Hk. apply kept_upsert; [|exact Hk].
    cbn [statusTask id]. congruence.
  - intros store Hk. apply kept_remove; assumption.
Qed.

Lemma attempts_resumed src now :
  resumable false "" src = true \/ attempts src < 2 ->
  attempts (resumedTask src now) <= 2.
Proof.
  intros H. assert (Ha : attempts src < 2).
  { destruct H as [H|H]; [|exact H]. apply resumable_spec in H. tauto. }
  unfold attempts in *. cbn [resumedTask resumeAttempts orElse]. lia.
Qed.

(** Every operation keeps [resumeAttempts] within its bound. *)
Lemma run_bounded c P acct op w :
  always bounded w -> always bounded (worldOf (run c P acct op w)).
Proof.
  intros Hw. destruct op as [agent ctx wc fresh | maxAge | to text replyTo];
    cbn [run].
  - apply (safe_handleTask (always bounded) bounded
             (always_tick bounded) (always_read bounded) (always_write bounded)).
    + intros store chat x Hb. exact Hb.
    + exact Hw.
    + intros _. apply okId_bounded.
    + intros src now _ _ Hr. split; [apply okId_bounded|].
      apply bounded_upsert; [|apply always_read; exact Hw].
      apply attempts_resumed. right. apply resumable_spec in Hr. tauto.
  - refine (proj1 (safe_reconcile (always bounded) bounded
             (always_tick bounded) (always_read bounded) (always_write bounded)
             _ c P acct maxAge _ w Hw)).
    + intros store chat x Hb. exact Hb.
    + intros store0 task now0 Hb0 Hin _ store r now Hb.
      apply bounded_upsert; [|exact Hb].
      unfold bounded in Hb0. rewrite Forall_forall in Hb0.
      exact (Hb0 task Hin).
  - refine (proj1 (safe_sendText (always bounded) bounded
             (always_read bounded) (always_write bounded)
             c P to text (Some acct) replyTo _ w Hw)).
    intros store task Hb _ _. apply bounded_remove. exact Hb.
Qed.

Lemma getLast_In store chat src :
  getLastInterruptibleTask store chat = Some src -> In src (tasks store).
Proof.
  unfold getLastInterruptibleTask.
  destruct (lastInterruptibleByChatId store) as [obj|]; [|discriminate].
  destruct (recordGet chat obj) as [tid|]; [|discriminate].
  destruct (truthy tid); [|discriminate].
  intros H. apply findTask_In in H. apply H.
Qed.

Lemma reconcilable_not_terminal acct now maxAge task :
  reconcilable acct now maxAge task = true -> isTerminal (state task) = false.
Proof.
  unfold reconcilable. rewrite !andb_true_iff. intros [[_ H] _].
  destruct (state task); cbn in *; congruence.
Qed.

(** An operation that is not an accepted resume of [t] leaves a terminal [t]
    as it is, in every store it writes. *)
Lemma run_kept c P acct op w t :
  always (kept t) w ->
  isTerminal (state t) = true ->
  (forall agent ctx wc fresh, op = Handle agent ctx wc fresh -> fresh <> id t) ->
  ~ acceptedResume op (disk w) t ->
  always (kept t) (worldOf (run c P acct op w)).
Proof.
  intros Hw Hterm Hfresh Hnot.
  destruct op as [agent ctx wc fresh | maxAge | to text replyTo]; cbn [run].
  - apply (safe_handleTask (always (kept t)) (kept t)
             (always_tick _) (always_read _) (always_write _)).
    + intros store chat x Hk. exact Hk.
    + exact Hw.
    + intros _. apply okId_kept. eapply Hfresh. reflexivity.
    + intros src now Hwc Hlast Hres. subst wc.
      assert (Hne : id src <> id t).
      { intros E. apply Hnot. cbn [acceptedResume].
        assert (src = t).
        { destruct Hw as [[_ Huniq] _]. apply Huniq; [|exact E].
          eapply getLast_In. exact Hlast. }
        subst src. split; assumption. }
      split; [apply okId_kept; exact Hne|].
      apply kept_upsert; [exact Hne | apply always_read; exact Hw].
  - refine (proj1 (safe_reconcile (always (kept t)) (kept t)
             (always_tick _) (always_read _) (always_write _)
             _ c P acct maxAge _ w Hw)).
    + intros store chat x Hk. exact Hk.
    + intros store0 task now0 [_ Huniq] Hin Hrec store r now Hk.
      apply kept_upsert; [|exact Hk]. cbn [interruptedTask id].
      intros E. rewrite (Huniq task Hin E) in Hrec.
      apply reconcilable_not_terminal in Hrec. congruence.
  - refine (proj1 (safe_sendText (always (kept t)) (kept t)
             (always_read _) (always_write _)
             c P to text (Some acct) replyTo _ w Hw)).
    intros store task Hk Hin Hst. apply kept_remove; [|exact Hk].
    intros E. destruct Hk as [_ Huniq]. rewrite (Huniq task Hin E) in Hst.
    rewrite Hst in Hterm. discriminate.
Qed.

(** How a computation that returns continues. *)
Lemma bind_run {W A B} (m : M W A) (f : A -> M W B) w ev w' a :
  m w = (ev, w', Ret a) ->
  bind m f w = (ev ++ eventsOf (f a w'), worldOf (f a w'), resultOf (f a w')).
Proof.
  intros E. unfold bind. rewrite E. destruct (f a w') as [[ev' w''] r]. reflexivity.
Qed.

Lemma worldOf_bind {W A B} (m : M W A) (f : A -> M W B) w ev w' a :
  m w = (ev, w', Ret a) -> worldOf (bind m f w) = worldOf (f a w').
Proof. intros E. rewrite (bind_run m f w ev w' a E). reflexivity. Qed.

Lemma worldOf_tryCatch_emit {W} (m : M W unit) e (w : W) :
  worldOf (tryCatch m (emit e) w) = worldOf (m w).
Proof. unfold tryCatch, emit. destruct (m w) as [[ev w'] [a|]]; reflexivity. Qed.

(** The repaint of [setFeishuStatus] never throws and leaves the world. *)
Lemma tryPaint_run c P a e prev0 (w : World) :
  exists ev r,
    tryCatch (r <- replaceStatus c P a e prev0 ;; ret (Some r))%eff
             (emit (Log "failed to set status reaction") ;;; ret prev0)%eff w
    = (ev, w, Ret r).
Proof.
  unfold bind, tryCatch, replaceStatus, ret, emit,
    StatusReaction.replaceStatusReaction,
    StatusReaction.replaceStatusReaction_unguarded, callAdd, callRemove.
  destruct c; cbn;
    destruct (addReactionFeishu P a e) as [rid|];
    cbn;
    repeat match goal with
           | |- context [if ?b then _ else _] => destruct b; cbn
           end;
    eexists; eexists; reflexivity.
Qed.

(** What [setFeishuStatus] leaves behind when the write succeeds: one more
    write, of the store it read with the task record replaced. *)
Lemma setFeishuStatus_run c P prm w :
  (forall s, writable w s = true) ->
  exists ev r,
    setFeishuStatus c P prm w =
    (ev,
     stored (upsertTask (disk w)
               (statusTask prm (findTask (p_taskId prm) (disk w)) r
                  (clock w (tick w))))
       (ticked w),
     Ret tt).
Proof.
  intros Hwr. unfold setFeishuStatus.
  unfold bind at 1. unfold readFeishuInFlightStore at 1. cbn beta iota.
  unfold bind at 1. unfold dateNow at 1. cbn beta iota.
  destruct (tryPaint_run c P (p_messageId prm) (p_nextEmojiType prm)
              match findTask (p_taskId prm) (disk w) with
              | Some t => reaction t
              | None => None
              end (ticked w)) as (ev & r & E).
  unfold bind at 1. rewrite E.
  unfold writeFeishuInFlightStore. cbn [writable ticked]. rewrite Hwr.
  exists (([] ++ []) ++ ev ++ []), r. reflexivity.
Qed.

(** The stores written so far start with [base]. *)
Definition extends (base : list FeishuInFlightStore) (w : World) : Prop :=
  exists more, writes w = base ++ more.

Lemma finishTask_extends base c P agent acct ctx tid anchor w :
  extends base w -> extends base (worldOf (finishTask c P agent acct ctx tid anchor w)).
Proof.
  intros Hw.
  refine (proj1 (safe_finishTask (extends base) (fun _ => True) _ _ _ _
                   c P agent acct ctx tid anchor _ w Hw)).
  - intros w0 H. exact H.
  - intros w0 _. exact Logic.I.
  - intros w0 s [more E] _. exists (more ++ [s]). cbn [writes stored].
    rewrite E. rewrite app_assoc. reflexivity.
  - intros store chat x _. exact Logic.I.
  - split; intros; exact Logic.I.
Qed.

Lemma resolveStateDir_run w :
  stateDirOk w = true -> resolveStateDir w = ([], w, Ret tt).
Proof. intros H. unfold resolveStateDir. rewrite H. reflexivity. Qed.

Lemma handleTask_world c P agent acct ctx wc fresh w ev w' tid anchor :
  stateDirOk w = true ->
  beginTask c P acct ctx wc fresh (disk w) w = (ev, w', Ret (Some (tid, anchor))) ->
  worldOf (handleTask c P agent acct ctx wc fresh w) =
  worldOf (finishTask c P agent acct ctx tid anchor w').
Proof.
  intros Hdir E. unfold handleTask. rewrite worldOf_tryCatch_emit.
  rewrite (worldOf_bind _ _ _ _ _ _ (resolveStateDir_run w Hdir)).
  rewrite (worldOf_bind readFeishuInFlightStore _ w [] w (disk w) eq_refl).
  rewrite (worldOf_bind _ _ _ _ _ _ E). reflexivity.
Qed.

(** The two writes of an accepted resume. *)
Lemma beginTask_resume c P acct ctx fresh store0 w t :
  (forall s, writable w s = true) ->
  getLastInterruptibleTask store0 (c_chatId ctx) = Some t ->
  resumable (c_isGroup ctx) (c_senderOpenId ctx) t = true ->
  exists ev w' s1 s2 t',
    beginTask c P acct ctx true fresh store0 w = (ev, w', Ret (Some (id t, messageId t))) /\
    writes w' = writes w ++ [s1; s2] /\
    findTask (id t) s2 = Some t' /\
    id t' = id t /\ messageId t' = messageId t /\
    originalText t' = originalText t /\
    resumeAttempts t' = Some (attempts t + 1) /\
    state t' = received.
Proof.
  intros Hwr Hlast Hres. unfold beginTask. rewrite Hlast, Hres.
  set (now := clock w (tick w)).
  set (s1 := setLastInterruptible (upsertTask store0 (resumedTask t now))
               (c_chatId ctx) (id (resumedTask t now))).
  assert (Hprev : findTask (id t) s1 = Some (resumedTask t now)).
  { unfold s1. rewrite findTask_setLast.
    change (id t) with (id (resumedTask t now)). apply findTask_upsert_same. }
  set (prm := statusParams acct ctx (messageId t) (id t) received GLANCE None None).
  set (w1 := stored s1 (ticked w)).
  destruct (setFeishuStatus_run c P prm w1 Hwr) as [ev [r E]].
  change (p_taskId prm) with (id t) in E. change (disk w1) with s1 in E.
  rewrite Hprev in E.
  set (t' := statusTask prm (Some (resumedTask t now)) r (clock w1 (tick w1))) in E.
  assert (Ew : writeFeishuInFlightStore s1 (ticked w) = ([], w1, Ret tt)).
  { unfold writeFeishuInFlightStore. cbn [writable ticked]. rewrite Hwr. reflexivity. }
  eexists. eexists. exists s1. exists (upsertTask s1 t'). exists t'.
  split.
  { rewrite (bind_run dateNow _ w [] (ticked w) now eq_refl).
    fold s1. rewrite (bind_run _ _ _ _ _ _ Ew).
    fold prm. rewrite (bind_run _ _ _ _ _ _ E).
    cbn [eventsOf worldOf resultOf ret fst snd]. reflexivity. }
  split; [cbn [writes w1 stored ticked]; rewrite <- app_assoc; reflexivity|].
  split; [change (id t) with (id t'); apply findTask_upsert_same|].
  repeat split; reflexivity.
Qed.

Lemma NoDup_kept t store :
  In t (tasks store) -> NoDup (map id (tasks store)) -> kept t store.
Proof.
  intros Hin Hnd. split; [exact Hin|].
  intros u Hu E. eapply NoDup_ids_unique; eassumption.
Qed.

(** Between operations a terminal task changes only by a resume.  Take any
    operation of the gateway that writes the store (a handler run, the boot
    reconciliation, an outbound send) from a store in which ids are unique
    and no task has been resumed more than twice, and a task [t] that is
    stored in state done, failed or interrupted when the operation starts.
    Then every store the operation writes keeps [resumeAttempts <= 2]; unless
    the operation is a "continue" message that is accepted as a resume of
    [t], every store it writes still holds [t] unchanged; and a resume of [t]
    is accepted only when [t] is the task recorded in
    [lastInterruptibleByChatId] for the chat, is interrupted or failed, has
    [resumeAttempts < 2] and, in a group, carries no [userOpenId] or the
    sender's, in which case, when the writes succeed, the second store
    written holds the task under the same id, anchor and original text, with
    [resumeAttempts] incremented and state [received]. *)
Theorem terminal_task_changes_only_by_resume c P acct op w t :
  In t (tasks (disk w)) ->
  NoDup (map id (tasks (disk w))) ->
  isTerminal (state t) = true ->
  bounded (disk w) ->
  (forall agent ctx wc fresh,
      op = Handle agent ctx wc fresh -> findTask fresh (disk w) = None) ->
  writes w = [] ->
  let w' := worldOf (run c P acct op w) in
  Forall bounded (writes w') /\
  (~ acceptedResume op (disk w) t ->
   Forall (fun s => findTask (id t) s = Some t) (writes w')) /\
  (acceptedResume op (disk w) t ->
   exists agent ctx fresh,
     op = Handle agent ctx true fresh /\
     getLastInterruptibleTask (disk w) (c_chatId ctx) = Some t /\
     (state t = interrupted \/ state t = failed) /\
     attempts t < 2 /\
     (c_isGroup ctx = true ->
      truthyOpt (userOpenId t) = false \/
      userOpenId t = Some (c_senderOpenId ctx)) /\
     (stateDirOk w = true -> (forall s, writable w s = true) ->
      exists s1 s2 rest t',
        writes w' = s1 :: s2 :: rest /\
        findTask (id t) s2 = Some t' /\
        id t' = id t /\ messageId t' = messageId t /\
        originalText t' = originalText t /\
        resumeAttempts t' = Some (attempts t + 1) /\
        attempts t' <= 2 /\
        state t' = received)).
Proof.
  intros Hin Hnd Hterm Hb Hfresh Hw0 w'.
  assert (Hk : kept t (disk w)) by (apply NoDup_kept; assumption).
  split; [|split].
  - apply (run_bounded c P acct op w). split; [exact Hb|]. rewrite Hw0. constructor.
  - intros Hnot.
    assert (Hall : always (kept t) w').
    { apply run_kept; try assumption.
      - split; [exact Hk|]. rewrite Hw0. constructor.
      - intros agent ctx wc fresh E Eid.
        specialize (Hfresh agent ctx wc fresh E).
        rewrite Eid in Hfresh. rewrite (kept_findTask t (disk w) Hk) in Hfresh.
        discriminate. }
    destruct Hall as [_ Hall]. eapply Forall_impl; [|exact Hall].
    intros s Hs. apply kept_findTask. exact Hs.
  - intros Hacc. destruct op as [agent ctx wc fresh | maxAge | to text replyTo];
      cbn [acceptedResume] in Hacc; try contradiction.
    destruct wc; [|contradiction]. destruct Hacc as [Hlast Hres].
    exists agent, ctx, fresh. split; [reflexivity|]. split; [exact Hlast|].
    pose proof (proj1 (resumable_spec _ _ _) Hres) as [Hst [Hatt Hgrp]].
    split; [exact Hst|]. split; [exact Hatt|]. split; [exact Hgrp|].
    intros Hdir Hwr.
    destruct (beginTask_resume c P acct ctx fresh (disk w) w t Hwr Hlast Hres)
      as (ev & w1 & s1 & s2 & t' & Eb & Ew & Hf & H1 & H2 & H3 & H4 & H5).
    assert (Hext : extends [s1; s2] w').
    { unfold w'. cbn [run].
      rewrite (handleTask_world _ _ _ _ _ _ _ _ _ _ _ _ Hdir Eb).
      apply finishTask_extends. exists []. rewrite Ew, Hw0. reflexivity. }
    destruct Hext as [rest Erest].
    exists s1, s2, rest, t'. split; [exact Erest|].
    repeat (split; [assumption|]). split; [|assumption].
    unfold attempts at 1. rewrite H4. cbn [orElse]. lia.
Qed.

(** A store with one failed task and the "continue" message that resumes it. *)
Definition sampleFailedTask : InFlight.FeishuInFlightTask :=
  {| id := "t1"; accountId := "default"; chatId := "oc_1"; chatType := direct;
     userOpenId := Some "ou_user"; messageId := "om_anchor";
     originalText := units "summarise the report"; truncated := Some false;
     state := failed;
     reaction := Some {| StatusReaction.emojiType := ERROR;
                         StatusReaction.reactionId := "r_err" |};
     runId := None; resumeAttempts := None; updatedAtMs := 1000;
     interruptedHandled := None |}.

Definition sampleWorld : World :=
  {| clock := fun n => 2000 + Z.of_nat n; tick := 0;
     disk := {| tasks := [sampleFailedTask];
                lastInterruptibleByChatId := Some [("oc_1", "t1")] |};
     writes := [];
     writable := fun _ => true; stateDirOk := true |}.

Definition sampleProvider : Provider :=
  {| addReactionFeishu := fun _ emoji => Some ("r_" ++ emoji)%string;
     removeReactionFeishu := fun _ _ => true;
     listReactionsFeishu := fun _ _ => Some [];
     sendMessageFeishu := fun _ _ _ => true |}.

Definition sampleContinue : Operation :=
  Handle {| preDispatchThrows := false; dispatchThrows := false;
            replyStarts := true; idle := IdleBeforeFinalBranch;
            countsFinal := 1; queuedFinal := false |}
         {| c_chatId := "oc_1"; c_messageId := "om_continue";
            c_senderOpenId := "ou_user"; c_isGroup := false;
            c_content := units "continue" |}
         true "t2".

Lemma terminal_task_witness :
  Forall bounded
    (writes (worldOf (run Guarded sampleProvider "default" sampleContinue sampleWorld))) /\
  acceptedResume sampleContinue (disk sampleWorld) sampleFailedTask.
Proof.
  split.
  - refine (proj1 (terminal_task_changes_only_by_resume Guarded sampleProvider
                     "default" sampleContinue sampleWorld sampleFailedTask
                     _ _ _ _ _ _)).
    + left. reflexivity.
    + repeat constructor. intros [].
    + reflexivity.
    + repeat constructor. vm_compute. discriminate.
    + intros agent ctx wc fresh E. inversion E. reflexivity.
    + reflexivity.
  - split; reflexivity.
Defined.

(** An agent run in which the reply starts and the dispatcher goes idle, but
    no final reply is counted and none is queued. *)
Definition repliedWithoutFinal : Agent :=
  {| preDispatchThrows := false; dispatchThrows := false;
     replyStarts := true; idle := IdleBeforeFinalBranch;
     countsFinal := 0; queuedFinal := false |}.

Lemma worldOf_bind_ret {W A B} (m : M W A) (b : B) (w : W) :
  worldOf (bind m (fun _ => ret b) w) = worldOf (m w).
Proof. unfold bind, ret. destruct (m w) as [[ev w'] [a|]]; reflexivity. Qed.

(** The notice and the pointer written after a task has been marked failed
    only add to the stores written. *)
Lemma failedTail_writes P to r b chat tid (w : World) :
  exists rest,
    writes (worldOf ((callSend P to r b ;;;
                      store <- readFeishuInFlightStore ;;
                      writeFeishuInFlightStore (setLastInterruptible store chat tid))%eff
                       w))
    = writes w ++ rest.
Proof.
  unfold bind, callSend, readFeishuInFlightStore, writeFeishuInFlightStore.
  destruct (sendMessageFeishu P to r b);
    [destruct (writable w (setLastInterruptible (disk w) chat tid))|]; cbn.
  - eexists. reflexivity.
  - exists []. rewrite app_nil_r. reflexivity.
  - exists []. rewrite app_nil_r. reflexivity.
Qed.

(** [onIdle] for a stored task that is not terminal, after a reply has
    started and with the writes succeeding: the task is written as done, then
    the store is written without it. *)
Lemma onIdle_run c P acct ctx anchor tid w task :
  (forall s, writable w s = true) ->
  findTask tid (disk w) = Some task ->
  isTerminal (state task) = false ->
  exists ev r,
    let t := statusTask (statusParams acct ctx anchor tid done DONE None None)
               (Some task) r (clock w (tick w)) in
    onIdle c P acct ctx anchor tid true w =
    (ev,
     stored (removeTask (upsertTask (disk w) t) tid)
       (stored (upsertTask (disk w) t) (ticked w)),
     Ret tt).
Proof.
  intros Hwr Hfind Hterm.
  destruct (setFeishuStatus_run c P
              (statusParams acct ctx anchor tid done DONE None None) w Hwr)
    as (ev & r & E).
  cbn [p_taskId statusParams] in E. rewrite Hfind in E.
  eexists. exists r. cbv zeta.
  unfold onIdle, tryCatch.
  rewrite (bind_run readFeishuInFlightStore _ w [] w (disk w) eq_refl).
  cbn [negb]. rewrite Hfind, Hterm.
  rewrite (bind_run _ _ _ _ _ _ E).
  match goal with
  | |- context [bind readFeishuInFlightStore ?f ?w1] =>
      rewrite (bind_run readFeishuInFlightStore f w1 [] w1 (disk w1) eq_refl)
  end.
  unfold writeFeishuInFlightStore. cbn [writable stored ticked disk]. rewrite Hwr.
  cbn [eventsOf worldOf resultOf fst snd]. reflexivity.
Qed.

(** C3, as the code has it: a task that is done does not stay done.  A
    message that is not a "continue" is handled with the writes succeeding;
    the reply starts, the dispatcher goes idle before the handler looks at
    the counts, and no final reply is counted or queued.  Then [onIdle]
    writes the task as done and removes it, and the handler, which does not
    look at the stored state, writes a task of the same id as failed, with an
    empty original text and [resumeAttempts] 0: a done task has become failed
    and no resume was involved. *)
Theorem C3_done_task_is_marked_failed_without_resume c P acct ctx fresh w :
  findTask fresh (disk w) = None ->
  stateDirOk w = true ->
  (forall s, writable w s = true) ->
  let op := Handle repliedWithoutFinal ctx false fresh in
  exists s1 s2 s3 s_done s_removed s_failed rest t_done t_failed,
    writes (worldOf (run c P acct op w))
    = writes w ++ s1 :: s2 :: s3 :: s_done :: s_removed :: s_failed :: rest /\
    findTask fresh s_done = Some t_done /\
    state t_done = done /\
    messageId t_done = c_messageId ctx /\
    originalText t_done = fst (clampOriginalText (c_content ctx) (Z.to_nat 8000)) /\
    findTask fresh s_removed = None /\
    findTask fresh s_failed = Some t_failed /\
    state t_failed = failed /\
    messageId t_failed = c_messageId ctx /\
    originalText t_failed = [] /\
    resumeAttempts t_failed = Some 0 /\
    (forall s t, ~ acceptedResume op s t).
Proof.
  intros Hnew Hdir Hwr op.
  set (mid := c_messageId ctx).
  set (clamp := clampOriginalText (c_content ctx) (Z.to_nat 8000)).
  (* received *)
  destruct (setFeishuStatus_run c P
              (statusParams acct ctx mid fresh received GLANCE
                 (Some (fst clamp)) (Some (snd clamp))) w Hwr)
    as (ev1 & r1 & E1).
  cbn [p_taskId statusParams] in E1. rewrite Hnew in E1.
  match type of E1 with
  | _ = (_, stored (upsertTask _ ?t) _, _) => set (t1 := t) in E1
  end.
  set (w1 := stored (upsertTask (disk w) t1) (ticked w)) in E1.
  assert (F1 : findTask fresh (disk w1) = Some t1)
    by apply (findTask_upsert_same (disk w) t1).
  (* queued *)
  destruct (setFeishuStatus_run c P
              (statusParams acct ctx mid fresh queued ONE_SECOND None None) w1 Hwr)
    as (ev2 & r2 & E2).
  cbn [p_taskId statusParams] in E2. rewrite F1 in E2.
  match type of E2 with
  | _ = (_, stored (upsertTask _ ?t) _, _) => set (t2 := t) in E2
  end.
  set (w2 := stored (upsertTask (disk w1) t2) (ticked w1)) in E2.
  assert (F2 : findTask fresh (disk w2) = Some t2)
    by apply (findTask_upsert_same (disk w1) t2).
  (* working *)
  destruct (setFeishuStatus_run c P
              (statusParams acct ctx mid fresh working HAMMER None None) w2 Hwr)
    as (ev3 & r3 & E3).
  cbn [p_taskId statusParams] in E3. rewrite F2 in E3.
  match type of E3 with
  | _ = (_, stored (upsertTask _ ?t) _, _) => set (t3 := t) in E3
  end.
  set (w3 := stored (upsertTask (disk w2) t3) (ticked w2)) in E3.
  assert (F3 : findTask fresh (disk w3) = Some t3)
    by apply (findTask_upsert_same (disk w2) t3).
  (* onIdle: done, then removed *)
  destruct (onIdle_run c P acct ctx mid fresh w3 t3 Hwr F3 eq_refl)
    as (ev4 & r4 & E4).
  cbv zeta in E4.
  match type of E4 with
  | _ = (_, stored _ (stored (upsertTask _ ?t) _), _) => set (t4 := t) in E4
  end.
  set (w4 := stored (upsertTask (disk w3) t4) (ticked w3)) in E4.
  set (w5 := stored (removeTask (upsertTask (disk w3) t4) fresh) w4) in E4.
  assert (F5 : findTask fresh (disk w5) = None)
    by apply (findTask_remove_same (upsertTask (disk w3) t4) fresh).
  (* failed *)
  destruct (setFeishuStatus_run c P
              (statusParams acct ctx mid fresh failed ERROR None None) w5 Hwr)
    as (ev6 & r6 & E6).
  cbn [p_taskId statusParams] in E6. rewrite F5 in E6.
  match type of E6 with
  | _ = (_, stored (upsertTask _ ?t) _, _) => set (t6 := t) in E6
  end.
  set (w6 := stored (upsertTask (disk w5) t6) (ticked w5)) in E6.
  (* the run *)
  assert (Eb : beginTask c P acct ctx false fresh (disk w) w
               = (ev1 ++ [], w1, Ret (Some (fresh, mid)))).
  { unfold beginTask. cbv beta iota zeta. fold clamp. fold mid.
    rewrite (bind_run _ _ _ _ _ _ E1). reflexivity. }
  assert (Hrest : exists rest, writes (worldOf (run c P acct op w))
                               = writes w6 ++ rest).
  { unfold op. cbn [run].
    rewrite (handleTask_world _ _ _ _ _ _ _ _ _ _ _ _ Hdir Eb).
    unfold finishTask, repliedWithoutFinal.
    cbn [preDispatchThrows dispatchThrows replyStarts idle countsFinal queuedFinal].
    change (0 =? 0) with true. cbv beta iota zeta.
    rewrite (worldOf_bind (ret tt) _ w1 [] w1 tt eq_refl).
    rewrite (worldOf_bind _ _ _ _ _ _ E2).
    rewrite (worldOf_bind (emit _) _ w2 _ w2 tt eq_refl).
    rewrite (worldOf_bind (ret tt) _ w2 [] w2 tt eq_refl).
    rewrite (worldOf_bind _ _ _ _ _ _ E3).
    rewrite (worldOf_bind _ _ _ _ _ _ E4).
    rewrite worldOf_bind_ret.
    rewrite (worldOf_bind _ _ _ _ _ _ E6).
    apply failedTail_writes. }
  destruct Hrest as [rest Erest].
  exists (disk w1), (disk w2), (disk w3), (disk w4), (disk w5), (disk w6), rest, t4, t6.
  split.
  { rewrite Erest. cbn [writes w6 w5 w4 w3 w2 w1 stored ticked disk].
    rewrite <- !app_assoc. reflexivity. }
  split; [apply (findTask_upsert_same (disk w3) t4)|].
  split; [reflexivity|]. split; [reflexivity|]. split; [reflexivity|].
  split; [exact F5|].
  split; [apply (findTask_upsert_same (disk w5) t6)|].
  split; [reflexivity|]. split; [reflexivity|]. split; [reflexivity|].
  split; [reflexivity|].
  intros s t H. exact H.
Qed.

(** An empty store and a first message. *)
Definition emptyWorld : World :=
  {| clock := fun n => 2000 + Z.of_nat n; tick := 0;
     disk := {| tasks := []; lastInterruptibleByChatId := Some [] |};
     writes := [];
     writable := fun _ => true; stateDirOk := true |}.

Definition firstMessage : Ctx :=
  {| c_chatId := "oc_1"; c_messageId := "om_1";
     c_senderOpenId := "ou_user"; c_isGroup := false;
     c_content := units "summarise the report" |}.

Lemma C3_witness :
  map (fun s => map (fun t => (state t, originalText t)) (tasks s))
    (writes (worldOf (run Guarded sampleProvider "default"
                        (Handle repliedWithoutFinal firstMessage false "t1") emptyWorld)))
  = [[(received, units "summarise the report")];
     [(queued, units "summarise the report")];
     [(working, units "summarise the report")];
     [(done, units "summarise the report")];
     [];
     [(failed, [])];
     [(failed, [])]] /\
  exists s_done s_failed t_done t_failed,
    In s_done (writes (worldOf (run Guarded sampleProvider "default"
                        (Handle repliedWithoutFinal firstMessage false "t1") emptyWorld))) /\
    In s_failed (writes (worldOf (run Guarded sampleProvider "default"
                        (Handle repliedWithoutFinal firstMessage false "t1") emptyWorld))) /\
    findTask "t1" s_done = Some t_done /\ state t_done = done /\
    findTask "t1" s_failed = Some t_failed /\ state t_failed = failed.
Proof.
  split; [vm_compute; reflexivity|].
  destruct (C3_done_task_is_marked_failed_without_resume Guarded sampleProvider
              "default" firstMessage "t1" emptyWorld eq_refl eq_refl
              (fun _ => eq_refl))
    as (s1 & s2 & s3 & s_done & s_removed & s_failed & rest & t_done & t_failed
        & Ew & Hd & Sd & _ & _ & _ & Hf & Sf & _).
  exists s_done, s_failed, t_done, t_failed.
  rewrite Ew. cbn [writes emptyWorld app].
  split; [do 3 right; left; reflexivity|].
  split; [do 5 right; left; reflexivity|].
  repeat split; assumption.
Defined.

End LifeCycleFacts.

(** ** Status reactions *)

Section ReactionFacts.
Import StatusReaction.

(** The id of the previous reaction, when there is one to remove. *)
Definition prevId (prev : option StatusReactionState) : string :=
  orElse (option_map reactionId prev) "".

(** What the copy with the comparison does, in full: the add comes first; a
    failed add throws; the removal is attempted exactly when the previous
    reaction has an id other than the new one; a failed removal is logged. *)
Lemma replaceStatusReaction_run {W} P a e prev (w : W) :
  replaceStatusReaction P a e prev w =
  match addReactionFeishu P a e with
  | None => ([AddReaction a e], w, Throw)
  | Some rid =>
      (AddReaction a e ::
       (if truthyOpt (option_map reactionId prev) && negb (prevId prev =? rid)%string
        then RemoveReaction a (prevId prev) ::
             (if removeReactionFeishu P a (prevId prev) then []
              else [Log "failed to remove previous status reaction"])
        else []),
       w, Ret {| emojiType := e; reactionId := rid |})
  end.
Proof.
  unfold replaceStatusReaction, bind, tryCatch, callAdd, callRemove, ret, emit, prevId.
  destruct (addReactionFeishu P a e) as [rid|]; [|reflexivity].
  destruct (truthyOpt (option_map reactionId prev)
            && negb (orElse (option_map reactionId prev) "" =? rid)%string);
    [|reflexivity].
  destruct (removeReactionFeishu P a (orElse (option_map reactionId prev) ""));
    reflexivity.
Qed.

(** The other copy: the removal is attempted whenever the previous reaction
    has an id. *)
Lemma replaceStatusReaction_unguarded_run {W} P a e prev (w : W) :
  replaceStatusReaction_unguarded P a e prev w =
  match addReactionFeishu P a e with
  | None => ([AddReaction a e], w, Throw)
  | Some rid =>
      (AddReaction a e ::
       (if truthyOpt (option_map reactionId prev)
        then RemoveReaction a (prevId prev) ::
             (if removeReactionFeishu P a (prevId prev) then []
              else [Log "failed to remove previous status reaction"])
        else []),
       w, Ret {| emojiType := e; reactionId := rid |})
  end.
Proof.
  unfold replaceStatusReaction_unguarded, bind, tryCatch, callAdd, callRemove,
    ret, emit, prevId.
  destruct (addReactionFeishu P a e) as [rid|]; [|reflexivity].
  destruct (truthyOpt (option_map reactionId prev)); [|reflexivity].
  destruct (removeReactionFeishu P a (orElse (option_map reactionId prev) ""));
    reflexivity.
Qed.

(** For the copy with the comparison: when the provider answers the add with
    the id the previous reaction holds, nothing is removed, and the result
    pairs the new emoji with the returned id. *)
Lemma replaceStatusReaction_same_id_no_remove {W} P a e prev rid (w : W) :
  addReactionFeishu P a e = Some rid ->
  option_map reactionId prev = Some rid ->
  replaceStatusReaction P a e prev w =
  ([AddReaction a e], w, Ret {| emojiType := e; reactionId := rid |}).
Proof.
  intros Ha Hp. rewrite replaceStatusReaction_run, Ha. unfold prevId. rewrite Hp.
  cbn [orElse truthyOpt]. rewrite String.eqb_refl. cbn [negb].
  rewrite andb_false_r. reflexivity.
Qed.

(** A provider that answers every add on a message with one and the same
    reaction id, as Feishu does for an emoji that is already there. *)
Definition idempotentProvider : Provider :=
  {| addReactionFeishu := fun _ _ => Some "r1";
     removeReactionFeishu := fun _ _ => true;
     listReactionsFeishu := fun _ _ => Some [];
     sendMessageFeishu := fun _ _ _ => true |}.

Lemma replaceStatusReaction_same_id_witness :
  replaceStatusReaction idempotentProvider "om_1" "DONE"
    (Some {| emojiType := "DONE"; reactionId := "r1" |}) tt =
  ([AddReaction "om_1" "DONE"], tt, Ret {| emojiType := "DONE"; reactionId := "r1" |}).
Proof.
  apply (replaceStatusReaction_same_id_no_remove idempotentProvider "om_1" "DONE"
           (Some {| emojiType := "DONE"; reactionId := "r1" |}) "r1" tt);
    reflexivity.
Defined.

(** C5.  The copy of [replaceStatusReaction] without the comparison, run with
    a previous reaction whose id the provider returns again for the new emoji:
    it removes that id, which is the reaction it has just set. *)
Theorem C5_unguarded_copy_removes_the_new_reaction :
  replaceStatusReaction_unguarded idempotentProvider "om_1" "DONE"
    (Some {| emojiType := "DONE"; reactionId := "r1" |}) tt =
  ([AddReaction "om_1" "DONE"; RemoveReaction "om_1" "r1"], tt,
   Ret {| emojiType := "DONE"; reactionId := "r1" |}).
Proof. reflexivity. Qed.

End ReactionFacts.

(** ** Auto-finalisation on outbound replies *)

Section OutboundFacts.
Import InFlight.















End OutboundFacts.

(** ** The inbound gate *)

Section InboundFacts.
Import Inbound.

#[local] Arguments staleText : simpl never.
#[local] Arguments sliceLast : simpl never.

Lemma startsWith_app n post : startsWith n (n ++ post) = true.
Proof.
  induction n as [|a n IH]; cbn; [destruct post; reflexivity|].
  rewrite N.eqb_refl. exact IH.
Qed.

Lemma includes_here n hay : startsWith n hay = true -> includes n hay = true.
Proof. intros H. destruct hay; cbn in *; rewrite H; reflexivity. Qed.

Lemma includes_app n pre post : includes n (pre ++ n ++ post) = true.
Proof.
  induction pre as [|a pre IH]; cbn [app].
  - apply includes_here. apply startsWith_app.
  - cbn [includes]. rewrite IH. apply orb_true_r.
Qed.

Lemma includes_suffix n pre : includes n (pre ++ n) = true.
Proof. rewrite <- (app_nil_r n) at 2. apply includes_app. Qed.

Lemma existsb_eqb_In (x : string) l : existsb (String.eqb x) l = true <-> In x l.
Proof.
  rewrite existsb_exists. split.
  - intros [y [Hy E]]. apply String.eqb_eq in E. subst. exact Hy.
  - intros H. exists x. split; [exact H | apply String.eqb_refl].
Qed.

Lemma existsb_eqb_not_In (x : string) l : ~ In x l -> existsb (String.eqb x) l = false.
Proof.
  intros H. destruct (existsb (String.eqb x) l) eqn:E; [|reflexivity].
  apply existsb_eqb_In in E. contradiction.
Qed.

(** The id just pushed survives the trim of the ring. *)
Lemma In_sliceLast_pushed {A} (n : nat) (l : list A) (x : A) :
  (1 <= n)%nat -> In x (sliceLast n (l ++ [x])).
Proof.
  intros Hn. unfold sliceLast. rewrite skipn_app, length_app. cbn [List.length].
  apply in_or_app. right.
  replace (List.length l + 1 - n - List.length l)%nat with O by lia.
  left. reflexivity.
Qed.

Lemma recentIdsLimit_pos raw : (1 <= recentIdsLimit (resolveStaleDropConfig raw))%nat.
Proof.
  unfold resolveStaleDropConfig, FEISHU_RECENT_IDS_LIMIT. cbn [recentIdsLimit].
  destruct (raw_recentIdsLimit raw); lia.
Qed.

Definition isLog (e : Event) : bool :=
  match e with Log _ => true | _ => false end.

(** The ids of the ring of a chat. *)
Definition ring (w : World) (chat : string) : list string :=
  orElse (recentMessageIds (files w chat)) [].

(** The reply target of the gate's notice. *)
Definition noticeTarget (event : FeishuMessageEvent) : string :=
  if chat_type_group event then chat_id event else sender_open_id event.

(** The stale branch of the gate, when nothing in it throws. *)
Lemma persistentGate_stale cfg P fmt ctx w s l :
  enabled cfg = true -> stateDirOk w = true -> writable w = true ->
  ~ In (messageId ctx) (ring w (chatId ctx)) ->
  createTimeMs ctx = Some s ->
  lastProcessedSentAtMs (files w (chatId ctx)) = Some l ->
  s < l - skewWindowMs cfg ->
  Z.abs s <= 8640000000000000 -> Z.abs l <= 8640000000000000 ->
  (reply cfg = true ->
   sendMessageFeishu P (if isGroup ctx then chatId ctx else senderOpenId ctx)
     (Some (messageId ctx)) (Text (staleText s l (fmt s) (fmt l))) = true) ->
  persistentGate cfg P fmt ctx w =
  ((if reply cfg
    then [SendMessage (if isGroup ctx then chatId ctx else senderOpenId ctx)
            (Some (messageId ctx)) (Text (staleText s l (fmt s) (fmt l)))]
    else []),
   {| clock := clock w; tick := S (tick w);
      processedMessageIds := processedMessageIds w;
      lastCleanupTime := lastCleanupTime w;
      files := fun c =>
        if (c =? chatId ctx)%string
        then {| lastProcessedSentAtMs := Some l;
                recentMessageIds :=
                  Some (sliceLast (recentIdsLimit cfg)
                          (ring w (chatId ctx) ++ [messageId ctx]));
                updatedAtMs := Some (clock w (tick w)) |}
        else files w c;
      stateDirOk := stateDirOk w; writable := writable w |},
   Ret DroppedStale).
Proof.
  intros Hen Hdir Hwr Hnot Hs Hl Hlt Has Hal Hsend.
  unfold ring in *. apply existsb_eqb_not_In in Hnot.
  unfold persistentGate. rewrite Hen. cbn [negb].
  destruct w as [clk tk mem lastc fl sdo wr]. cbn in Hdir, Hwr, Hl, Hnot |- *.
  subst sdo wr.
  unfold tryCatch, bind, resolveStateDir, readFeishuInboundState, toISOString,
    writeFeishuInboundState, dateNow, callSend, ret, emit, throw.
  cbn. rewrite Hnot, Hs, Hl. cbn [orElse].
  apply Z.ltb_lt in Hlt. rewrite Hlt.
  apply Z.leb_le in Has, Hal. rewrite Has, Hal.
  destruct (reply cfg) eqn:Er; cbn.
  - rewrite (Hsend eq_refl). cbn. reflexivity.
  - reflexivity.
Qed.

(** [tryRecordMessage] as a function of the world: whether the id is new to
    the map, and the world it leaves. *)
Definition recorded (mid : string) (w : World) : bool * World :=
  let '(ok, (m, last)) :=
    record mid (clock w (tick w)) (processedMessageIds w) (lastCleanupTime w) in
  (ok, {| clock := clock w; tick := S (tick w); processedMessageIds := m;
          lastCleanupTime := last; files := files w;
          stateDirOk := stateDirOk w; writable := writable w |}).

Lemma tryRecordMessage_run mid w :
  tryRecordMessage mid w = ([], snd (recorded mid w), Ret (fst (recorded mid w))).
Proof.
  unfold tryRecordMessage, recorded, bind, dateNow. cbn.
  destruct (record mid (clock w (tick w)) (processedMessageIds w) (lastCleanupTime w))
    as [ok [m last]]. reflexivity.
Qed.

Lemma recorded_files mid w :
  files (snd (recorded mid w)) = files w /\
  stateDirOk (snd (recorded mid w)) = stateDirOk w /\
  writable (snd (recorded mid w)) = writable w.
Proof.
  unfold recorded.
  destruct (record mid (clock w (tick w)) (processedMessageIds w) (lastCleanupTime w))
    as [ok [m last]]. cbn. auto.
Qed.

Lemma handleFeishuMessage_run raw P fmt rest event w :
  handleFeishuMessage raw P fmt rest event w =
  if fst (recorded (message_id event) w) then
    match persistentGate (resolveStaleDropConfig raw) P fmt
            (parseFeishuMessageEvent event) (snd (recorded (message_id event) w)) with
    | (evs, w2, Ret LetThrough) => (evs ++ rest (parseFeishuMessageEvent event), w2, Ret tt)
    | (evs, w2, Ret _) => (evs ++ [], w2, Ret tt)
    | (evs, w2, Throw) => (evs, w2, Throw)
    end
  else ([Log "skipping duplicate message"], snd (recorded (message_id event) w), Ret tt).
Proof.
  unfold handleFeishuMessage. unfold bind at 1. rewrite tryRecordMessage_run.
  destruct (fst (recorded (message_id event) w)); cbn [negb]; [|reflexivity].
  unfold bind.
  destruct (persistentGate _ P fmt _ _) as [[evs w2] [[]|]]; reflexivity.
Qed.

(** C4, as amended.  An inbound event that is new to both dedup layers, whose
    [create_time] parses to [s] with [s < lastProcessedSentAtMs - skewWindowMs]
    (stale-drop enabled), is handled as follows when the state directory
    resolves, the dates are in range, and the notice (if configured) and the
    state file can be written: the handler returns without running the rest
    of the pipeline, so the agent is not dispatched; with [staleDrop.reply]
    on it sends exactly one message, replying to the event's id, whose body
    contains "过期消息" and "reason=out_of_order_delivery", and with it off it
    sends nothing; the id is in the ring of the chat afterwards and the
    watermark is unchanged. *)
Theorem C4_stale_event_dropped_with_one_notice raw P fmt rest event w s l :
  enabled (resolveStaleDropConfig raw) = true ->
  fst (recorded (message_id event) w) = true ->
  ~ In (message_id event) (ring w (chat_id event)) ->
  createTimeMs (parseFeishuMessageEvent event) = Some s ->
  lastProcessedSentAtMs (files w (chat_id event)) = Some l ->
  s < l - skewWindowMs (resolveStaleDropConfig raw) ->
  Z.abs s <= 8640000000000000 -> Z.abs l <= 8640000000000000 ->
  stateDirOk w = true -> writable w = true ->
  (reply (resolveStaleDropConfig raw) = true ->
   sendMessageFeishu P (noticeTarget event) (Some (message_id event))
     (Text (staleText s l (fmt s) (fmt l))) = true) ->
  let r := handleFeishuMessage raw P fmt rest event w in
  resultOf r = Ret tt /\
  eventsOf r =
    (if reply (resolveStaleDropConfig raw)
     then [SendMessage (noticeTarget event) (Some (message_id event))
             (Text (staleText s l (fmt s) (fmt l)))]
     else []) /\
  filter isDispatch (eventsOf r) = [] /\
  includes (firstn 4 staleHeadline) (staleText s l (fmt s) (fmt l)) = true /\
  includes staleReason (staleText s l (fmt s) (fmt l)) = true /\
  In (message_id event) (ring (worldOf r) (chat_id event)) /\
  lastProcessedSentAtMs (files (worldOf r) (chat_id event)) = Some l.
Proof.
  intros Hen Hfresh Hnot Hs Hl Hlt Has Hal Hdir Hwr Hsend r.
  destruct (recorded_files (message_id event) w) as [Hf [Hd Hw]].
  assert (Hgate := persistentGate_stale (resolveStaleDropConfig raw) P fmt
            (parseFeishuMessageEvent event) (snd (recorded (message_id event) w)) s l).
  cbn [parseFeishuMessageEvent chatId messageId isGroup senderOpenId] in Hgate.
  unfold ring in Hgate. rewrite Hf, Hd, Hw in Hgate.
  specialize (Hgate Hen Hdir Hwr Hnot Hs Hl Hlt Has Hal Hsend).
  subst r. rewrite handleFeishuMessage_run, Hfresh, Hgate.
  unfold resultOf, eventsOf, worldOf, ring. cbn [fst snd files].
  rewrite String.eqb_refl. cbn [recentMessageIds lastProcessedSentAtMs orElse].
  split; [reflexivity|]. split; [apply app_nil_r|].
  split; [destruct (reply _); reflexivity|].
  split.
  { apply includes_here. reflexivity. }
  split.
  { unfold staleText. rewrite !app_assoc. apply includes_suffix. }
  split; [|reflexivity].
  apply In_sliceLast_pushed. apply recentIdsLimit_pos.
Qed.

(** The scenario of bot.stale-drop.test.ts: watermark 2000, no skew, and a
    message created at 1000. *)
Definition staleRaw : RawStaleDrop :=
  {| raw_enabled := Some true; raw_reply := Some true;
     raw_skewWindowMs := Some 0; raw_recentIdsLimit := Some 10 |}.

Definition staleEvent : FeishuMessageEvent :=
  {| message_id := "om_old"; chat_id := "oc_test"; chat_type_group := false;
     sender_open_id := "ou_test"; create_time := Some "1000" |}.

Definition gateWorld (recent : list string) : World :=
  {| clock := fun n => 5000 + Z.of_nat n; tick := 0;
     processedMessageIds := []; lastCleanupTime := 5000;
     files := fun _ => {| lastProcessedSentAtMs := Some 2000;
                          recentMessageIds := Some recent;
                          updatedAtMs := None |};
     stateDirOk := true; writable := true |}.

(** The remainder of the handler, reduced to its dispatch. *)
Definition dispatchOnly (ctx : FeishuMessageContext) : list Event :=
  [DispatchToAgent (messageId ctx)].

(** A provider whose send API rejects. *)
Definition failingSendProvider : Provider :=
  {| addReactionFeishu := fun _ _ => Some "r1";
     removeReactionFeishu := fun _ _ => true;
     listReactionsFeishu := fun _ _ => Some [];
     sendMessageFeishu := fun _ _ _ => false |}.

Lemma C4_witness :
  eventsOf (handleFeishuMessage staleRaw sampleProvider showZ dispatchOnly staleEvent
              (gateWorld [])) =
  [SendMessage "ou_test" (Some "om_old")
     (Text (staleText 1000 2000 (showZ 1000) (showZ 2000)))] /\
  In "om_old"
     (ring (worldOf (handleFeishuMessage staleRaw sampleProvider showZ dispatchOnly
                       staleEvent (gateWorld []))) "oc_test").
Proof.
  pose proof (C4_stale_event_dropped_with_one_notice staleRaw sampleProvider showZ
                dispatchOnly staleEvent (gateWorld []) 1000 2000) as H.
  cbv zeta in H.
  assert (Hnot : ~ In (message_id staleEvent) (ring (gateWorld []) (chat_id staleEvent)))
    by (intros []).
  assert (Hlt : 1000 < 2000 - skewWindowMs (resolveStaleDropConfig staleRaw))
    by (vm_compute; reflexivity).
  assert (Ha : Z.abs 1000 <= 8640000000000000) by (vm_compute; discriminate).
  assert (Hb : Z.abs 2000 <= 8640000000000000) by (vm_compute; discriminate).
  destruct (H eq_refl eq_refl Hnot eq_refl eq_refl Hlt Ha Hb eq_refl eq_refl
              (fun _ => eq_refl)) as (_ & Hev & _ & _ & _ & Hin & _).
  split; [exact Hev | exact Hin].
Defined.

(** C4 as stated fails in two ways.  A stale event whose id is already in the
    ring is dropped as a duplicate before the stale check: no notice is sent
    although [staleDrop.reply] is on.  And when the notice cannot be sent, the
    exception is caught by the best-effort block and the stale event goes on
    to the rest of the handler, here the dispatch. *)
Lemma C4_counterexample :
  createTimeMs (parseFeishuMessageEvent staleEvent) = Some 1000 /\
  lastProcessedSentAtMs (files (gateWorld ["om_old"]) "oc_test") = Some 2000 /\
  (1000 <? 2000 - skewWindowMs (resolveStaleDropConfig staleRaw)) = true /\
  reply (resolveStaleDropConfig staleRaw) = true /\
  filter isSend
    (eventsOf (handleFeishuMessage staleRaw sampleProvider showZ dispatchOnly
                 staleEvent (gateWorld ["om_old"]))) = [] /\
  filter isDispatch
    (eventsOf (handleFeishuMessage staleRaw failingSendProvider showZ dispatchOnly
                 staleEvent (gateWorld []))) = [DispatchToAgent "om_old"].
Proof. vm_compute. repeat split; reflexivity. Qed.


(** A delivery is dropped: the handler returns having only logged, and no
    state file has changed. *)
Definition dropped (r : list Event * World * Exc unit) (w : World) : Prop :=
  resultOf r = Ret tt /\ forallb isLog (eventsOf r) = true /\
  files (worldOf r) = files w.





Lemma hasKey_app k m1 m2 : hasKey k (m1 ++ m2) = hasKey k m1 || hasKey k m2.
Proof. unfold hasKey. apply existsb_app. Qed.

(** After the map has taken in an id at time [now], it answers for it until
    [now + DEDUP_TTL_MS], as long as no other delivery has touched the map. *)
Lemma map_remembers_after_admission mid w w2 :
  fst (recorded mid w) = true ->
  processedMessageIds w2 = processedMessageIds (snd (recorded mid w)) ->
  lastCleanupTime w2 = lastCleanupTime (snd (recorded mid w)) ->
  clock w2 (tick w2) - clock w (tick w) <= DEDUP_TTL_MS ->
  hasKey mid
    (fst (sweep (clock w2 (tick w2)) (processedMessageIds w2) (lastCleanupTime w2)))
  = true.
Proof.
  unfold recorded, record. intros Hfresh Hm Hl Hnow.
  destruct (sweep (clock w (tick w)) (processedMessageIds w) (lastCleanupTime w))
    as [m1 last1].
  destruct (hasKey mid m1); [discriminate|]. cbn [snd processedMessageIds lastCleanupTime] in Hm, Hl.
  rewrite Hm, Hl. unfold sweep.
  destruct (DEDUP_CLEANUP_INTERVAL_MS <? clock w2 (tick w2) - last1); cbn [fst].
  - rewrite filter_app, hasKey_app. cbn [filter snd].
    assert (E : (DEDUP_TTL_MS <? clock w2 (tick w2) - clock w (tick w)) = false)
      by (apply Z.ltb_ge; exact Hnow).
    rewrite E. cbn [negb hasKey existsb fst]. rewrite String.eqb_refl.
    cbn. apply orb_true_r.
  - rewrite hasKey_app. cbn [hasKey existsb fst]. rewrite String.eqb_refl.
    cbn. apply orb_true_r.
Qed.

Definition gateFailure : Event := Log "persistent dedup/stale check failed".





































End InboundFacts.

(** ** Invariants of computations, for any world *)

Section Keeps.
Context {W : Type}.
Variable Inv : W -> Prop.

(** [m] keeps [Inv], whether it returns or throws. *)
Definition keeps {A} (m : M W A) : Prop :=
  forall w, Inv w -> Inv (worldOf (m w)).

Lemma keeps_ret {A} (a : A) : keeps (ret a).
Proof. intros w Hw. exact Hw. Qed.

Lemma keeps_throw {A} : keeps (@throw W A).
Proof. intros w Hw. exact Hw. Qed.

Lemma keeps_emit e : keeps (emit e).
Proof. intros w Hw. exact Hw. Qed.

Lemma keeps_get : keeps get.
Proof. intros w Hw. exact Hw. Qed.

Lemma keeps_bind {A B} (m : M W A) (f : A -> M W B) :
  keeps m -> (forall a, keeps (f a)) -> keeps (bind m f).
Proof.
  intros Hm Hf w Hw. specialize (Hm w Hw). unfold bind, worldOf in *.
  destruct (m w) as [[ev w'] [a|]]; cbn in *; [|exact Hm].
  specialize (Hf a w' Hm). unfold worldOf in Hf.
  destruct (f a w') as [[ev' w''] r]. exact Hf.
Qed.

Lemma keeps_tryCatch {A} (m h : M W A) : keeps m -> keeps h -> keeps (tryCatch m h).
Proof.
  intros Hm Hh w Hw. specialize (Hm w Hw). unfold tryCatch, worldOf in *.
  destruct (m w) as [[ev w'] [a|]]; cbn in *; [exact Hm|].
  specialize (Hh w' Hm). unfold worldOf in Hh.
  destruct (h w') as [[ev' w''] r]. exact Hh.
Qed.

End Keeps.

(** ** The announce queue *)

Section AnnounceFacts.
Import Announce.





(** Invariants of the calls of [send]: [Inv] reads only [sent], and it
    survives one more call, made for an item that is not stale then. *)
Section SentInvariant.
Variable Inv : World -> Prop.
Hypothesis Inv_sent : forall w w', sent w' = sent w -> Inv w -> Inv w'.
Hypothesis Inv_call : forall w item now r,
  isStaleItem (queue w) item now = false ->
  Inv w ->
  Inv {| clock := clock w; tick := tick w; queue := queue w; inMap := inMap w;
         sent := sent w ++ [{| sentItem := item; sentAt := now;
                               sentMaxAge := maxAgeMs (queue w);
                               resolved := r |}] |}.

Lemma keeps_same_sent {A} (m : M World A) :
  (forall w, sent (worldOf (m w)) = sent w) -> keeps Inv m.
Proof. intros H w Hw. eapply Inv_sent; [apply H | exact Hw]. Qed.

Lemma keeps_sendIfFresh ok item : keeps Inv (sendIfFresh ok item).
Proof.
  intros w Hw. unfold sendIfFresh, bind, dateNow, getQueue, emit, worldOf. cbn.
  assert (Hw1 : Inv {| clock := clock w; tick := S (tick w); queue := queue w;
                       inMap := inMap w; sent := sent w |})
    by (eapply Inv_sent; [|exact Hw]; reflexivity).
  destruct (isStaleItem (queue w) item (clock w (tick w))) eqn:E; cbn.
  - exact Hw1.
  - exact (Inv_call {| clock := clock w; tick := S (tick w); queue := queue w;
                       inMap := inMap w; sent := sent w |}
             item (clock w (tick w)) _ E Hw1).
Qed.

Ltac keeps_go :=
  lazymatch goal with
  | |- keeps _ (bind _ _) => apply keeps_bind; [ keeps_go | intros ?; keeps_go ]
  | |- keeps _ (tryCatch _ _) => apply keeps_tryCatch; keeps_go
  | |- keeps _ (ret _) => apply keeps_ret
  | |- keeps _ throw => apply keeps_throw
  | |- keeps _ (emit _) => apply keeps_emit
  | |- keeps _ get => apply keeps_get
  | |- keeps _ getQueue => apply keeps_same_sent; reflexivity
  | |- keeps _ dateNow => apply keeps_same_sent; reflexivity
  | |- keeps _ (modifyQueue _) => apply keeps_same_sent; reflexivity
  | |- keeps _ shiftItems => apply keeps_same_sent; reflexivity
  | |- keeps _ removeFromMap => apply keeps_same_sent; reflexivity
  | |- keeps _ (sendIfFresh _ _) => apply keeps_sendIfFresh
  | |- keeps _ (if ?b then _ else _) => destruct b; keeps_go
  | |- keeps _ (match ?x with _ => _ end) => destruct x; keeps_go
  | _ => idtac
  end.

Lemma keeps_drainLoop H ok fuel :
  forall force, keeps Inv (drainLoop H ok fuel force).
Proof.
  induction fuel as [|fuel IH]; intros force; cbn [drainLoop]; [apply keeps_ret|].
  keeps_go; apply IH.
Qed.

Lemma keeps_drainPass H ok : keeps Inv (drainPass H ok).
Proof. unfold drainPass. keeps_go. apply keeps_drainLoop. Qed.

Lemma keeps_schedule H ok passes : keeps Inv (scheduleAnnounceDrain H ok passes).
Proof.
  induction passes as [|p IH]; cbn [scheduleAnnounceDrain]; [apply keeps_ret|].
  apply keeps_bind; [apply keeps_drainPass|]. intros []; [exact IH | apply keeps_ret].
Qed.

End SentInvariant.


(** The calls of [send] only grow. *)
Definition sentExtends (base : list SendCall) (w : World) : Prop :=
  exists more, sent w = base ++ more.

Lemma schedule_extends H ok passes base w :
  sentExtends base w -> sentExtends base (worldOf (scheduleAnnounceDrain H ok passes w)).
Proof.
  apply (keeps_schedule (sentExtends base)).
  - intros w1 w2 E Hw. unfold sentExtends in *. rewrite E. exact Hw.
  - intros w1 item now r _ [more E]. exists (more ++ [{| sentItem := item; sentAt := now;
        sentMaxAge := maxAgeMs (queue w1); resolved := r |}]).
    cbn [sent]. rewrite E, app_assoc. reflexivity.
Qed.


Lemma length_dropStale q now :
  (List.length (items (dropStaleItemsInPlace q now)) <= List.length (items q))%nat.
Proof.
  unfold dropStaleItemsInPlace. destruct (maxAgeMs q <=? 0); [lia|].
  cbn [items setItems]. apply filter_length_le.
Qed.


(** What [sendIfFresh] leaves: the queue as it was; a call more, or none. *)
Lemma sendIfFresh_queue ok item w :
  queue (worldOf (sendIfFresh ok item w)) = queue w /\
  inMap (worldOf (sendIfFresh ok item w)) = inMap w /\
  tick (worldOf (sendIfFresh ok item w)) = S (tick w) /\
  clock (worldOf (sendIfFresh ok item w)) = clock w.
Proof.
  unfold sendIfFresh, bind, dateNow, getQueue, emit, worldOf. cbn.
  destruct (isStaleItem (queue w) item (clock w (tick w))); cbn; auto.
Qed.

Lemma resultOf_prefix {W A} (pre : list Event) (x : list Event * W * Exc A) :
  resultOf (let '(ev', w'', r) := x in (pre ++ ev', w'', r)) = resultOf x.
Proof. destruct x as [[ev w] r]. reflexivity. Qed.

Lemma worldOf_prefix {W A} (pre : list Event) (x : list Event * W * Exc A) :
  worldOf (let '(ev', w'', r) := x in (pre ++ ev', w'', r)) = worldOf x.
Proof. destruct x as [[ev w] r]. reflexivity. Qed.

(** The loop ends within [length items + 1] iterations: with that much fuel
    it never stops for want of fuel. *)
Lemma drainLoop_fuel H ok fuel :
  forall force w,
    (List.length (items (queue w)) < fuel)%nat ->
    resultOf (drainLoop H ok fuel force w) <> Ret OutOfFuel.
Proof.
  induction fuel as [|fuel IH]; intros force w Hlt; [lia|].
  cbn [drainLoop]. unfold bind at 1. unfold getQueue at 1. cbn beta iota.
  destruct (negb _); [cbn; discriminate|].
  unfold bind at 1. unfold dateNow at 1. cbn beta iota.
  unfold bind at 1. unfold modifyQueue at 1. cbn beta iota.
  unfold bind at 1. unfold getQueue at 1. cbn beta iota.
  cbn [queue withQueue clock tick].
  set (now := clock w (tick w)).
  set (q := dropStaleItemsInPlace (queue w) now).
  pose proof (length_dropStale (queue w) now) as Hlen. fold q in Hlen.
  set (w1 := withQueue _ q).
  assert (Hstep : forall (item : AnnounceQueueItem) (rest : M World LoopEnd),
             (forall w2, queue w2 = q -> resultOf (rest w2) <> Ret OutOfFuel) ->
             resultOf ((sendIfFresh ok item ;;; rest)%eff w1) <> Ret OutOfFuel).
  { intros item rest Hrest. unfold bind at 1.
    pose proof (sendIfFresh_queue ok item w1) as [Hq _].
    unfold worldOf in Hq.
    destruct (sendIfFresh ok item w1) as [[ev w2] [[]|]]; cbn [fst snd] in Hq;
      [|cbn; discriminate].
    specialize (Hrest w2 Hq). unfold resultOf in *.
    destruct (rest w2) as [[ev3 w3] r3]. cbn in *. exact Hrest. }
  assert (Hnext : forall (k : M World unit) force' w2,
             (List.length (items (queue (worldOf (k w2)))) < fuel)%nat ->
             resultOf (k w2) = Ret tt ->
             resultOf ((k ;;; drainLoop H ok fuel force')%eff w2) <> Ret OutOfFuel).
  { intros k force' w2 Hl Hr. unfold bind. unfold worldOf, resultOf in Hl, Hr.
    destruct (k w2) as [[ev3 w3] r3]; cbn [fst snd] in Hl, Hr. subst r3.
    specialize (IH force' w3 Hl). unfold resultOf in *.
    destruct (drainLoop H ok fuel force' w3) as [[ev4 w4] r4]. cbn in *. exact IH. }
  rewrite !resultOf_prefix.
  destruct (mode q).
  - (* followup *)
    destruct (truthySummary (previewQueueSummaryPrompt H q)) as [sp|].
    + destruct (items q) as [|next r] eqn:Ei; [cbn; discriminate|].
      apply Hstep. intros w2 Hq. unfold bind at 1.
      unfold shiftItems at 1. unfold modifyQueue at 1. cbn beta iota.
      rewrite resultOf_prefix.
      apply Hnext; unfold modifyQueue, worldOf, resultOf; cbn; [|reflexivity].
      rewrite Hq, Ei. cbn. cbn in Hlen. lia.
    + destruct (items q) as [|next r] eqn:Ei; [cbn; discriminate|].
      apply Hstep. intros w2 Hq.
      apply Hnext; unfold shiftItems, modifyQueue, worldOf, resultOf; cbn;
        [|reflexivity].
      rewrite Hq, Ei. cbn. cbn in Hlen. lia.
  - (* collect *)
    destruct (force || hasCrossChannelItems H (map channelKey (items q))).
    + destruct (items q) as [|next r] eqn:Ei; [cbn; discriminate|].
      apply Hstep. intros w2 Hq.
      apply Hnext; unfold shiftItems, modifyQueue, worldOf, resultOf; cbn;
        [|reflexivity].
      rewrite Hq, Ei. cbn. cbn in Hlen. lia.
    + destruct (lastItem (items q)) as [final|] eqn:El; [|cbn; discriminate].
      assert (Hpos : (0 < List.length (items q))%nat).
      { destruct (items q); [discriminate El | cbn; lia]. }
      apply Hstep. intros w2 Hq. unfold bind at 1.
      unfold modifyQueue at 1. cbn beta iota. rewrite resultOf_prefix.
      apply Hnext; destruct (truthyOpt (previewQueueSummaryPrompt H q));
        unfold modifyQueue, ret, worldOf, resultOf; cbn; try reflexivity;
        rewrite Hq, skipn_all; cbn; lia.
Qed.













(** What is observed of a run when its events are left aside. *)
Definition obs {A} (r : list Event * World * Exc A) : World * Exc A :=
  (worldOf r, resultOf r).

Lemma obs_prefix {A} (pre : list Event) (x : list Event * World * Exc A) :
  obs (let '(ev', w'', r) := x in (pre ++ ev', w'', r)) = obs x.
Proof. destruct x as [[ev w] r]. reflexivity. Qed.
















Lemma skipn_length_nil {A} (l : list A) : skipn (List.length l) l = [].
Proof. induction l; [reflexivity | exact IHl]. Qed.






(** The loop as [drainPass] runs it. *)
Definition passLoop (H : Helpers) (ok : nat -> AnnounceQueueItem -> bool) (w : World) :=
  drainLoop H ok (S (List.length (items (queue w)))) false
    (withQueue w (setDraining true (queue w))).

(** The world after the [catch] block. *)
Definition caught (w : World) : World :=
  {| clock := clock w; tick := S (tick w);
     queue := setLastEnqueuedAt (clock w (tick w)) (queue w);
     inMap := inMap w; sent := sent w |}.

(** One pass of a queue that is in the map and not draining, from what its
    loop does: the [catch] runs after an exception, and the [finally] either
    deletes the queue or schedules the next pass. *)
Lemma drainPass_obs H ok w :
  inMap w = true -> draining (queue w) = false ->
  let wc := match resultOf (passLoop H ok w) with
            | Ret _ => worldOf (passLoop H ok w)
            | Throw => caught (worldOf (passLoop H ok w))
            end in
  let q := setDraining false (queue wc) in
  obs (drainPass H ok w) =
  if Nat.eqb (List.length (items q)) 0 && (droppedCount q =? 0)
  then ({| clock := clock wc; tick := tick wc; queue := q; inMap := false;
           sent := sent wc |}, Ret false)
  else (withQueue wc q, Ret true).
Proof.
  intros Hin Hdr. unfold drainPass, passLoop, caught.
  unfold bind at 1. unfold get at 1. cbn beta iota. rewrite Hin, Hdr. cbn [negb orb].
  rewrite obs_prefix.
  unfold bind at 1. unfold modifyQueue at 1. cbn beta iota. rewrite obs_prefix.
  unfold bind at 1. unfold tryCatch at 1. unfold bind at 1.
  unfold worldOf, resultOf.
  destruct (drainLoop H ok _ false _) as [[ev wl] [e|]]; cbn [fst snd].
  - unfold ret at 1. cbn beta iota.
    unfold bind, modifyQueue, getQueue, removeFromMap, ret, obs, worldOf, resultOf.
    cbn [queue withQueue clock tick inMap sent items droppedCount setDraining].
    destruct (_ && _); reflexivity.
  - unfold bind, dateNow, modifyQueue, getQueue, removeFromMap, ret, emit, obs,
      worldOf, resultOf.
    cbn [queue withQueue clock tick inMap sent items droppedCount setDraining
         setLastEnqueuedAt].
    destruct (_ && _); reflexivity.
Qed.













(** Modelled from the spec: the helpers of utils/queue-helpers.ts that build
    prompts.  A summary prompt exists when summary lines are pending; the
    collect prompt lists the queued prompts under a title, followed by the
    summary. *)
Definition overflowPrompt (lines : list string) : string :=
  String.concat (String (ascii_of_nat 10) "") ("[Queue overflow]" :: lines).

Fixpoint renderQueued (n : nat) (l : list AnnounceQueueItem) : list string :=
  match l with
  | [] => []
  | i :: r =>
      ("---" :: ("Queued #" ++ NilEmpty.string_of_uint (Nat.to_uint n))%string
       :: prompt i :: nil) ++ renderQueued (S n) r
  end.

Definition specHelpers : Helpers :=
  {| buildQueueSummaryPrompt := fun _ _ lines =>
       match lines with [] => None | _ => Some (overflowPrompt lines) end;
     buildCollectPrompt := fun its summary =>
       String.concat (String (ascii_of_nat 10) "")
         ("[Queued announce messages while agent was busy]" :: renderQueued 1 its
          ++ match summary with Some s => [s] | None => [] end);
     hasCrossChannelItems := fun keys =>
       existsb (fun k => match k with Cross => true | _ => false end) keys |}.

(** The scenario of the test suite: one item in a followup queue, and a
    [send] that rejects on its first call only. *)
Definition retryItem : AnnounceQueueItem :=
  {| announceId := None; prompt := "subagent completed"; summaryLine := None;
     enqueuedAt := 1000; sessionKey := "agent:main:telegram:dm:u1";
     origin := None; originKey := None; highPriority := false |}.

Definition failsOnce (n : nat) (_ : AnnounceQueueItem) : bool := negb (Nat.eqb n 0).

(** The queue holding [retryItem], with the given [maxAgeMs]; [step] ms pass
    between two readings of the clock. *)
Definition retryWorld (maxAge step : Z) : World :=
  {| clock := fun n => 1000 + step * Z.of_nat n; tick := 0;
     queue := {| items := [retryItem]; draining := false; lastEnqueuedAt := 1000;
                 mode := followup; debounceMs := 0; cap := 20;
                 dropPolicy := summarize; droppedCount := 0; summaryLines := [];
                 maxAgeMs := maxAge |};
     inMap := true; sent := [] |}.








Lemma drainLoop_fuel_witness :
  (List.length (items (queue (retryWorld 600000 1))) < 2)%nat /\
  resultOf (drainLoop specHelpers failsOnce 2 false (retryWorld 600000 1))
  <> Ret OutOfFuel.
Proof.
  split; [cbn; lia|].
  apply (drainLoop_fuel specHelpers failsOnce 2 false (retryWorld 600000 1)).
  cbn. lia.
Defined.








End AnnounceFacts.

(** ** The size cap of tool results *)

Section RoundingFacts.



End RoundingFacts.

Section CapFacts.
Import Guard.
































End CapFacts.

(** ** Tool calls and their results in the transcript *)

Section PairingFacts.
Import Guard.

Variable I : Imports.

(** The message that [guardedAppend] goes on with: an assistant message as
    the sanitizer leaves it, if it leaves one. *)
Definition incoming (msg : AgentMessage) : option AgentMessage :=
  match role msg with
  | assistant => sanitizeToolCallInputs I msg
  | _ => Some msg
  end.

(** The ids of the tool calls that a message brings. *)
Definition callIds (m : AgentMessage) : list string :=
  match role m with
  | assistant => map fst (extractToolCallsFromAssistant I m)
  | _ => []
  end.

(** Reading a transcript from its start with the ids of the calls that are
    still without a result: a tool result answers its id; any other message
    may only come when no call is open, and opens its own calls.  [None]: a
    message other than a tool result was written while a call was open. *)
Definition stepPaired (open : option (list string)) (m : AgentMessage)
    : option (list string) :=
  match open with
  | None => None
  | Some o =>
      match role m with
      | toolResult =>
          Some (match extractToolResultId I m with
                | Some id => remove string_dec id o
                | None => o
                end)
      | _ => match o with [] => Some (callIds m) | _ :: _ => None end
      end
  end.

Definition openCalls (transcript : list AgentMessage) : option (list string) :=
  fold_left stepPaired transcript (Some []).

Definition paired (transcript : list AgentMessage) : Prop :=
  exists o, openCalls transcript = Some o.

Lemma openCalls_snoc l m : openCalls (l ++ [m]) = stepPaired (openCalls l) m.
Proof. unfold openCalls. rewrite fold_left_app. reflexivity. Qed.

(** *** The pending map *)

Lemma keys_mapSet k v p x :
  In x (map fst (mapSet k v p)) <-> x = k \/ In x (map fst p).
Proof.
  induction p as [|[k' v'] r IH]; cbn [mapSet map fst In].
  - intuition.
  - destruct (k' =? k)%string eqn:E; cbn [map fst In].
    + apply String.eqb_eq in E. subst k'. intuition.
    + rewrite IH. intuition.
Qed.

Lemma keys_set_all (calls : list (string * option string)) :
  forall p x,
    In x (map fst (fold_left (fun p call => mapSet (fst call) (snd call) p) calls p))
    <-> In x (map fst calls) \/ In x (map fst p).
Proof.
  induction calls as [|c r IH]; intros p x; cbn [fold_left map In]; [intuition|].
  rewrite IH, keys_mapSet. intuition.
Qed.

Lemma keys_mapDelete k p x :
  In x (map fst (mapDelete k p)) <-> x <> k /\ In x (map fst p).
Proof.
  unfold mapDelete. induction p as [|[k' v'] r IH]; cbn [filter map fst In]; [intuition|].
  destruct (k' =? k)%string eqn:E; cbn [negb map fst In].
  - apply String.eqb_eq in E. subst k'. rewrite IH. intuition congruence.
  - apply String.eqb_neq in E. rewrite IH. intuition congruence.
Qed.

(** *** What a flush leaves *)

Lemma pending_flush opts s :
  pending (flushPendingToolResults I opts s) = [].
Proof.
  unfold flushPendingToolResults. destruct (pending s) eqn:E; [exact E | reflexivity].
Qed.

(** With synthetic results allowed, the pending map is empty when the
    message itself is about to be written. *)
Lemma pending_before_write opts s (toolCalls : list (string * option string)) nextRole :
  allowSynthetic opts = true ->
  pending
    (let s' :=
       if nonEmpty (pending s)
          && (negb (nonEmpty toolCalls) || negb (role_eqb nextRole assistant))
       then flushPendingToolResults I opts s else s in
     if nonEmpty (pending s') && nonEmpty toolCalls
     then flushPendingToolResults I opts s' else s') = [].
Proof.
  intros _. cbv zeta.
  destruct (pending s) as [|e r] eqn:Ep; cbn [nonEmpty andb].
  - rewrite Ep. cbn [nonEmpty andb]. exact Ep.
  - destruct (nonEmpty toolCalls) eqn:Et; cbn [negb orb].
    + destruct (negb (role_eqb nextRole assistant)).
      * rewrite pending_flush. cbn [nonEmpty andb]. apply pending_flush.
      * rewrite Ep. cbn [nonEmpty andb]. apply pending_flush.
    + rewrite pending_flush. cbn [nonEmpty andb]. apply pending_flush.
Qed.

(** After the append of a message that is not a tool result, the pending
    map holds only ids of that message's own tool calls. *)
Lemma pending_after_append opts msg s :
  allowSynthetic opts = true ->
  match incoming msg with
  | None => pending (guardedAppend I opts msg s) = []
  | Some next =>
      role next <> toolResult ->
      incl (getPendingIds (guardedAppend I opts msg s)) (callIds next)
  end.
Proof.
  intros Hallow. unfold incoming, guardedAppend.
  destruct (match role msg with
            | assistant => sanitizeToolCallInputs I msg
            | _ => Some msg
            end) as [next|].
  - intros Hrole. unfold callIds.
    destruct (role next) eqn:Er; [|contradiction|]; rewrite Hallow.
    + pose proof (pending_before_write opts s (extractToolCallsFromAssistant I next)
                    assistant Hallow) as Hp.
      cbv zeta in Hp |- *.
      match type of Hp with pending ?x = [] => set (s1 := x) in * end.
      destruct (applyBeforeWriteHook opts (persistMessage opts next)) as [final|].
      * unfold getPendingIds. cbn [pending setPending]. intros x Hx.
        apply keys_set_all in Hx. destruct Hx as [Hx|Hx]; [exact Hx|].
        destruct (truthyOpt _); cbn in Hx; rewrite Hp in Hx; destruct Hx.
      * unfold getPendingIds. rewrite Hp. intros x [].
    + pose proof (pending_before_write opts s [] otherRole Hallow) as Hp.
      cbv zeta in Hp |- *.
      match type of Hp with pending ?x = [] => set (s1 := x) in * end.
      destruct (applyBeforeWriteHook opts (persistMessage opts next)) as [final|].
      * unfold getPendingIds. cbn [pending setPending fold_left]. intros x Hx.
        destruct (truthyOpt _); cbn in Hx; rewrite Hp in Hx; destruct Hx.
      * unfold getPendingIds. rewrite Hp. intros x [].
  - rewrite Hallow. cbn [andb].
    destruct (pending s) eqn:Ep; cbn [nonEmpty]; [exact Ep | apply pending_flush].
Qed.

(** *** The transcript written without transforms and hook *)

(** The cap and the annotation change at most the content. *)
Definition sameButContent (m m' : AgentMessage) : Prop :=
  m' = m \/ exists c, m' = withContent c m.

Lemma capToolResultSize_shape hardMax m : sameButContent m (capToolResultSize hardMax m).
Proof.
  unfold capToolResultSize, sameButContent.
  destruct (role m); auto. destruct (content m); auto.
  destruct (_ <=? _); eauto.
Qed.

Lemma annotate_shape eh m meta :
  sameButContent m (annotateRecoverableToolErrors eh m meta).
Proof.
  unfold annotateRecoverableToolErrors, appendToolResultHint, sameButContent.
  destruct (m_isSynthetic meta); auto.
  destruct (role m); auto. destruct (negb (isError m)); auto.
  destruct (includes _ _); auto. destruct (_ =? _)%string; auto.
  destruct (eh meta _); auto. destruct (content m); eauto.
Qed.

Lemma sameButContent_trans a b c :
  sameButContent a b -> sameButContent b c -> sameButContent a c.
Proof.
  unfold sameButContent. intros [->|[cb ->]] [->|[cc ->]]; eauto.
  right. exists cc. reflexivity.
Qed.

Lemma sameButContent_role m m' : sameButContent m m' -> role m' = role m.
Proof. intros [->|[c ->]]; reflexivity. Qed.

Section Lawful.

(** What is assumed of the imports: the placeholder made for a call is a tool
    result with the id of the call, and the id of a tool result is not read
    from its content. *)
Hypothesis placeholder_role :
  forall id name, role (makeMissingToolResult I id name) = toolResult.
Hypothesis placeholder_id :
  forall id name, extractToolResultId I (makeMissingToolResult I id name) = Some id.
Hypothesis id_not_in_content :
  forall m c, extractToolResultId I (withContent c m) = extractToolResultId I m.

Lemma sameButContent_id m m' :
  sameButContent m m' -> extractToolResultId I m' = extractToolResultId I m.
Proof. intros [->|[c ->]]; [reflexivity | apply id_not_in_content]. Qed.

Lemma flushOne_noOptions s e :
  flushOne I noOptions s e = originalAppend (makeMissingToolResult I (fst e) (snd e)) s.
Proof. reflexivity. Qed.

(** Each placeholder answers its call. *)
Lemma openCalls_flush p :
  forall s o,
    openCalls (entries s) = Some o ->
    openCalls (entries (fold_left (flushOne I noOptions) p s))
    = Some (fold_left (fun o e => remove string_dec (fst e) o) p o).
Proof.
  induction p as [|e r IH]; intros s o Ho; cbn [fold_left]; [exact Ho|].
  apply IH. rewrite flushOne_noOptions. cbn [entries originalAppend].
  rewrite openCalls_snoc, Ho. cbn [stepPaired].
  rewrite placeholder_role, placeholder_id. reflexivity.
Qed.

Lemma remove_all (p : list (string * option string)) :
  forall o, incl o (map fst p) ->
            fold_left (fun o e => remove string_dec (fst e) o) p o = [].
Proof.
  induction p as [|e r IH]; intros o Hincl; cbn [fold_left].
  - destruct o as [|x o']; [reflexivity|]. destruct (Hincl x (or_introl eq_refl)).
  - apply IH. intros x Hx. apply in_remove in Hx. destruct Hx as [Hx Hne].
    destruct (Hincl x Hx) as [He|Hr]; [congruence | exact Hr].
Qed.

(** The invariant of the guarded session: the transcript is paired, and the
    calls still open in it are pending. *)
Definition tracked (s : Session) : Prop :=
  exists o, openCalls (entries s) = Some o /\ incl o (getPendingIds s).

(** After a flush no call is open. *)
Lemma flush_closes s :
  tracked s ->
  openCalls (entries (flushPendingToolResults I noOptions s)) = Some [] /\
  pending (flushPendingToolResults I noOptions s) = [].
Proof.
  intros (o & Ho & Hincl). split; [|apply pending_flush].
  unfold flushPendingToolResults, getPendingIds in *.
  destruct (pending s) as [|e r] eqn:Ep.
  - destruct o as [|x o']; [exact Ho|]. destruct (Hincl x (or_introl eq_refl)).
  - cbn [allowSynthetic noOptions allowSyntheticToolResults orElse setPending entries].
    rewrite (openCalls_flush (e :: r) s o Ho). f_equal. apply remove_all. exact Hincl.
Qed.

Lemma tracked_closed s :
  openCalls (entries s) = Some [] -> tracked s.
Proof. intros Ho. exists []. split; [exact Ho | intros x []]. Qed.

Lemma before_write_closed s (toolCalls : list (string * option string)) nextRole :
  tracked s ->
  let s1 :=
    (let s' :=
       if nonEmpty (pending s)
          && (negb (nonEmpty toolCalls) || negb (role_eqb nextRole assistant))
       then flushPendingToolResults I noOptions s else s in
     if nonEmpty (pending s') && nonEmpty toolCalls
     then flushPendingToolResults I noOptions s' else s') in
  openCalls (entries s1) = Some [] /\ pending s1 = [].
Proof.
  intros Ht. cbv zeta. destruct (pending s) as [|e r] eqn:Ep; cbn [nonEmpty andb].
  - rewrite Ep. cbn [nonEmpty andb]. split; [|exact Ep].
    destruct Ht as (o & Ho & Hincl). unfold getPendingIds in Hincl.
    rewrite Ep in Hincl. destruct o as [|x o']; [exact Ho|].
    destruct (Hincl x (or_introl eq_refl)).
  - destruct (nonEmpty toolCalls); cbn [negb orb];
      [destruct (negb (role_eqb nextRole assistant))|];
      rewrite ?pending_flush, ?Ep; cbn [nonEmpty andb];
      apply flush_closes; exact Ht.
Qed.

(** Every append through the guard keeps the invariant. *)
Lemma guardedAppend_tracked msg s :
  tracked s -> tracked (guardedAppend I noOptions msg s).
Proof.
  intros Ht. unfold guardedAppend.
  destruct (match role msg with
            | assistant => sanitizeToolCallInputs I msg
            | _ => Some msg
            end) as [next|].
  - destruct (role next) eqn:Er.
    + (* an assistant message *)
      cbn [allowSynthetic noOptions allowSyntheticToolResults orElse].
      destruct (before_write_closed s (extractToolCallsFromAssistant I next)
                  assistant Ht) as [Ho Hp].
      cbv zeta in Ho, Hp |- *.
      match type of Hp with pending ?x = [] => set (s1 := x) in * end.
      cbn [applyBeforeWriteHook persistMessage noOptions beforeMessageWriteHook
           transformMessageForPersistence].
      exists (callIds next). split.
      * assert (E : forall s', entries (setPending
                       (fold_left (fun p call => mapSet (fst call) (snd call) p)
                          (extractToolCallsFromAssistant I next) (pending s')) s')
                     = entries s') by reflexivity.
        rewrite E. destruct (truthyOpt _); cbn [entries emitSessionTranscriptUpdate
          originalAppend]; rewrite openCalls_snoc, Ho; cbn [stepPaired];
          rewrite Er; reflexivity.
      * unfold getPendingIds, callIds. rewrite Er. cbn [pending setPending].
        intros x Hx. apply keys_set_all. left. exact Hx.
    + (* a tool result *)
      destruct Ht as (o & Ho & Hincl).
      unfold applyBeforeWriteHook, persistToolResult, persistMessage.
      cbn [noOptions beforeMessageWriteHook transformToolResultForPersistence
           transformMessageForPersistence].
      set (id := extractToolResultId I next).
      set (persisted := annotateRecoverableToolErrors _ _ _).
      assert (Hsame : sameButContent next persisted).
      { eapply sameButContent_trans;
          [apply capToolResultSize_shape | apply annotate_shape]. }
      exists (match id with Some i => remove string_dec i o | None => o end).
      split.
      * assert (E : forall s', entries s' = entries s ->
                  openCalls (entries (originalAppend persisted s'))
                  = Some (match id with Some i => remove string_dec i o | None => o end)).
        { intros s' Es. cbn [entries originalAppend]. rewrite Es, openCalls_snoc, Ho.
          cbn [stepPaired]. rewrite (sameButContent_role _ _ Hsame), Er.
          rewrite (sameButContent_id _ _ Hsame). reflexivity. }
        destruct (truthyOpt id); apply E; reflexivity.
      * unfold getPendingIds in *. destruct id as [i|]; cbn [truthyOpt orElse].
        -- destruct (truthy i); cbn [pending originalAppend setPending];
             intros x Hx; apply in_remove in Hx; destruct Hx as [Hx Hne].
           ++ apply keys_mapDelete. split; [exact Hne | apply Hincl; exact Hx].
           ++ apply Hincl. exact Hx.
        -- exact Hincl.
    + (* any other message *)
      cbn [allowSynthetic noOptions allowSyntheticToolResults orElse].
      destruct (before_write_closed s [] otherRole Ht) as [Ho Hp].
      cbv zeta in Ho, Hp |- *.
      match type of Hp with pending ?x = [] => set (s1 := x) in * end.
      cbn [applyBeforeWriteHook persistMessage noOptions beforeMessageWriteHook
           transformMessageForPersistence fold_left].
      exists []. split; [|intros x []].
      destruct (truthyOpt _); cbn [entries emitSessionTranscriptUpdate
        originalAppend setPending]; rewrite openCalls_snoc, Ho; cbn [stepPaired];
        rewrite Er; unfold callIds; rewrite Er; reflexivity.
  - (* the sanitizer has dropped the message *)
    destruct (allowSynthetic noOptions && nonEmpty (pending s)); [|exact Ht].
    apply tracked_closed. apply flush_closes. exact Ht.
Qed.

Lemma appendAll_tracked msgs :
  forall s, tracked s -> tracked (appendAll I noOptions msgs s).
Proof.
  induction msgs as [|m r IH]; intros s Ht; [exact Ht|].
  cbn [appendAll fold_left]. apply IH. apply guardedAppend_tracked. exact Ht.
Qed.

End Lawful.

(** C1, with synthetic results allowed (the default).  Written without
    transforms and hook, the transcript is paired at every moment - each tool
    call has its result, the real one or the placeholder of a flush, before
    the next message that is not a tool result - and the calls still open are
    pending; a flush closes them all.  With any transforms and hook, after
    the append of a message that is not a tool result, the pending map holds
    only ids of that message's own tool calls. *)
Theorem C1_tool_calls_answered_before_next_message :
  (forall id name, role (makeMissingToolResult I id name) = toolResult) ->
  (forall id name, extractToolResultId I (makeMissingToolResult I id name) = Some id) ->
  (forall m c, extractToolResultId I (withContent c m) = extractToolResultId I m) ->
  (forall msgs file,
     exists o,
       openCalls (entries (appendAll I noOptions msgs (newSession file))) = Some o /\
       incl o (getPendingIds (appendAll I noOptions msgs (newSession file)))) /\
  (forall msgs file,
     openCalls (entries (flushPendingToolResults I noOptions
                           (appendAll I noOptions msgs (newSession file)))) = Some []) /\
  (forall opts msg s,
     allowSynthetic opts = true ->
     match incoming msg with
     | None => pending (guardedAppend I opts msg s) = []
     | Some next =>
         role next <> toolResult ->
         incl (getPendingIds (guardedAppend I opts msg s)) (callIds next)
     end).
Proof.
  intros Hrole Hid Hcontent.
  assert (Hall : forall msgs file, tracked (appendAll I noOptions msgs (newSession file))).
  { intros msgs file. apply appendAll_tracked; try assumption.
    exists []. split; [reflexivity | intros x []]. }
  split; [exact Hall|]. split.
  - intros msgs file. apply flush_closes; [assumption..|apply Hall].
  - intros opts msg s. apply pending_after_append.
Qed.

End PairingFacts.

Section PairingScenarios.
Import Guard.

(** An assistant message with two tool calls, the result of the first, and a
    user message. *)
Definition askTwo : AgentMessage :=
  {| role := assistant;
     content := Some [TextBlock (units "reading"); ToolCallBlock "call_1" (Some "read");
                      ToolCallBlock "call_2" (Some "exec")];
     toolCallId := None; toolName := None; isError := false |}.

Definition resultOne : AgentMessage :=
  {| role := toolResult; content := Some [TextBlock (units "ok")];
     toolCallId := Some "call_1"; toolName := Some "read"; isError := false |}.

Definition userHello : AgentMessage :=
  {| role := otherRole; content := None; toolCallId := None; toolName := None;
     isError := false |}.

Lemma C1_witness :
  paired (specImports 400000)
    (entries (appendAll (specImports 400000) noOptions [askTwo; resultOne; userHello]
                (newSession None))) /\
  entries (appendAll (specImports 400000) noOptions [askTwo; resultOne; userHello]
             (newSession None))
  = [askTwo; resultOne;
     makeMissingToolResult (specImports 400000) "call_2" (Some "exec"); userHello].
Proof.
  split.
  - destruct (C1_tool_calls_answered_before_next_message (specImports 400000)
                (fun _ _ => eq_refl) (fun _ _ => eq_refl) (fun _ _ => eq_refl))
      as (Hpaired & _).
    destruct (Hpaired [askTwo; resultOne; userHello] None) as (o & Ho & _).
    exists o. exact Ho.
  - vm_compute. reflexivity.
Defined.

(** The guard installed with [allowSyntheticToolResults: false], and the
    guard whose hook blocks every tool result. *)
Definition withoutSynthetic : Options :=
  {| transformMessageForPersistence := None;
     transformToolResultForPersistence := None;
     allowSyntheticToolResults := Some false;
     beforeMessageWriteHook := None |}.

Definition blockingResults : Options :=
  {| transformMessageForPersistence := None;
     transformToolResultForPersistence := None;
     allowSyntheticToolResults := None;
     beforeMessageWriteHook := Some (fun m =>
       match role m with
       | toolResult => Some {| block := true; message := None |}
       | _ => None
       end) |}.

(** Without synthetic results nothing is flushed: the user message is written
    right after the assistant message, whose two calls stay pending.  With
    the blocking hook the placeholders are made and dropped. *)
Lemma C1_counterexample :
  entries (appendAll (specImports 400000) withoutSynthetic [askTwo; userHello]
             (newSession None)) = [askTwo; userHello] /\
  getPendingIds (appendAll (specImports 400000) withoutSynthetic [askTwo; userHello]
                   (newSession None)) = ["call_1"; "call_2"] /\
  callIds (specImports 400000) userHello = [] /\
  openCalls (specImports 400000)
    (entries (appendAll (specImports 400000) withoutSynthetic [askTwo; userHello]
                (newSession None))) = None /\
  entries (appendAll (specImports 400000) blockingResults [askTwo; userHello]
             (newSession None)) = [askTwo; userHello].
Proof. vm_compute. repeat split; reflexivity. Qed.

End PairingScenarios.

(* ------------------------------------------------------------------ *)
(** * Further properties of the modelled code *)

(** ** The in-flight store as a keyed collection *)

Section StoreRoundTrips.
Import InFlight.

(** [clampOriginalText]: the text kept is the first [maxChars] code units of
    the text given, it is flagged exactly when something was cut off, and
    clamping it again changes nothing. *)
Theorem clampOriginalText_prefix_and_flag text maxChars :
  fst (clampOriginalText text maxChars) = firstn maxChars text /\
  (List.length (fst (clampOriginalText text maxChars)) <= maxChars)%nat /\
  (snd (clampOriginalText text maxChars) = true <-> (maxChars < List.length text)%nat) /\
  clampOriginalText (fst (clampOriginalText text maxChars)) maxChars
  = (fst (clampOriginalText text maxChars), false).
Proof.
  unfold clampOriginalText.
  destruct (List.length text <=? maxChars)%nat eqn:E; cbn [fst snd].
  - apply Nat.leb_le in E. rewrite firstn_all2 by exact E.
    repeat split; try lia; try discriminate.
    apply Nat.leb_le in E. rewrite E. reflexivity.
  - apply Nat.leb_gt in E. rewrite length_firstn.
    repeat split; try lia; try reflexivity.
    assert (E2 : (Nat.min maxChars (List.length text) <=? maxChars)%nat = true)
      by (apply Nat.leb_le; lia).
    rewrite E2. reflexivity.
Qed.

Lemma length_upsertList x l :
  List.length (upsertList x l)
  = if existsb (hasId (id x)) l then List.length l else S (List.length l).
Proof.
  induction l as [|y r IH]; cbn; [reflexivity|].
  destruct (hasId (id x) y); cbn; [reflexivity|]. rewrite IH.
  destruct (existsb (hasId (id x)) r); reflexivity.
Qed.

Lemma ids_upsertList x l :
  map id (upsertList x l)
  = if existsb (hasId (id x)) l then map id l else map id l ++ [id x].
Proof.
  induction l as [|y r IH]; cbn; [reflexivity|].
  destruct (hasId (id x) y) eqn:E; cbn.
  - apply hasId_true in E. rewrite E. reflexivity.
  - rewrite IH. destruct (existsb (hasId (id x)) r); reflexivity.
Qed.

(** [upsertTask] then [find]: the task written is the one found under its id,
    every other id finds what it found before, the list grows by one only for
    an id that was not there, and the ids stay in their order, so that ids
    that were unique stay unique. *)
Theorem upsertTask_lookup store task :
  findTask (id task) (upsertTask store task) = Some task /\
  (forall tid, tid <> id task ->
     findTask tid (upsertTask store task) = findTask tid store) /\
  List.length (tasks (upsertTask store task))
  = (if existsb (hasId (id task)) (tasks store)
     then List.length (tasks store) else S (List.length (tasks store))) /\
  (NoDup (map id (tasks store)) -> NoDup (map id (tasks (upsertTask store task)))) /\
  lastInterruptibleByChatId (upsertTask store task) = lastInterruptibleByChatId store.
Proof.
  split; [apply findTask_upsert_same|].
  split; [intros tid Hne; unfold findTask; rewrite tasks_upsertTask;
          apply find_upsertList_other; exact Hne|].
  rewrite tasks_upsertTask. split; [apply length_upsertList|].
  split; [|reflexivity].
  intros Hnd. rewrite ids_upsertList.
  destruct (existsb (hasId (id task)) (tasks store)) eqn:E; [exact Hnd|].
  apply NoDup_app; [exact Hnd | constructor; [intros [] | constructor] |].
  intros tid Hin [<-|[]].
  apply in_map_iff in Hin. destruct Hin as (u & Hu & Hin).
  assert (Hex : existsb (hasId (id task)) (tasks store) = true).
  { apply existsb_exists. exists u. split; [exact Hin | apply hasId_true; exact Hu]. }
  congruence.
Qed.

Lemma find_filter_other {A} (p q : A -> bool) l :
  (forall x, p x = true -> q x = true) ->
  find p (filter q l) = find p l.
Proof.
  intros Hpq. induction l as [|y r IH]; cbn; [reflexivity|].
  destruct (q y) eqn:Eq; cbn.
  - destruct (p y); [reflexivity | exact IH].
  - destruct (p y) eqn:Ep; [rewrite (Hpq y Ep) in Eq; discriminate | exact IH].
Qed.

Lemma findTask_removed store taskId : findTask taskId (removeTask store taskId) = None.
Proof.
  unfold findTask, removeTask. cbn [tasks].
  induction (tasks store) as [|y r IH]; cbn; [reflexivity|].
  destruct (hasId taskId y) eqn:E; cbn; [exact IH|]. rewrite E. exact IH.
Qed.

(** [removeTask]: nothing is found under the removed id afterwards, even if
    several tasks had it; every other id finds what it found before; removing
    twice is removing once; and a task that was just written is removed as if
    it had never been written. *)
Theorem removeTask_lookup store taskId :
  findTask taskId (removeTask store taskId) = None /\
  (forall tid, tid <> taskId ->
     findTask tid (removeTask store taskId) = findTask tid store) /\
  removeTask (removeTask store taskId) taskId = removeTask store taskId /\
  (forall task, id task = taskId ->
     removeTask (upsertTask store task) taskId = removeTask store taskId).
Proof.
  split; [|split; [|split]].
  - apply findTask_removed.
  - intros tid Hne. unfold findTask, removeTask. cbn [tasks].
    apply find_filter_other. intros x Hx. apply hasId_true in Hx.
    apply negb_true_iff. apply hasId_false. congruence.
  - unfold removeTask. cbn [tasks lastInterruptibleByChatId]. f_equal.
    induction (tasks store) as [|y r IH]; cbn; [reflexivity|].
    destruct (hasId taskId y) eqn:E; cbn; [exact IH|]. rewrite E. cbn.
    rewrite IH. reflexivity.
  - intros task <-. unfold removeTask. rewrite tasks_upsertTask.
    cbn [lastInterruptibleByChatId upsertTask]. f_equal.
    assert (Hx : hasId (id task) task = true) by (apply hasId_true; reflexivity).
    induction (tasks store) as [|y r IH]; cbn; [rewrite Hx; reflexivity|].
    destruct (hasId (id task) y) eqn:E; cbn.
    + rewrite Hx. reflexivity.
    + rewrite E. cbn. rewrite IH. reflexivity.
Qed.

Lemma recordGet_set_same k v obj : recordGet k (recordSet k v obj) = Some v.
Proof.
  induction obj as [|[k' v'] r IH]; cbn.
  - rewrite String.eqb_refl. reflexivity.
  - destruct (k' =? k)%string eqn:E; cbn.
    + rewrite String.eqb_refl. reflexivity.
    + rewrite E. exact IH.
Qed.

Lemma recordGet_set_other k k2 v obj :
  k2 <> k -> recordGet k2 (recordSet k v obj) = recordGet k2 obj.
Proof.
  intros Hne. induction obj as [|[k' v'] r IH]; cbn.
  - apply String.eqb_neq in Hne. rewrite String.eqb_sym, Hne. reflexivity.
  - destruct (k' =? k)%string eqn:E; cbn.
    + apply String.eqb_eq in E. subst k'.
      assert (E2 : (k =? k2)%string = false) by (apply String.eqb_neq; congruence).
      rewrite E2. reflexivity.
    + destruct (k' =? k2)%string; [reflexivity | exact IH].
Qed.

(** The pointer to the last interruptible task of a chat: after
    [setLastInterruptible] the chat answers with the task of that id, if the
    store holds one and the id is not empty; other chats answer as before;
    and once the task is removed the chat answers nothing, although the
    pointer is still stored. *)
Theorem lastInterruptible_lookup store chat taskId :
  getLastInterruptibleTask (setLastInterruptible store chat taskId) chat
  = (if truthy taskId then findTask taskId store else None) /\
  (forall chat2, chat2 <> chat ->
     getLastInterruptibleTask (setLastInterruptible store chat taskId) chat2
     = getLastInterruptibleTask store chat2) /\
  getLastInterruptibleTask (removeTask (setLastInterruptible store chat taskId) taskId)
    chat = None /\
  lastInterruptibleByChatId (removeTask (setLastInterruptible store chat taskId) taskId)
  = lastInterruptibleByChatId (setLastInterruptible store chat taskId).
Proof.
  split; [|split; [|split]].
  - unfold getLastInterruptibleTask, setLastInterruptible.
    cbn [lastInterruptibleByChatId]. rewrite recordGet_set_same. reflexivity.
  - intros chat2 Hne. unfold getLastInterruptibleTask, setLastInterruptible.
    cbn [lastInterruptibleByChatId]. rewrite recordGet_set_other by exact Hne.
    destruct (lastInterruptibleByChatId store) as [obj|]; reflexivity.
  - unfold getLastInterruptibleTask.
    cbn [lastInterruptibleByChatId removeTask setLastInterruptible].
    rewrite recordGet_set_same. destruct (truthy taskId); [|reflexivity].
    apply findTask_removed.
  - reflexivity.
Qed.

End StoreRoundTrips.

(** ** Failures of the provider while a status reaction is replaced *)

Section ReactionFailures.
Import StatusReaction InFlight.

(** The events of either copy after an add that returned [rid]. *)
Lemma replaceStatus_events c P a e prev rid (w : World) :
  addReactionFeishu P a e = Some rid ->
  replaceStatus c P a e prev w =
    (eventsOf (replaceStatus c P a e prev w), w,
     Ret {| emojiType := e; reactionId := rid |}) /\
  exists rem,
    eventsOf (replaceStatus c P a e prev w) = AddReaction a e :: rem /\
    (rem = [] \/
     (option_map reactionId prev = Some (prevId prev) /\
      (c = Guarded -> prevId prev <> rid) /\
      (rem = [RemoveReaction a (prevId prev)] \/
       rem = [RemoveReaction a (prevId prev);
              Log "failed to remove previous status reaction"]))).
Proof.
  intros Ha.
  assert (Hprev : truthyOpt (option_map reactionId prev) = true ->
                  option_map reactionId prev = Some (prevId prev)).
  { unfold prevId. destruct prev as [p|]; [reflexivity | discriminate]. }
  destruct c; cbn [replaceStatus];
    [rewrite replaceStatusReaction_run | rewrite replaceStatusReaction_unguarded_run];
    rewrite Ha; unfold eventsOf; cbn [fst snd]; (split; [reflexivity|]);
    eexists; (split; [reflexivity|]).
  - destruct (truthyOpt (option_map reactionId prev)) eqn:Et; cbn [andb];
      [|left; reflexivity].
    destruct (prevId prev =? rid)%string eqn:Eid; cbn [negb]; [left; reflexivity|].
    apply String.eqb_neq in Eid. right. split; [apply Hprev; reflexivity|].
    split; [intros _; exact Eid|].
    destruct (removeReactionFeishu P a (prevId prev)); [left | right]; reflexivity.
  - destruct (truthyOpt (option_map reactionId prev)) eqn:Et; [|left; reflexivity].
    right. split; [apply Hprev; reflexivity|]. split; [discriminate|].
    destruct (removeReactionFeishu P a (prevId prev)); [left | right]; reflexivity.
Qed.

(** Both copies of [replaceStatusReaction]: when the add is rejected the
    exception goes to the caller and nothing else was called; when the add
    returns, the operation returns the new emoji with the returned id
    whether or not the removal succeeds, at most one removal is attempted, it
    is for the id of the previous reaction, and the copy with the comparison
    never asks to remove the id it returns. *)
Theorem replaceStatus_provider_failures c P a e prev (w : World) :
  (addReactionFeishu P a e = None ->
   replaceStatus c P a e prev w = ([AddReaction a e], w, Throw)) /\
  (forall rid,
     addReactionFeishu P a e = Some rid ->
     resultOf (replaceStatus c P a e prev w)
     = Ret {| emojiType := e; reactionId := rid |} /\
     worldOf (replaceStatus c P a e prev w) = w /\
     (List.length (filter isRemove (eventsOf (replaceStatus c P a e prev w))) <= 1)%nat /\
     (forall m r, In (RemoveReaction m r) (eventsOf (replaceStatus c P a e prev w)) ->
        m = a /\ option_map reactionId prev = Some r) /\
     (c = Guarded ->
      ~ In (RemoveReaction a rid) (eventsOf (replaceStatus c P a e prev w)))).
Proof.
  split.
  - intros Ha. destruct c; cbn [replaceStatus];
      [rewrite replaceStatusReaction_run | rewrite replaceStatusReaction_unguarded_run];
      rewrite Ha; reflexivity.
  - intros rid Ha.
    destruct (replaceStatus_events c P a e prev rid w Ha) as (Erun & rem & Eev & Hrem).
    split; [rewrite Erun; reflexivity|]. split; [rewrite Erun; reflexivity|].
    rewrite Eev.
    destruct Hrem as [->|(Hp & Hne & [->| ->])]; cbn [filter isRemove List.length In].
    + split; [lia|]. split.
      * intros m r [H|[]]. discriminate H.
      * intros _ [H|[]]. discriminate H.
    + split; [lia|]. split.
      * intros m r [H|[H|[]]]; [discriminate H|]. injection H as <- <-.
        split; [reflexivity | exact Hp].
      * intros Hc [H|[H|[]]]; [discriminate H|]. injection H as H.
        exact (Hne Hc H).
    + split; [lia|]. split.
      * intros m r [H|[H|[H|[]]]]; [discriminate H| |discriminate H].
        injection H as <- <-. split; [reflexivity | exact Hp].
      * intros Hc [H|[H|[H|[]]]]; [discriminate H| |discriminate H].
        injection H as H. exact (Hne Hc H).
Qed.

End ReactionFailures.

(** ** The in-memory map of delivered message ids *)

Section DedupMapFacts.
Import Inbound.

Lemma hasKey_false_In k m : hasKey k m = false <-> ~ In k (map fst m).
Proof.
  unfold hasKey. induction m as [|[k' t] r IH]; cbn; [tauto|].
  destruct (k' =? k)%string eqn:E; cbn.
  - apply String.eqb_eq in E. subst k'. split; [discriminate | intros H; elim H; auto].
  - apply String.eqb_neq in E. rewrite IH. tauto.
Qed.

Lemma keys_filter_incl (p : string * Z -> bool) m k :
  In k (map fst (filter p m)) -> In k (map fst m).
Proof.
  intros H. apply in_map_iff in H. destruct H as (e & He & Hin).
  apply filter_In in Hin. apply in_map_iff. exists e. tauto.
Qed.

Lemma NoDup_keys_filter (p : string * Z -> bool) m :
  NoDup (map fst m) -> NoDup (map fst (filter p m)).
Proof.
  induction m as [|e r IH]; cbn; [auto|]. intros Hnd. inversion Hnd as [|? ? Hn Hr]; subst.
  destruct (p e); cbn; [|apply IH; exact Hr].
  constructor; [|apply IH; exact Hr]. intros Hin. apply Hn.
  eapply keys_filter_incl. exact Hin.
Qed.

Lemma sweep_facts now m last :
  (List.length (fst (sweep now m last)) <= List.length m)%nat /\
  (NoDup (map fst m) -> NoDup (map fst (fst (sweep now m last)))) /\
  (forall k, In k (map fst (fst (sweep now m last))) -> In k (map fst m)).
Proof.
  unfold sweep. destruct (DEDUP_CLEANUP_INTERVAL_MS <? now - last); cbn [fst].
  - split; [apply filter_length_le|]. split; [apply NoDup_keys_filter|].
    intros k. apply keys_filter_incl.
  - auto.
Qed.

(** [tryRecordMessage] keeps the map a map of at most [DEDUP_MAX_SIZE]
    entries: whatever it answers, the id is in the map afterwards, a map
    within the bound stays within it, keys that were unique stay unique, and
    nothing but the map and the time of the last cleanup changes. *)
Theorem tryRecordMessage_keeps_map_bounded mid w :
  hasKey mid (processedMessageIds (worldOf (tryRecordMessage mid w))) = true /\
  ((List.length (processedMessageIds w) <= DEDUP_MAX_SIZE)%nat ->
   (List.length (processedMessageIds (worldOf (tryRecordMessage mid w)))
    <= DEDUP_MAX_SIZE)%nat) /\
  (NoDup (map fst (processedMessageIds w)) ->
   NoDup (map fst (processedMessageIds (worldOf (tryRecordMessage mid w))))) /\
  eventsOf (tryRecordMessage mid w) = [] /\
  files (worldOf (tryRecordMessage mid w)) = files w.
Proof.
  rewrite tryRecordMessage_run. unfold worldOf, eventsOf. cbn [fst snd].
  split; [|split; [|split; [|split; [reflexivity | apply recorded_files]]]].
  - unfold recorded, record.
    destruct (sweep _ _ _) as [m1 last1].
    destruct (hasKey mid m1) eqn:E; cbn [fst snd processedMessageIds].
    + exact E.
    + rewrite hasKey_app. cbn. rewrite String.eqb_refl. cbn. apply orb_true_r.
  - intros Hlen. unfold recorded, record.
    pose proof (sweep_facts (clock w (tick w)) (processedMessageIds w)
                  (lastCleanupTime w)) as (Hl & _).
    destruct (sweep _ _ _) as [m1 last1]. cbn [fst] in Hl.
    destruct (hasKey mid m1); cbn [fst snd processedMessageIds]; [lia|].
    rewrite length_app. cbn [List.length].
    destruct (DEDUP_MAX_SIZE <=? List.length m1)%nat eqn:E.
    + apply Nat.leb_le in E. destruct m1; cbn in *; lia.
    + apply Nat.leb_gt in E. lia.
  - intros Hnd. unfold recorded, record.
    pose proof (sweep_facts (clock w (tick w)) (processedMessageIds w)
                  (lastCleanupTime w)) as (_ & Hn & _).
    specialize (Hn Hnd).
    destruct (sweep _ _ _) as [m1 last1]. cbn [fst] in Hn.
    destruct (hasKey mid m1) eqn:E; cbn [fst snd processedMessageIds]; [exact Hn|].
    apply hasKey_false_In in E. rewrite map_app. cbn [map fst].
    assert (Hsub : forall k, In k (map fst (if (DEDUP_MAX_SIZE <=? List.length m1)%nat
                                            then tl m1 else m1)) -> In k (map fst m1)).
    { intros k. destruct (_ <=? _)%nat; [|auto]. destruct m1; cbn; auto. }
    apply NoDup_app.
    + destruct (_ <=? _)%nat; [|exact Hn]. destruct m1; cbn in *; [constructor|].
      inversion Hn; assumption.
    + constructor; [intros []|constructor].
    + intros k Hk [<-|[]]. apply E. apply Hsub. exact Hk.
Qed.

Lemma hasKey_filter_false (p : string * Z -> bool) k m :
  hasKey k m = false -> hasKey k (filter p m) = false.
Proof.
  intros H. apply hasKey_false_In. apply hasKey_false_In in H.
  intros Hin. apply H. eapply keys_filter_incl. exact Hin.
Qed.

Lemma hasKey_tl_false k (m : list (string * Z)) :
  hasKey k m = false -> hasKey k (tl m) = false.
Proof.
  destruct m as [|e r]; [auto|]. unfold hasKey. cbn.
  intros H. apply orb_false_iff in H. tauto.
Qed.

(** A redelivery after an id was taken in, with the map untouched in between:
    it is taken in again exactly when a cleanup is due at that moment (more
    than [DEDUP_CLEANUP_INTERVAL_MS] after the last one) and the id is older
    than [DEDUP_TTL_MS].  Until then it is refused, however old the id. *)
Theorem tryRecordMessage_redelivery mid w w2 :
  resultOf (tryRecordMessage mid w) = Ret true ->
  processedMessageIds w2 = processedMessageIds (worldOf (tryRecordMessage mid w)) ->
  lastCleanupTime w2 = lastCleanupTime (worldOf (tryRecordMessage mid w)) ->
  resultOf (tryRecordMessage mid w2)
  = Ret ((DEDUP_CLEANUP_INTERVAL_MS <? clock w2 (tick w2) - lastCleanupTime w2)
         && (DEDUP_TTL_MS <? clock w2 (tick w2) - clock w (tick w))).
Proof.
  rewrite !tryRecordMessage_run. unfold resultOf, worldOf. cbn [fst snd].
  intros Hfresh Hm Hl. injection Hfresh as Hfresh. f_equal.
  unfold recorded in Hfresh, Hm, Hl |- *. unfold record in Hfresh, Hm, Hl.
  destruct (sweep (clock w (tick w)) (processedMessageIds w) (lastCleanupTime w))
    as [m1 last1].
  destruct (hasKey mid m1) eqn:E; [discriminate Hfresh|].
  cbn [fst snd processedMessageIds lastCleanupTime] in Hm, Hl.
  set (m2 := if (DEDUP_MAX_SIZE <=? List.length m1)%nat then tl m1 else m1) in *.
  assert (E2 : hasKey mid m2 = false).
  { unfold m2. destruct (_ <=? _)%nat; [apply hasKey_tl_false|]; exact E. }
  unfold record, sweep. rewrite Hm, Hl.
  destruct (DEDUP_CLEANUP_INTERVAL_MS <? clock w2 (tick w2) - last1); cbn [andb].
  - rewrite filter_app, hasKey_app, (hasKey_filter_false _ _ _ E2). cbn [filter snd orb].
    destruct (DEDUP_TTL_MS <? clock w2 (tick w2) - clock w (tick w)); cbn [negb].
    + reflexivity.
    + cbn. rewrite String.eqb_refl. reflexivity.
  - rewrite hasKey_app, E2. cbn. rewrite String.eqb_refl. reflexivity.
Qed.

(** An empty map, read every 2000 seconds. *)
Definition slowWorld : World :=
  {| clock := fun n => 2000000 * Z.of_nat n; tick := 0; processedMessageIds := [];
     lastCleanupTime := 0; files := fun _ => {| lastProcessedSentAtMs := None;
                                                recentMessageIds := None;
                                                updatedAtMs := None |};
     stateDirOk := true; writable := true |}.

Lemma tryRecordMessage_redelivery_witness :
  resultOf (tryRecordMessage "om_1" slowWorld) = Ret true /\
  resultOf (tryRecordMessage "om_1" (worldOf (tryRecordMessage "om_1" slowWorld)))
  = Ret true.
Proof.
  split; [reflexivity|].
  rewrite (tryRecordMessage_redelivery "om_1" slowWorld
             (worldOf (tryRecordMessage "om_1" slowWorld)) eq_refl eq_refl eq_refl).
  reflexivity.
Defined.

End DedupMapFacts.

(** ** The state files written by the inbound gate *)

Section GateStateFacts.
Import Inbound.

Lemma sliceLast_pushed {A} (n : nat) (l : list A) (x : A) :
  (1 <= n)%nat ->
  sliceLast n (l ++ [x]) = skipn (List.length l + 1 - n) l ++ [x] /\
  (List.length (sliceLast n (l ++ [x])) <= n)%nat.
Proof.
  intros Hn. unfold sliceLast. rewrite skipn_app, length_app. cbn [List.length].
  replace (List.length l + 1 - n - List.length l)%nat with O by lia.
  cbn [skipn]. split; [reflexivity|].
  rewrite length_app, length_skipn. cbn [List.length]. lia.
Qed.

(** The watermark of a chat does not move back. *)
Definition watermarkNotBack (old new : option Z) : Prop :=
  match old with
  | Some l => exists l', new = Some l' /\ l <= l'
  | None => True
  end.

(** A state written by the gate for the message [mid], over the state [old]:
    the ring is a tail of the old ring followed by [mid], within the limit,
    and the watermark has not moved back. *)
Definition writtenOver (limit : nat) (mid : string) (old new : FeishuInboundState)
    : Prop :=
  exists dropped kept,
    orElse (recentMessageIds old) [] = dropped ++ kept /\
    recentMessageIds new = Some (kept ++ [mid]) /\
    (List.length (kept ++ [mid]) <= limit)%nat /\
    watermarkNotBack (lastProcessedSentAtMs old) (lastProcessedSentAtMs new).

Lemma writtenOver_intro raw mid old last' now :
  watermarkNotBack (lastProcessedSentAtMs old) last' ->
  writtenOver (recentIdsLimit (resolveStaleDropConfig raw)) mid old
    {| lastProcessedSentAtMs := last';
       recentMessageIds :=
         Some (sliceLast (recentIdsLimit (resolveStaleDropConfig raw))
                 (orElse (recentMessageIds old) [] ++ [mid]));
       updatedAtMs := now |}.
Proof.
  intros Hw. set (l := orElse (recentMessageIds old) []).
  destruct (sliceLast_pushed (recentIdsLimit (resolveStaleDropConfig raw)) l mid
              (recentIdsLimit_pos raw)) as [E Hlen].
  exists (firstn (List.length l + 1 - recentIdsLimit (resolveStaleDropConfig raw)) l),
         (skipn (List.length l + 1 - recentIdsLimit (resolveStaleDropConfig raw)) l).
  cbn [recentMessageIds lastProcessedSentAtMs].
  split; [symmetry; apply firstn_skipn|].
  split; [rewrite E; reflexivity|]. split; [rewrite <- E; exact Hlen | exact Hw].
Qed.

(** The gate with the configuration as [resolveStaleDropConfig] gives it: it
    never throws; it touches the state file of no other chat; the file of the
    chat is left as it was or is written with a ring within the limit that
    ends with this message and a watermark that has not moved back; and when
    stale-drop is disabled or the state directory cannot be resolved, the
    message is let through and no file changes. *)
Theorem persistentGate_state_files raw P fmt ctx w :
  (exists g, resultOf (persistentGate (resolveStaleDropConfig raw) P fmt ctx w) = Ret g) /\
  (forall c, c <> chatId ctx ->
     files (worldOf (persistentGate (resolveStaleDropConfig raw) P fmt ctx w)) c
     = files w c) /\
  (files (worldOf (persistentGate (resolveStaleDropConfig raw) P fmt ctx w)) (chatId ctx)
   = files w (chatId ctx) \/
   writtenOver (recentIdsLimit (resolveStaleDropConfig raw)) (messageId ctx)
     (files w (chatId ctx))
     (files (worldOf (persistentGate (resolveStaleDropConfig raw) P fmt ctx w))
        (chatId ctx))) /\
  (enabled (resolveStaleDropConfig raw) = false \/ stateDirOk w = false ->
   resultOf (persistentGate (resolveStaleDropConfig raw) P fmt ctx w) = Ret LetThrough /\
   forall c, files (worldOf (persistentGate (resolveStaleDropConfig raw) P fmt ctx w)) c
             = files w c).
Proof.
  set (cfg := resolveStaleDropConfig raw).
  assert (Hneq : forall c, c <> chatId ctx -> (c =? chatId ctx)%string = false)
    by (intros c Hc; apply String.eqb_neq; exact Hc).
  unfold persistentGate, tryCatch, bind, resolveStateDir, readFeishuInboundState,
    writeFeishuInboundState, toISOString, callSend, dateNow, emit, ret, throw,
    resultOf, worldOf.
  destruct (enabled cfg) eqn:Een; cbn [negb fst snd].
  2: { split; [eexists; reflexivity|]. split; [reflexivity|]. split; [left; reflexivity|].
       intros _. split; reflexivity. }
  destruct (stateDirOk w) eqn:Edir; cbn [fst snd].
  2: { split; [eexists; reflexivity|]. split; [reflexivity|]. split; [left; reflexivity|].
       intros _. split; reflexivity. }
  set (old := files w (chatId ctx)).
  assert (Hlast : forall s,
            watermarkNotBack (lastProcessedSentAtMs old)
              (Some (Z.max (orElse (lastProcessedSentAtMs old) 0) s))).
  { intros s. unfold watermarkNotBack. destruct (lastProcessedSentAtMs old) as [l|]; [|exact Logic.I].
    eexists. split; [reflexivity|]. cbn [orElse]. lia. }
  assert (Hsame : watermarkNotBack (lastProcessedSentAtMs old) (lastProcessedSentAtMs old)).
  { unfold watermarkNotBack. destruct (lastProcessedSentAtMs old) as [l|]; [|exact Logic.I].
    eexists. split; [reflexivity | lia]. }
  destruct (existsb (String.eqb (messageId ctx)) (orElse (recentMessageIds old) []));
    cbn [fst snd].
  { split; [eexists; reflexivity|]. split; [reflexivity|]. split; [left; reflexivity|].
    intros [H|H]; discriminate H. }
  repeat match goal with
         | |- context [if ?b then _ else _] => destruct b eqn:?; cbn [fst snd files]
         | |- context [match ?x with Some _ => _ | None => _ end] =>
             destruct x eqn:?; cbn [fst snd files]
         end;
    (split; [eexists; reflexivity|]);
    (split; [intros c Hc; try rewrite (Hneq c Hc); reflexivity|]);
    (split; [|intros [H|H]; discriminate H]);
    try (left; reflexivity);
    right; try rewrite String.eqb_refl; apply writtenOver_intro;
    try exact Hsame; try apply Hlast.
Qed.

End GateStateFacts.

(** ** Reading the send time of an event *)

Section CreateTimeFacts.
Import Inbound.

(** The value of a run of decimal digits read after [acc]. *)
Fixpoint digitsOf (acc : Z) (d : Decimal.uint) : Z :=
  match d with
  | Decimal.Nil => acc
  | Decimal.D0 r => digitsOf (10 * acc) r
  | Decimal.D1 r => digitsOf (10 * acc + 1) r
  | Decimal.D2 r => digitsOf (10 * acc + 2) r
  | Decimal.D3 r => digitsOf (10 * acc + 3) r
  | Decimal.D4 r => digitsOf (10 * acc + 4) r
  | Decimal.D5 r => digitsOf (10 * acc + 5) r
  | Decimal.D6 r => digitsOf (10 * acc + 6) r
  | Decimal.D7 r => digitsOf (10 * acc + 7) r
  | Decimal.D8 r => digitsOf (10 * acc + 8) r
  | Decimal.D9 r => digitsOf (10 * acc + 9) r
  end.

Lemma digitsOf_acc d :
  forall acc, Z.pos (Pos.of_uint_acc d acc) = digitsOf (Z.pos acc) d.
Proof.
  induction d; intros acc; cbn [Pos.of_uint_acc digitsOf]; try reflexivity;
    rewrite IHd; f_equal; lia.
Qed.

Lemma digitsOf_of_uint d : digitsOf 0 d = Z.of_N (Pos.of_uint d).
Proof.
  induction d; cbn [Pos.of_uint digitsOf Z.of_N]; try reflexivity;
    try (rewrite digitsOf_acc; reflexivity).
  exact IHd.
Qed.

Lemma digitOf_digit :
  digitOf "0" = Some 0 /\ digitOf "1" = Some 1 /\ digitOf "2" = Some 2 /\
  digitOf "3" = Some 3 /\ digitOf "4" = Some 4 /\ digitOf "5" = Some 5 /\
  digitOf "6" = Some 6 /\ digitOf "7" = Some 7 /\ digitOf "8" = Some 8 /\
  digitOf "9" = Some 9.
Proof. vm_compute. repeat split; reflexivity. Qed.

Ltac read_digit :=
  destruct digitOf_digit as (D0 & D1 & D2 & D3 & D4 & D5 & D6 & D7 & D8 & D9);
  cbn [NilEmpty.string_of_uint list_ascii_of_string digitsValue];
  first [rewrite D0 | rewrite D1 | rewrite D2 | rewrite D3 | rewrite D4
        | rewrite D5 | rewrite D6 | rewrite D7 | rewrite D8 | rewrite D9].

Lemma digitsValue_digits d :
  forall acc,
    digitsValue acc true (list_ascii_of_string (NilEmpty.string_of_uint d))
    = Some (digitsOf acc d).
Proof.
  induction d; intros acc; [reflexivity|..]; read_digit; rewrite IHd;
    cbn [digitsOf]; rewrite ?Z.add_0_r; reflexivity.
Qed.

Lemma parseInt10_of_uint d :
  d <> Decimal.Nil ->
  digitsValue 0 false (list_ascii_of_string (NilEmpty.string_of_uint d))
  = Some (digitsOf 0 d).
Proof.
  intros Hd. destruct d; [congruence|..]; read_digit; rewrite digitsValue_digits;
    reflexivity.
Qed.

Lemma string_of_uint_nonnil d :
  d <> Decimal.Nil -> NilZero.string_of_uint d = NilEmpty.string_of_uint d.
Proof. destruct d; [congruence | reflexivity..]. Qed.

Lemma mathInt_digits d :
  d <> Decimal.Nil -> mathInt (NilEmpty.string_of_uint d) = Some (digitsOf 0 d).
Proof.
  intros Hd. rewrite <- (parseInt10_of_uint d Hd).
  destruct d; [congruence|..]; unfold mathInt;
    cbn [NilEmpty.string_of_uint list_ascii_of_string dropSpaces];
    match goal with |- context [isSpace ?c] => change (isSpace c) with false end;
    cbv beta iota; reflexivity.
Qed.

Lemma mathInt_minus s :
  mathInt (String "-" s)
  = option_map Z.opp (digitsValue 0 false (list_ascii_of_string s)).
Proof.
  unfold mathInt. cbn [list_ascii_of_string dropSpaces].
  change (isSpace "-") with false. cbv beta iota. reflexivity.
Qed.

(** [mathInt] reads back the decimal rendering of an integer. *)
Lemma mathInt_decimal n : mathInt (NilZero.string_of_int (Z.to_int n)) = Some n.
Proof.
  destruct n as [|p|p]; [reflexivity|..]; cbn [Z.to_int NilZero.string_of_int];
    pose proof (DecimalPos.Unsigned.to_uint_nonnil p) as Hnil;
    (assert (Hv : digitsOf 0 (Pos.to_uint p) = Z.pos p)
       by (rewrite digitsOf_of_uint, DecimalPos.Unsigned.of_to; reflexivity));
    rewrite (string_of_uint_nonnil _ Hnil).
  - rewrite (mathInt_digits _ Hnil), Hv. reflexivity.
  - rewrite mathInt_minus, (parseInt10_of_uint _ Hnil), Hv. reflexivity.
Qed.

(** Up to 2^53 in absolute value an integer is its own Number value. *)
Lemma nearestDouble_exact a : 0 <= a <= 2 ^ 53 -> nearestDouble a = a.
Proof.
  intros Ha. unfold nearestDouble.
  destruct (Z.eq_dec a (2 ^ 53)) as [->|Hne]; [vm_compute; reflexivity|].
  assert (Hlog : Z.log2 a - 52 <= 0).
  { destruct (Z.eq_dec a 0) as [->|Hz]; [vm_compute; discriminate|].
    assert (Z.log2 a < 53) by (apply Z.log2_lt_pow2; lia). lia. }
  apply Z.leb_le in Hlog. rewrite Hlog. reflexivity.
Qed.

Lemma numberOfInt_exact n : Z.abs n <= 2 ^ 53 -> numberOfInt n = Num n.
Proof.
  intros Hn. unfold numberOfInt. cbv zeta.
  rewrite nearestDouble_exact by lia.
  assert (Hsmall : (2 ^ 1024 <=? Z.abs n) = false).
  { apply Z.leb_gt. apply Z.le_lt_trans with (2 ^ 53); [exact Hn|].
    apply Z.pow_lt_mono_r; lia. }
  rewrite Hsmall. destruct (n <? 0) eqn:E; f_equal.
  - apply Z.ltb_lt in E. lia.
  - apply Z.ltb_ge in E. lia.
Qed.

Lemma decimal_nonempty n : truthy (NilZero.string_of_int (Z.to_int n)) = true.
Proof.
  destruct n as [|p|p]; [reflexivity| |reflexivity].
  cbn [Z.to_int NilZero.string_of_int].
  pose proof (DecimalPos.Unsigned.to_uint_nonnil p) as Hnil.
  rewrite (string_of_uint_nonnil _ Hnil).
  destruct (Pos.to_uint p); [congruence | reflexivity..].
Qed.

(** An event whose [create_time] is the decimal rendering of an integer that
    a double holds exactly has that integer as [createTimeMs], and its other
    fields are those of the event. *)
Theorem parseFeishuMessageEvent_create_time event n :
  Z.abs n <= 2 ^ 53 ->
  create_time event = Some (NilZero.string_of_int (Z.to_int n)) ->
  createTimeMs (parseFeishuMessageEvent event) = Some n /\
  messageId (parseFeishuMessageEvent event) = message_id event /\
  chatId (parseFeishuMessageEvent event) = chat_id event.
Proof.
  intros Hn Hc. unfold parseFeishuMessageEvent. cbn [createTimeMs messageId chatId].
  rewrite Hc, decimal_nonempty. unfold parseInt10.
  rewrite mathInt_decimal, (numberOfInt_exact n Hn). auto.
Qed.

Lemma parseFeishuMessageEvent_create_time_witness :
  createTimeMs
    (parseFeishuMessageEvent
       {| message_id := "om_test"; chat_id := "oc_test"; chat_type_group := false;
          sender_open_id := "ou_test"; create_time := Some "1609073151345" |})
  = Some 1609073151345.
Proof.
  apply (parseFeishuMessageEvent_create_time
           {| message_id := "om_test"; chat_id := "oc_test"; chat_type_group := false;
              sender_open_id := "ou_test"; create_time := Some "1609073151345" |}
           1609073151345).
  - vm_compute. discriminate.
  - reflexivity.
Defined.

End CreateTimeFacts.

(** ** Which messages ask to continue *)

Section ContinueFacts.
Import JsText BotText.
Local Open Scope N_scope.

Ltac to_props :=
  repeat match goal with
         | H : (_ || _)%bool = true |- _ => apply orb_true_iff in H; destruct H as [H|H]
         | H : (_ && _)%bool = true |- _ => apply andb_true_iff in H; destruct H as [? ?]
         | H : (_ <=? _) = true |- _ => apply N.leb_le in H
         | H : (_ =? _) = true |- _ => apply N.eqb_eq in H
         end.

Lemma word_not_white c : isWord c = true -> isWhite c = false.
Proof.
  intros H. unfold isWord in H. to_props; unfold isWhite;
    repeat (apply orb_false_iff; split);
    try (apply N.eqb_neq; lia);
    apply andb_false_iff; (left; apply N.leb_gt; lia) || (right; apply N.leb_gt; lia).
Qed.

Lemma dropWhile_app_stop f a c r :
  f c = false -> dropWhile f (a ++ c :: r) = dropWhile f a ++ c :: r.
Proof.
  intros Hc. induction a as [|x a IH]; cbn [dropWhile app].
  - rewrite Hc. reflexivity.
  - destruct (f x); [exact IH | reflexivity].
Qed.

(** Trimming the end of a text leaves a start that ends in a character other
    than white space as it is. *)
Lemma trimEnd_after a c rest :
  isWhite c = false -> trimEnd ((a ++ [c]) ++ rest) = (a ++ [c]) ++ trimEnd rest.
Proof.
  intros Hc. unfold trimEnd. rewrite rev_app_distr, rev_app_distr. cbn [rev app].
  rewrite dropWhile_app_stop by exact Hc.
  rewrite rev_app_distr. cbn [rev app]. rewrite rev_involutive, <- app_assoc. reflexivity.
Qed.

Lemma trimEnd_head c r :
  isWhite c = false -> exists r', trimEnd (c :: r) = c :: r'.
Proof.
  intros Hc. exists (trimEnd r).
  exact (trimEnd_after [] c r Hc).
Qed.

Lemma trimEnd_cases rest :
  trimEnd rest = [] \/ exists c r r', rest = c :: r /\ trimEnd rest = c :: r'.
Proof.
  unfold trimEnd. destruct rest as [|c r]; [left; reflexivity|].
  destruct (dropWhile isWhite (rev (c :: r))) as [|x l] eqn:E; [left; reflexivity|].
  right. exists c, r.
  assert (Hsuf : forall t, exists pre, t = pre ++ dropWhile isWhite t).
  { induction t as [|y t IH]; [exists []; reflexivity|]. cbn.
    destruct (isWhite y); [|exists []; reflexivity].
    destruct IH as [pre Hp]. exists (y :: pre). cbn. rewrite <- Hp. reflexivity. }
  destruct (Hsuf (rev (c :: r))) as [pre Hp]. rewrite E in Hp.
  apply (f_equal (@rev N)) in Hp. rewrite rev_involutive, rev_app_distr in Hp.
  destruct (rev (x :: l)) as [|c' r'] eqn:Er.
  - apply (f_equal (@List.length N)) in Er. rewrite length_rev in Er. discriminate.
  - cbn [app] in Hp. injection Hp as <- _. exists r'. split; reflexivity.
Qed.

Lemma wordStarts_trimEnd rest : wordStarts (trimEnd rest) = wordStarts rest.
Proof.
  destruct rest as [|c r]; [reflexivity|]. cbn [wordStarts].
  destruct (isWord c) eqn:Ew.
  - destruct (trimEnd_head c r (word_not_white c Ew)) as [r' ->]. exact Ew.
  - destruct (trimEnd_cases (c :: r)) as [->|(c' & r1 & r' & E & ->)]; [reflexivity|].
    injection E as <- _. exact Ew.
Qed.

Lemma wordEnds_trimEnd rest : wordEnds (trimEnd rest) = wordEnds rest.
Proof.
  destruct rest as [|c r]; [reflexivity|]. cbn [wordEnds].
  destruct (isWord c) eqn:Ew.
  - destruct (trimEnd_head c r (word_not_white c Ew)) as [r' ->]. cbn. rewrite Ew.
    reflexivity.
  - destruct (trimEnd_cases (c :: r)) as [->|(c' & r1 & r' & E & ->)]; [reflexivity|].
    injection E as <- _. cbn. rewrite Ew. reflexivity.
Qed.

(** A message that starts with "继续" asks to continue exactly when an ASCII
    letter, digit or underscore follows directly: "继续" alone, or followed by
    a space, by punctuation or by Chinese text, does not. *)
Theorem isContinueMessage_zh rest :
  isContinueMessage ([32487; 32493] ++ rest) = wordStarts rest /\
  isContinueMessage [32487; 32493] = false.
Proof.
  split; [|reflexivity].
  unfold isContinueMessage, trimBoth.
  change (trimStart ([32487; 32493] ++ rest)) with (([32487] ++ [32493]) ++ rest).
  rewrite trimEnd_after by reflexivity.
  cbn [app]. unfold continueZh, continueEn, resumeEn.
  change (matchCI [32487; 32493] (32487 :: 32493 :: trimEnd rest))
    with (Some (trimEnd rest)).
  change (matchCI (units "continue") (32487 :: 32493 :: trimEnd rest)) with (@None jstext).
  change (matchCI (units "resume") (32487 :: 32493 :: trimEnd rest)) with (@None jstext).
  cbv beta iota. rewrite wordStarts_trimEnd. rewrite !orb_false_r. reflexivity.
Qed.

Lemma not_white_range c : 33 <= c <= 159 -> isWhite c = false.
Proof.
  intros H. unfold isWhite.
  repeat (apply orb_false_iff; split);
    try (apply N.eqb_neq; lia);
    apply andb_false_iff; (left; apply N.leb_gt; lia) || (right; apply N.leb_gt; lia).
Qed.

Lemma upper_capital c u : upper c = u -> 65 <= u <= 90 -> 65 <= c <= 122.
Proof.
  unfold upper. destruct ((97 <=? c) && (c <=? 122))%bool eqn:E; intros <- H.
  - apply andb_true_iff in E. destruct E as [E1 E2].
    apply N.leb_le in E1. apply N.leb_le in E2. lia.
  - lia.
Qed.

Lemma matchCI_same pat :
  forall kw r, map upper kw = map upper pat -> matchCI pat (kw ++ r) = Some r.
Proof.
  induction pat as [|p pat IH]; intros kw r H.
  - destruct kw; [reflexivity | discriminate H].
  - destruct kw as [|k kw]; [discriminate H|]. cbn [map] in H. injection H as Hk Hr.
    cbn [matchCI app]. unfold sameLetter. rewrite Hk, N.eqb_refl. apply IH. exact Hr.
Qed.

Lemma matchCI_other pat p kw k r :
  upper p <> upper k -> matchCI (p :: pat) ((k :: kw) ++ r) = None.
Proof.
  intros H. cbn [matchCI app]. unfold sameLetter.
  apply N.eqb_neq in H. rewrite H. reflexivity.
Qed.

(** A message that starts with "continue" or "resume", in any mix of upper
    and lower case, asks to continue exactly when the word ends there: at the
    end of the message, or before a character that is not an ASCII letter,
    digit or underscore. *)
Theorem isContinueMessage_keyword kw rest :
  map upper kw = map upper (units "continue") \/
  map upper kw = map upper (units "resume") ->
  isContinueMessage (kw ++ rest) = wordEnds rest.
Proof.
  intros H.
  assert (Hletters : Forall (fun c => 65 <= c <= 122) kw).
  { assert (Hu : Forall (fun u => 65 <= u <= 90) (map upper kw)).
    { destruct H as [-> | ->]; cbn; repeat constructor; lia. }
    clear H. induction kw as [|c kw IH]; [constructor|].
    cbn [map] in Hu. inversion Hu as [|? ? Hc Hr]; subst.
    constructor; [eapply upper_capital; [reflexivity | exact Hc] | apply IH; exact Hr]. }
  assert (Hlast : exists a c, kw = a ++ [c] /\ isWhite c = false).
  { destruct (exists_last (l := kw)) as (a & c & E).
    - destruct H as [H|H]; intros ->; discriminate H.
    - exists a, c. split; [exact E|]. subst kw. apply Forall_app in Hletters.
      destruct Hletters as [_ Hc]. inversion Hc; subst. apply not_white_range. lia. }
  destruct Hlast as (a & c & Ekw & Hc).
  destruct kw as [|k kw']; [destruct a; discriminate Ekw|].
  assert (Hk : isWhite k = false).
  { inversion Hletters; subst. apply not_white_range. lia. }
  unfold isContinueMessage, trimBoth, trimStart. cbn [app dropWhile]. rewrite Hk.
  change (k :: kw' ++ rest) with ((k :: kw') ++ rest). rewrite Ekw.
  rewrite trimEnd_after by exact Hc. rewrite <- Ekw.
  cbn [app]. change (k :: kw' ++ trimEnd rest) with ((k :: kw') ++ trimEnd rest).
  unfold continueZh, continueEn, resumeEn.
  destruct H as [H|H].
  - rewrite (matchCI_same (units "continue") _ _ H).
    assert (Hu : upper k = 67) by (cbn [map] in H; injection H as H _; exact H).
    change (units "resume") with (114 :: units "esume").
    rewrite !matchCI_other by (rewrite Hu; cbn; lia).
    cbn [orb]. rewrite orb_false_r. apply wordEnds_trimEnd.
  - rewrite (matchCI_same (units "resume") _ _ H).
    assert (Hu : upper k = 82) by (cbn [map] in H; injection H as H _; exact H).
    change (units "continue") with (99 :: units "ontinue").
    rewrite !matchCI_other by (rewrite Hu; cbn; lia).
    cbn [orb]. apply wordEnds_trimEnd.
Qed.

Lemma isContinueMessage_keyword_witness :
  isContinueMessage (units "Resume, please") = true /\
  isContinueMessage (units "continued") = false.
Proof.
  split.
  - exact (isContinueMessage_keyword (units "Resume") (units ", please")
             (or_intror eq_refl)).
  - exact (isContinueMessage_keyword (units "continue") (units "d")
             (or_introl eq_refl)).
Defined.

End ContinueFacts.

(** ** The hint added to recoverable tool errors *)

Section RecoveryFacts.
Import JsText Guard Recovery.

Lemma search_Some {A} (here : jstext -> option A) t a :
  search here t = Some a -> exists pre suf, t = pre ++ suf /\ here suf = Some a.
Proof.
  induction t as [|c r IH]; cbn [search].
  - destruct (here []) eqn:E; [|discriminate]. intros H. injection H as <-.
    exists [], []. split; [reflexivity | exact E].
  - destruct (here (c :: r)) eqn:E.
    + intros H. injection H as <-. exists [], (c :: r). split; [reflexivity | exact E].
    + intros H. destruct (IH H) as (pre & suf & -> & Hs).
      exists (c :: pre), suf. split; [reflexivity | exact Hs].
Qed.

Lemma takeWhile_all f t : forall c, In c (takeWhile f t) -> f c = true.
Proof.
  induction t as [|x r IH]; cbn [takeWhile]; [intros c []|].
  destruct (f x) eqn:E; [|intros c []].
  intros c [<-|H]; [exact E | apply IH; exact H].
Qed.

Lemma dropWhile_incl f t : forall c, In c (dropWhile f t) -> In c t.
Proof.
  induction t as [|x r IH]; cbn [dropWhile]; [auto|].
  destruct (f x); [|auto]. intros c H. right. apply IH. exact H.
Qed.

Lemma trimBoth_incl t : forall c, In c (trimBoth t) -> In c t.
Proof.
  intros c H. unfold trimBoth, trimEnd, trimStart in H.
  apply in_rev in H. apply dropWhile_incl in H. apply in_rev in H.
  apply dropWhile_incl in H. exact H.
Qed.

(** The path that the guard writes into its hint is cut at the first full
    stop after "Could not find the exact text in ": it never holds a full
    stop or a newline, so a file name loses its extension. *)
Theorem hintPath_stops_at_full_stop text p :
  hintPath text = Some p -> ~ In 46%N p /\ ~ In 10%N p.
Proof.
  unfold hintPath. destruct (search pathHere text) as [g|] eqn:E; [|discriminate].
  cbn [option_map]. intros H. injection H as <-.
  destruct (search_Some _ _ _ E) as (pre & suf & _ & Hs).
  unfold pathHere in Hs.
  destruct (matchCI _ suf) as [rest|]; [|discriminate].
  set (run := takeWhile (fun c => negb ((c =? 10) || (c =? 46))%N) rest) in *.
  assert (Hg : g = run).
  { destruct run as [|x r]; [discriminate|].
    destruct (skipn _ rest) as [|y r2]; [discriminate|].
    destruct y; try discriminate. repeat (destruct p; try discriminate).
    injection Hs as <-. reflexivity. }
  subst g.
  assert (Hrun : forall c, In c run -> c <> 10%N /\ c <> 46%N).
  { intros c Hc. apply takeWhile_all in Hc. apply negb_true_iff in Hc.
    apply orb_false_iff in Hc. destruct Hc as [H1 H2].
    apply N.eqb_neq in H1. apply N.eqb_neq in H2. split; assumption. }
  split; intros Hin; apply trimBoth_incl in Hin; destruct (Hrun _ Hin); congruence.
Qed.

Lemma hintPath_stops_witness :
  hintPath (units "Could not find the exact text in /tmp/example.md. The old text must match exactly.")
  = Some (units "/tmp/example") /\
  ~ In 46%N (units "/tmp/example").
Proof.
  assert (E : hintPath (units "Could not find the exact text in /tmp/example.md. The old text must match exactly.")
              = Some (units "/tmp/example")) by (vm_compute; reflexivity).
  split; [exact E|].
  exact (proj1 (hintPath_stops_at_full_stop _ _ E)).
Defined.

Lemma texts_snoc c h : texts (c ++ [TextBlock h]) = texts c ++ [h].
Proof.
  induction c as [|b r IH]; [reflexivity|].
  destruct b; cbn [app texts]; rewrite IH; reflexivity.
Qed.

Lemma joinLines_snoc l h : exists pre, joinLines (l ++ [h]) = pre ++ h.
Proof.
  induction l as [|x r IH]; [exists []; reflexivity|].
  destruct IH as [pre E]. cbn [app joinLines].
  destruct (r ++ [h]) as [|y r'] eqn:Er; [destruct r; discriminate Er|].
  exists (x ++ 10%N :: pre). rewrite E, <- app_assoc. reflexivity.
Qed.

(** The hint starts with the marker that the guard looks for. *)
Lemma renderEditHint_marker stringify meta text hint :
  renderEditHint stringify meta text = Some hint ->
  exists post, hint = RECOVERABLE_ERROR_HINT_PREFIX ++ post.
Proof.
  unfold renderEditHint. destruct (matchNotFound text); [|discriminate].
  intros H. injection H as <-. unfold hintLines.
  cbn [app filter]. change (nonEmptyText RECOVERABLE_ERROR_HINT_PREFIX) with true.
  change (nonEmptyText (units "kind: EDIT_EXACT_MATCH_NOT_FOUND")) with true.
  cbv iota. cbn [joinLines]. eexists. reflexivity.
Qed.

(** What [annotateRecoverableToolErrors] does with the hint as the guard
    renders it: the message is returned as it is, or one text block is added
    at its end. *)
Lemma annotate_cases stringify msg meta :
  annotateRecoverableToolErrors (renderEditHint stringify) msg meta = msg \/
  exists c post,
    content msg = Some c /\ role msg = toolResult /\ isError msg = true /\
    m_isSynthetic meta = false /\
    annotateRecoverableToolErrors (renderEditHint stringify) msg meta
    = withContent (c ++ [TextBlock (RECOVERABLE_ERROR_HINT_PREFIX ++ post)]) msg.
Proof.
  unfold annotateRecoverableToolErrors.
  destruct (m_isSynthetic meta) eqn:Es; [left; reflexivity|].
  destruct (role msg) eqn:Er; try (left; reflexivity).
  destruct (isError msg) eqn:Ee; cbn [negb]; [|left; reflexivity].
  destruct (includes _ _); [left; reflexivity|].
  destruct (_ =? _)%string; [|left; reflexivity].
  destruct (renderEditHint stringify meta _) as [hint|] eqn:Eh; [|left; reflexivity].
  destruct (renderEditHint_marker _ _ _ _ Eh) as [post ->].
  unfold appendToolResultHint. rewrite Er.
  destruct (content msg) as [c|] eqn:Ec; [|left; reflexivity].
  right. exists c, post. auto.
Qed.

(** The annotation is added once: what [annotateRecoverableToolErrors]
    returns is returned unchanged when it is annotated again; the block it
    adds starts with the marker; and synthetic results, results that are not
    errors and messages that are not tool results are never changed. *)
Theorem annotate_is_added_once stringify msg meta :
  annotateRecoverableToolErrors (renderEditHint stringify)
    (annotateRecoverableToolErrors (renderEditHint stringify) msg meta) meta
  = annotateRecoverableToolErrors (renderEditHint stringify) msg meta /\
  (annotateRecoverableToolErrors (renderEditHint stringify) msg meta = msg \/
   exists c hint,
     content msg = Some c /\
     startsWith RECOVERABLE_ERROR_HINT_PREFIX hint = true /\
     annotateRecoverableToolErrors (renderEditHint stringify) msg meta
     = withContent (c ++ [TextBlock hint]) msg) /\
  (m_isSynthetic meta = true \/ isError msg = false \/ role msg <> toolResult ->
   annotateRecoverableToolErrors (renderEditHint stringify) msg meta = msg).
Proof.
  destruct (annotate_cases stringify msg meta)
    as [E|(c & post & Hc & Hr & He & Hs & E)].
  - split; [rewrite !E; reflexivity|]. split; [left; exact E|]. intros _. exact E.
  - split; [|split].
    + rewrite E. unfold annotateRecoverableToolErrors at 1.
      rewrite Hs. cbn [role withContent isError]. rewrite Hr, He. cbn [negb].
      unfold getToolResultTextBlocks. cbn [role content withContent]. rewrite Hr.
      rewrite texts_snoc.
      destruct (joinLines_snoc (texts c) (RECOVERABLE_ERROR_HINT_PREFIX ++ post))
        as [pre ->].
      rewrite includes_app. reflexivity.
    + right. exists c, (RECOVERABLE_ERROR_HINT_PREFIX ++ post).
      split; [exact Hc|]. split; [apply startsWith_app | exact E].
    + intros [H|[H|H]]; congruence.
Qed.

Lemma snoc_neq {A} (l : list A) x : l ++ [x] <> l.
Proof.
  intros H. apply (f_equal (@List.length A)) in H. rewrite length_app in H.
  cbn in H. lia.
Qed.

(** The guard and [classifyRecoverableToolError] agree: a tool result that is
    an error, not synthetic and not annotated yet gets the hint exactly when
    the classifier, given the same tool name and the text of the result,
    finds a recoverable error. *)
Theorem annotate_agrees_with_classifier stringify msg meta c :
  role msg = toolResult -> isError msg = true -> m_isSynthetic meta = false ->
  content msg = Some c ->
  includes RECOVERABLE_ERROR_HINT_PREFIX (joinLines (texts c)) = false ->
  (annotateRecoverableToolErrors (renderEditHint stringify) msg meta <> msg <->
   classifyRecoverableToolError
     (Some {| l_toolName := Some (orElse (m_toolName meta) (orElse (toolName msg) ""));
              l_error := Some (joinLines (texts c)) |}) <> None).
Proof.
  intros Hr He Hs Hc Hinc.
  unfold annotateRecoverableToolErrors, classifyRecoverableToolError.
  rewrite Hs, Hr, He. cbn [negb l_toolName l_error orElse].
  unfold getToolResultTextBlocks. rewrite Hr, Hc, Hinc.
  destruct (_ =? "edit")%string; [|split; intros H; elim H; reflexivity].
  unfold renderEditHint. destruct (matchNotFound (joinLines (texts c))).
  - unfold appendToolResultHint. rewrite Hr, Hc. split; [discriminate|].
    intros _ H. apply (f_equal content) in H. cbn [content withContent] in H.
    rewrite Hc in H. injection H as H. exact (snoc_neq _ _ H).
  - split; intros H; elim H; reflexivity.
Qed.

(** The failed edit of the test suite. *)
Definition failedEdit : AgentMessage :=
  {| role := toolResult;
     content := Some [TextBlock (units "Edit failed: Could not find the exact text in /tmp/example.md. The old text must match exactly including all whitespace and newlines.")];
     toolCallId := Some "call_1"; toolName := Some "edit"; isError := true |}.

Lemma annotate_agrees_witness :
  includes RECOVERABLE_ERROR_HINT_PREFIX (joinLines (getToolResultTextBlocks failedEdit))
  = false /\
  annotateRecoverableToolErrors (renderEditHint (fun _ _ => units "{}")) failedEdit
    {| m_toolCallId := Some "call_1"; m_toolName := Some "edit";
       m_isSynthetic := false |}
  <> failedEdit.
Proof.
  split; [vm_compute; reflexivity|].
  apply (proj2 (annotate_agrees_with_classifier (fun _ _ => units "{}") failedEdit
                  {| m_toolCallId := Some "call_1"; m_toolName := Some "edit";
                     m_isSynthetic := false |} _ eq_refl eq_refl eq_refl eq_refl
                  ltac:(vm_compute; reflexivity))).
  vm_compute. discriminate.
Defined.

End RecoveryFacts.

(** ** Wrapping long tokens *)

Section SanitizeFacts.
Import JsText Sanitize.

Lemma concat_splitParts t :
  forall inWhite cur, List.concat (splitParts inWhite cur t) = rev cur ++ t.
Proof.
  induction t as [|c r IH]; intros inWhite cur; cbn [splitParts].
  - destruct inWhite; cbn; rewrite ?app_nil_r; reflexivity.
  - destruct (isWhite c), inWhite; cbn [List.concat]; rewrite IH; cbn [rev app];
      rewrite <- ?app_assoc; reflexivity.
Qed.

(** The parts of the split, put together, are the text. *)
Lemma concat_splitWhite text : List.concat (splitWhite text) = text.
Proof. unfold splitWhite. rewrite concat_splitParts. reflexivity. Qed.

(** [out] is [text] with newlines inserted. *)
Inductive withNewlines : jstext -> jstext -> Prop :=
| wn_nil : withNewlines [] []
| wn_keep c t o : withNewlines t o -> withNewlines (c :: t) (c :: o)
| wn_add t o : withNewlines t o -> withNewlines t (10%N :: o).

Lemma withNewlines_refl t : withNewlines t t.
Proof. induction t; constructor; assumption. Qed.

Lemma withNewlines_app a a' b b' :
  withNewlines a a' -> withNewlines b b' -> withNewlines (a ++ b) (a' ++ b').
Proof.
  intros Ha Hb. induction Ha; cbn [app]; [exact Hb | constructor; assumption..].
Qed.

Lemma length_skipn_lt {A} n (l : list A) :
  (1 <= n)%nat -> l <> [] -> (List.length (skipn n l) < List.length l)%nat.
Proof.
  intros Hn Hl. rewrite length_skipn. destruct l; [congruence|].
  cbn [List.length]. lia.
Qed.

Lemma wrapLoop_withNewlines n :
  (1 <= n)%nat ->
  forall fuel rest,
    (List.length rest <= fuel)%nat -> withNewlines rest (wrapLoop fuel n rest).
Proof.
  intros Hn. induction fuel as [|fuel IH]; intros rest Hlen.
  - destruct rest; [constructor | cbn in Hlen; lia].
  - cbn [wrapLoop]. destruct rest as [|c r] eqn:E; [constructor|]. rewrite <- E in *.
    assert (Hne : rest <> []) by (subst rest; discriminate).
    pose proof (length_skipn_lt n rest Hn Hne) as Hlt.
    rewrite <- (firstn_skipn n rest) at 1.
    apply withNewlines_app; [apply withNewlines_refl|].
    assert (Hrec : withNewlines (skipn n rest) (wrapLoop fuel n (skipn n rest)))
      by (apply IH; lia).
    destruct (skipn n rest); cbn [app]; [exact Hrec | constructor; exact Hrec].
Qed.

Lemma wrapPart_withNewlines limit wrapAt part out :
  wrapPart limit wrapAt part = Some out -> withNewlines part out.
Proof.
  unfold wrapPart. destruct part as [|c r] eqn:E.
  - intros H. injection H as <-. constructor.
  - rewrite <- E. destruct (existsb isWhite part);
      [intros H; injection H as <-; apply withNewlines_refl|].
    destruct (existsb (N.eqb 10) part);
      [intros H; injection H as <-; apply withNewlines_refl|].
    destruct (_ <=? limit); [intros H; injection H as <-; apply withNewlines_refl|].
    destruct (wrapAt <=? 0) eqn:Ew; [discriminate|].
    intros H. injection H as <-. apply Z.leb_gt in Ew.
    apply wrapLoop_withNewlines; lia.
Qed.

Lemma joinParts_withNewlines limit wrapAt parts :
  forall out,
    joinParts (map (wrapPart limit wrapAt) parts) = Some out ->
    withNewlines (List.concat parts) out.
Proof.
  induction parts as [|p r IH]; intros out; cbn [map joinParts List.concat].
  - intros H. injection H as <-. constructor.
  - destruct (wrapPart limit wrapAt p) as [p'|] eqn:Ep; [|discriminate].
    destruct (joinParts _) as [t|]; [|discriminate].
    intros H. injection H as <-.
    apply withNewlines_app; [eapply wrapPart_withNewlines; exact Ep | apply IH; reflexivity].
Qed.

Lemma joinParts_defined limit wrapAt parts :
  0 < wrapAt -> exists out, joinParts (map (wrapPart limit wrapAt) parts) = Some out.
Proof.
  intros Hw. induction parts as [|p r [t IH]]; cbn [map joinParts]; [eexists; reflexivity|].
  assert (Hp : exists p', wrapPart limit wrapAt p = Some p').
  { unfold wrapPart. destruct p; [eexists; reflexivity|].
    destruct (existsb isWhite _); [eexists; reflexivity|].
    destruct (existsb (N.eqb 10) _); [eexists; reflexivity|].
    destruct (_ <=? limit); [eexists; reflexivity|].
    assert (E : (wrapAt <=? 0) = false) by (apply Z.leb_gt; exact Hw).
    rewrite E. eexists. reflexivity. }
  destruct Hp as [p' ->]. rewrite IH. eexists. reflexivity.
Qed.

(** With a positive [wrapAt], [softWrapLongTokens] returns the text with
    newlines inserted and nothing else changed: no character is lost, moved
    or replaced. *)
Theorem softWrapLongTokens_only_inserts_newlines text tokenLimit wrapAt :
  0 < wrapAt ->
  exists out,
    softWrapLongTokens text tokenLimit wrapAt = Some out /\ withNewlines text out.
Proof.
  intros Hw. unfold softWrapLongTokens.
  destruct (joinParts_defined tokenLimit wrapAt (splitWhite text) Hw) as [out E].
  exists out. split; [exact E|].
  rewrite <- (concat_splitWhite text) at 1.
  eapply joinParts_withNewlines. exact E.
Qed.

Lemma softWrapLongTokens_inserts_witness :
  exists out,
    softWrapLongTokens (units "prefix " ++ repeat 97%N 260 ++ units " suffix") 200 120
    = Some out /\
    withNewlines (units "prefix " ++ repeat 97%N 260 ++ units " suffix") out.
Proof.
  apply (softWrapLongTokens_only_inserts_newlines
           (units "prefix " ++ repeat 97%N 260 ++ units " suffix") 200 120).
  reflexivity.
Defined.

(** The length of the run of characters other than white space being read,
    and of the longest run read before it. *)
Fixpoint scanRuns (cur best : nat) (t : jstext) : nat * nat :=
  match t with
  | [] => (cur, best)
  | c :: r =>
      if isWhite c then scanRuns 0 (Nat.max cur best) r else scanRuns (S cur) best r
  end.

Definition longest (s : nat * nat) : nat := Nat.max (fst s) (snd s).

(** The longest run of characters other than white space in [t]. *)
Definition longestRun (t : jstext) : nat := longest (scanRuns 0 0 t).

Definition noWhite (t : jstext) : Prop := Forall (fun c => isWhite c = false) t.
Definition allWhite (t : jstext) : Prop := Forall (fun c => isWhite c = true) t.

Lemma scanRuns_app a :
  forall cur best b,
    scanRuns cur best (a ++ b)
    = scanRuns (fst (scanRuns cur best a)) (snd (scanRuns cur best a)) b.
Proof.
  induction a as [|c r IH]; intros cur best b; cbn [app scanRuns fst snd]; [reflexivity|].
  destruct (isWhite c); apply IH.
Qed.

Lemma scanRuns_noWhite tok :
  noWhite tok -> forall cur best, scanRuns cur best tok = ((cur + List.length tok)%nat, best).
Proof.
  induction 1 as [|c r Hc Hr IH]; intros cur best; cbn [scanRuns List.length].
  - f_equal. lia.
  - rewrite Hc, IH. f_equal. lia.
Qed.

Lemma scanRuns_allWhite w :
  allWhite w -> w <> [] -> forall cur best, scanRuns cur best w = (O, Nat.max cur best).
Proof.
  induction 1 as [|c r Hc Hr IH]; intros Hne cur best; [congruence|].
  cbn [scanRuns]. rewrite Hc. destruct r as [|c' r'].
  - reflexivity.
  - rewrite IH by discriminate. f_equal.
Qed.

Lemma noWhite_existsb t : noWhite t <-> existsb isWhite t = false.
Proof.
  unfold noWhite. induction t as [|c r IH]; cbn [existsb].
  - split; [reflexivity | constructor].
  - rewrite orb_false_iff, <- IH. split.
    + intros H. inversion H; subst. tauto.
    + intros [H1 H2]. constructor; assumption.
Qed.

(** The parts of the split: tokens without white space, with a run of white
    space between two of them. *)
Inductive alternate : list jstext -> Prop :=
| alt_last tok : noWhite tok -> alternate [tok]
| alt_cons tok w ps :
    noWhite tok -> allWhite w -> w <> [] -> alternate ps -> alternate (tok :: w :: ps).

Lemma splitParts_alternate t :
  forall cur,
    (noWhite cur -> alternate (splitParts false cur t)) /\
    (allWhite cur -> cur <> [] ->
     exists w ps, splitParts true cur t = w :: ps /\ allWhite w /\ w <> [] /\ alternate ps).
Proof.
  assert (Hrev_ne : forall l : jstext, l <> [] -> rev l <> []).
  { intros l Hl E. apply Hl. rewrite <- (rev_involutive l), E. reflexivity. }
  induction t as [|c r IH]; intros cur; cbn [splitParts].
  - split.
    + intros H. constructor. apply Forall_rev. exact H.
    + intros H Hne. exists (rev cur), [[]]. repeat split.
      * apply Forall_rev. exact H.
      * apply Hrev_ne. exact Hne.
      * constructor. constructor.
  - destruct (isWhite c) eqn:Ec; split.
    + intros H. destruct (proj2 (IH [c])) as (w & ps & -> & Hw & Hne & Hps).
      * constructor; [exact Ec | constructor].
      * discriminate.
      * constructor; [apply Forall_rev; exact H | exact Hw | exact Hne | exact Hps].
    + intros H Hne. apply (proj2 (IH (c :: cur))); [|discriminate].
      constructor; [exact Ec | exact H].
    + intros H. apply (proj1 (IH (c :: cur))). constructor; [exact Ec | exact H].
    + intros H Hne. exists (rev cur), (splitParts false [c] r). repeat split.
      * apply Forall_rev. exact H.
      * apply Hrev_ne. exact Hne.
      * apply (proj1 (IH [c])). constructor; [exact Ec | constructor].
Qed.

Lemma wrapLoop_nil fuel n : wrapLoop fuel n [] = [].
Proof. destruct fuel; reflexivity. Qed.

Lemma noWhite_firstn n t : noWhite t -> noWhite (firstn n t).
Proof.
  intros H. unfold noWhite in *. rewrite Forall_forall in *.
  intros c Hc. apply H. eapply In_nth_error in Hc. destruct Hc as [i Hi].
  rewrite nth_error_firstn in Hi. destruct (i <? n)%nat; [|discriminate].
  eapply nth_error_In. exact Hi.
Qed.

Lemma noWhite_skipn n t : noWhite t -> noWhite (skipn n t).
Proof.
  intros H. unfold noWhite in *. rewrite Forall_forall in *.
  intros c Hc. apply H. rewrite <- (firstn_skipn n t). apply in_or_app. right. exact Hc.
Qed.

Lemma wrapLoop_runs n :
  (1 <= n)%nat ->
  forall fuel rest best,
    noWhite rest -> (List.length rest <= fuel)%nat ->
    (longest (scanRuns 0 best (wrapLoop fuel n rest)) <= Nat.max n best)%nat.
Proof.
  intros Hn. induction fuel as [|fuel IH]; intros rest best Hnw Hlen.
  - cbn. unfold longest. cbn. lia.
  - cbn [wrapLoop]. destruct rest as [|c r] eqn:E; [unfold longest; cbn; lia|].
    rewrite <- E in *. assert (Hne : rest <> []) by (subst rest; discriminate).
    pose proof (length_skipn_lt n rest Hn Hne) as Hlt.
    rewrite scanRuns_app, (scanRuns_noWhite _ (noWhite_firstn n rest Hnw)).
    cbn [fst snd]. pose proof (length_firstn n rest) as Hf.
    destruct (skipn n rest) as [|y l] eqn:Es.
    + rewrite wrapLoop_nil. cbn [app scanRuns]. unfold longest. cbn [fst snd]. lia.
    + cbn [app scanRuns]. change (isWhite 10) with true. cbv iota.
      assert (Hrec : noWhite (y :: l)) by (rewrite <- Es; apply noWhite_skipn; exact Hnw).
      specialize (IH (y :: l) (Nat.max (0 + List.length (firstn n rest)) best) Hrec
                    ltac:(lia)).
      lia.
Qed.

Lemma wrapPart_runs limit wrapAt tok tok' best :
  0 < wrapAt -> noWhite tok -> wrapPart limit wrapAt tok = Some tok' ->
  (longest (scanRuns 0 best tok')
   <= Nat.max (Nat.max (Z.to_nat limit) (Z.to_nat wrapAt)) best)%nat.
Proof.
  intros Hw Hnw. unfold wrapPart. destruct tok as [|c r] eqn:E.
  - intros H. injection H as <-. unfold longest. cbn. lia.
  - rewrite <- E in *. rewrite (proj1 (noWhite_existsb tok) Hnw).
    assert (Hkeep : (List.length tok <= Z.to_nat limit)%nat ->
              (longest (scanRuns 0 best tok)
               <= Nat.max (Nat.max (Z.to_nat limit) (Z.to_nat wrapAt)) best)%nat).
    { intros Hl. rewrite (scanRuns_noWhite tok Hnw). unfold longest. cbn [fst snd]. lia. }
    destruct (existsb (N.eqb 10) tok) eqn:Enl.
    { exfalso. apply existsb_exists in Enl. destruct Enl as (x & Hx & Ex).
      apply N.eqb_eq in Ex. subst x. unfold noWhite in Hnw. rewrite Forall_forall in Hnw.
      specialize (Hnw _ Hx). discriminate Hnw. }
    destruct (_ <=? limit) eqn:El.
    + intros H. injection H as <-. apply Hkeep. apply Z.leb_le in El. lia.
    + assert (Ew : (wrapAt <=? 0) = false) by (apply Z.leb_gt; exact Hw).
      rewrite Ew. intros H. injection H as <-.
      pose proof (wrapLoop_runs (Z.to_nat wrapAt) ltac:(lia) (List.length tok) tok best
                    Hnw ltac:(lia)). lia.
Qed.

Lemma wrapPart_white limit wrapAt w :
  allWhite w -> w <> [] -> wrapPart limit wrapAt w = Some w.
Proof.
  intros Hw Hne. unfold wrapPart. destruct w as [|c r]; [congruence|].
  inversion Hw; subst. cbn [existsb].
  match goal with H : isWhite c = true |- _ => rewrite H end. reflexivity.
Qed.

Lemma joinParts_runs limit wrapAt ps :
  0 < wrapAt -> alternate ps ->
  forall best out,
    joinParts (map (wrapPart limit wrapAt) ps) = Some out ->
    (longest (scanRuns 0 best out)
     <= Nat.max (Nat.max (Z.to_nat limit) (Z.to_nat wrapAt)) best)%nat.
Proof.
  intros Hw. induction 1 as [tok Htok | tok w ps Htok Hwh Hne Halt IH]; intros best out;
    cbn [map joinParts].
  - destruct (wrapPart limit wrapAt tok) as [tok'|] eqn:Et; [|discriminate].
    intros H. injection H as <-. rewrite app_nil_r.
    eapply wrapPart_runs; eassumption.
  - destruct (wrapPart limit wrapAt tok) as [tok'|] eqn:Et; [|discriminate].
    rewrite (wrapPart_white limit wrapAt w Hwh Hne).
    destruct (joinParts _) as [rest|] eqn:Er; [|discriminate].
    intros H. injection H as <-.
    rewrite scanRuns_app, scanRuns_app, (scanRuns_allWhite w Hwh Hne). cbn [fst snd].
    pose proof (wrapPart_runs limit wrapAt tok tok' best Hw Htok Et) as Hfirst.
    unfold longest in Hfirst.
    specialize (IH (Nat.max (fst (scanRuns 0 best tok')) (snd (scanRuns 0 best tok')))
                  rest eq_refl).
    lia.
Qed.

(** After [softWrapLongTokens], with a positive [wrapAt], no run of
    characters other than white space is longer than the larger of
    [tokenLimit] and [wrapAt]. *)
Theorem softWrapLongTokens_bounds_runs text tokenLimit wrapAt out :
  0 < wrapAt ->
  softWrapLongTokens text tokenLimit wrapAt = Some out ->
  (longestRun out <= Nat.max (Z.to_nat tokenLimit) (Z.to_nat wrapAt))%nat.
Proof.
  intros Hw H. unfold softWrapLongTokens in H. unfold longestRun.
  pose proof (joinParts_runs tokenLimit wrapAt (splitWhite text) Hw
                (proj1 (splitParts_alternate text []) (Forall_nil _)) 0%nat out H).
  lia.
Qed.

Lemma softWrapLongTokens_bounds_witness :
  softWrapLongTokens (units "prefix " ++ repeat 97%N 260 ++ units " suffix") 200 120
  = Some (units "prefix " ++ repeat 97%N 120 ++ [10%N] ++ repeat 97%N 120 ++ [10%N]
          ++ repeat 97%N 20 ++ units " suffix") /\
  (longestRun (units "prefix " ++ repeat 97%N 120 ++ [10%N] ++ repeat 97%N 120
               ++ [10%N] ++ repeat 97%N 20 ++ units " suffix") <= 200)%nat.
Proof.
  assert (E : softWrapLongTokens (units "prefix " ++ repeat 97%N 260 ++ units " suffix")
                200 120
              = Some (units "prefix " ++ repeat 97%N 120 ++ [10%N] ++ repeat 97%N 120
                      ++ [10%N] ++ repeat 97%N 20 ++ units " suffix"))
    by (vm_compute; reflexivity).
  split; [exact E|].
  exact (softWrapLongTokens_bounds_runs _ 200 120 _ eq_refl E).
Defined.

Lemma scanRuns_ge t :
  forall cur best, (Nat.max cur best <= longest (scanRuns cur best t))%nat.
Proof.
  induction t as [|c r IH]; intros cur best; cbn [scanRuns].
  - unfold longest. cbn [fst snd]. lia.
  - destruct (isWhite c).
    + specialize (IH 0%nat (Nat.max cur best)). lia.
    + specialize (IH (S cur) best). lia.
Qed.

Lemma wrapPart_short limit wrapAt tok :
  noWhite tok -> Z.of_nat (List.length tok) <= limit ->
  wrapPart limit wrapAt tok = Some tok.
Proof.
  intros Hnw Hl. unfold wrapPart. destruct tok as [|c r] eqn:E; [reflexivity|].
  rewrite <- E in *. rewrite (proj1 (noWhite_existsb tok) Hnw).
  destruct (existsb (N.eqb 10) tok); [reflexivity|].
  apply Z.leb_le in Hl. rewrite Hl. reflexivity.
Qed.

Lemma joinParts_unchanged limit wrapAt ps :
  alternate ps ->
  forall best,
    Z.of_nat (longest (scanRuns 0 best (List.concat ps))) <= limit ->
    joinParts (map (wrapPart limit wrapAt) ps) = Some (List.concat ps).
Proof.
  induction 1 as [tok Htok | tok w ps Htok Hwh Hne Halt IH]; intros best;
    cbn [map joinParts List.concat].
  - rewrite !app_nil_r, (scanRuns_noWhite tok Htok). unfold longest. cbn [fst snd].
    intros Hl. rewrite wrapPart_short by (assumption || lia).
    f_equal. apply app_nil_r.
  - rewrite scanRuns_app, scanRuns_app, (scanRuns_noWhite tok Htok),
      (scanRuns_allWhite w Hwh Hne). cbn [fst snd].
    intros Hl.
    pose proof (scanRuns_ge (List.concat ps) 0%nat
                  (Nat.max (0 + List.length tok) best)) as Hge.
    rewrite wrapPart_short by (assumption || lia).
    rewrite (wrapPart_white limit wrapAt w Hwh Hne).
    rewrite (IH _ Hl). reflexivity.
Qed.

Lemma softWrap_short text tokenLimit wrapAt :
  Z.of_nat (longestRun text) <= tokenLimit ->
  softWrapLongTokens text tokenLimit wrapAt = Some text.
Proof.
  intros Hl. unfold softWrapLongTokens.
  rewrite (joinParts_unchanged tokenLimit wrapAt (splitWhite text)
             (proj1 (splitParts_alternate text []) (Forall_nil _)) 0%nat).
  - rewrite concat_splitWhite. reflexivity.
  - rewrite concat_splitWhite. exact Hl.
Qed.

(** [softWrapLongTokens] returns the text itself when no run of characters
    other than white space is longer than [tokenLimit], whatever [wrapAt]
    is: the loop that would not end for a [wrapAt] of 0 is not entered. *)
Theorem softWrapLongTokens_short_tokens_unchanged text tokenLimit wrapAt :
  Z.of_nat (longestRun text) <= tokenLimit ->
  softWrapLongTokens text tokenLimit wrapAt = Some text.
Proof.
  intros Hl. unfold softWrapLongTokens.
  pose proof (splitParts_alternate text []) as [Halt _].
  specialize (Halt (Forall_nil _)).
  pose proof (joinParts_unchanged tokenLimit wrapAt (splitWhite text) Halt 0%nat) as Hj.
  rewrite concat_splitWhite in Hj. apply Hj. exact Hl.
Qed.

Lemma softWrapLongTokens_short_witness :
  Z.of_nat (longestRun (units "hello world")) <= 200 /\
  softWrapLongTokens (units "hello world") 200 0 = Some (units "hello world").
Proof.
  split; [vm_compute; discriminate|].
  apply (softWrapLongTokens_short_tokens_unchanged (units "hello world") 200 0).
  vm_compute. discriminate.
Defined.

Lemma existsb_snd_formatLine pretty prefix lines :
  existsb snd (map (formatLine pretty prefix) lines) = true ->
  exists line before rest p tl,
    In line lines /\ breakAt prefix line = Some (before, rest) /\
    trimStart rest = 123%N :: tl /\ pretty (trimStart rest) = Some p.
Proof.
  induction lines as [|l r IH]; cbn [map existsb]; [discriminate|].
  intros H. apply orb_true_iff in H. destruct H as [H|H].
  - unfold formatLine in H.
    destruct (breakAt prefix l) as [[before rest]|] eqn:Eb; [|discriminate].
    cbv zeta in H. destruct (trimStart rest) as [|c tl] eqn:Et; [discriminate|].
    destruct (N.eq_dec c 123) as [->|Hc].
    + destruct (pretty (123%N :: tl)) as [p|] eqn:Ep; [|discriminate].
      exists l, before, rest, p, tl. rewrite Et. repeat split; try assumption.
      left. reflexivity.
    + exfalso. revert H. clear -Hc.
      destruct c as [|q]; [discriminate|].
      do 7 (destruct q as [q|q|]; try discriminate). congruence.
  - destruct (IH H) as (line & before & rest & p & tl & Hin & Hrest).
    exists line, before, rest, p, tl. split; [right; exact Hin | exact Hrest].
Qed.

(** [formatInlineJsonAfterPrefix] changes the text only when one of its
    lines holds the prefix followed, after optional white space, by text
    that starts with an opening brace and parses as JSON. *)
Theorem formatInlineJsonAfterPrefix_changes_only_json pretty text prefix :
  formatInlineJsonAfterPrefix pretty text prefix <> text ->
  exists line before rest p tl,
    In line (splitLines [] text) /\ breakAt prefix line = Some (before, rest) /\
    trimStart rest = 123%N :: tl /\ pretty (trimStart rest) = Some p.
Proof.
  unfold formatInlineJsonAfterPrefix. intros H.
  destruct (breakAt prefix text); [|congruence]. cbv zeta in H.
  destruct (existsb snd _) eqn:E; [|congruence].
  apply existsb_snd_formatLine in E. exact E.
Qed.

Lemma formatInlineJsonAfterPrefix_changes_witness :
  exists line before rest p tl,
    In line (splitLines [] (units "fetched quoted message: {}")) /\
    breakAt (units "fetched quoted message:") line = Some (before, rest) /\
    trimStart rest = 123%N :: tl /\
    (fun _ : jstext => Some (units "{}")) (trimStart rest) = Some p.
Proof.
  apply (formatInlineJsonAfterPrefix_changes_only_json
           (fun _ => Some (units "{}")) (units "fetched quoted message: {}")
           (units "fetched quoted message:")).
  vm_compute. discriminate.
Defined.

(** [sanitizeForFeishu] returns a text unchanged when it does not hold
    "fetched quoted message:" and has no run of more than 200 characters
    other than white space. *)
Theorem sanitizeForFeishu_plain_text_unchanged pretty text :
  breakAt (units "fetched quoted message:") text = None ->
  Z.of_nat (longestRun text) <= 200 ->
  sanitizeForFeishu pretty text = Some text.
Proof.
  intros Hp Hl. unfold sanitizeForFeishu, formatInlineJsonAfterPrefix.
  rewrite Hp. apply softWrap_short. exact Hl.
Qed.

Lemma sanitizeForFeishu_plain_witness :
  sanitizeForFeishu (fun _ => None)
    (units "hello world" ++ [10%N] ++ units "- a" ++ [10%N] ++ units "- b")
  = Some (units "hello world" ++ [10%N] ++ units "- a" ++ [10%N] ++ units "- b") /\
  longestRun (units "hello world" ++ [10%N] ++ units "- a" ++ [10%N] ++ units "- b")
  = 5%nat.
Proof.
  split; [|reflexivity].
  apply (sanitizeForFeishu_plain_text_unchanged (fun _ => None)
           (units "hello world" ++ [10%N] ++ units "- a" ++ [10%N] ++ units "- b")).
  - reflexivity.
  - vm_compute. discriminate.
Defined.

End SanitizeFacts.

(** ** The guard's writes (session-tool-result-guard.ts) *)

Section GuardFacts.
Import Guard.
Variable I : Imports.

(** [s'] has the entries of [s] and at most [n] more, after them. *)
Definition growsBy (n : nat) (s s' : Session) : Prop :=
  exists added,
    entries s' = entries s ++ added /\ (List.length added <= n)%nat.

Lemma growsBy_refl n s : growsBy n s s.
Proof. exists []. rewrite app_nil_r. split; [reflexivity | cbn; lia]. Qed.

Lemma growsBy_same n s s' : entries s' = entries s -> growsBy n s s'.
Proof. intros H. exists []. rewrite app_nil_r. split; [exact H | cbn; lia]. Qed.

Lemma growsBy_trans n m a b c :
  growsBy n a b -> growsBy m b c -> growsBy (n + m) a c.
Proof.
  intros (x & Hx & Lx) (y & Hy & Ly). exists (x ++ y).
  rewrite Hy, Hx, app_assoc, length_app. split; [reflexivity | lia].
Qed.

Lemma growsBy_le n m a b : (n <= m)%nat -> growsBy n a b -> growsBy m a b.
Proof. intros Hle (x & Hx & Lx). exists x. split; [exact Hx | lia]. Qed.

Lemma growsBy_append m s : growsBy 1 s (originalAppend m s).
Proof. exists [m]. split; [reflexivity | cbn; lia]. Qed.

Lemma growsBy_setPending n p a b : growsBy n a b -> growsBy n a (setPending p b).
Proof. intros H. exact H. Qed.

Section WithOptions.
Variable opts : Options.

Lemma flushOne_facts s e :
  growsBy 1 s (flushOne I opts s e) /\
  pending (flushOne I opts s e) = pending s /\
  updates (flushOne I opts s e) = updates s /\
  sessionFile (flushOne I opts s e) = sessionFile s.
Proof.
  unfold flushOne. cbv zeta. destruct (applyBeforeWriteHook _ _).
  - repeat split. apply growsBy_append.
  - repeat split. apply growsBy_same; reflexivity.
Qed.

Lemma fold_flushOne_facts l :
  forall s,
    growsBy (List.length l) s (fold_left (flushOne I opts) l s) /\
    pending (fold_left (flushOne I opts) l s) = pending s /\
    updates (fold_left (flushOne I opts) l s) = updates s /\
    sessionFile (fold_left (flushOne I opts) l s) = sessionFile s.
Proof.
  induction l as [|e r IH]; intros s; cbn [fold_left List.length].
  - repeat split. apply growsBy_same; reflexivity.
  - destruct (flushOne_facts s e) as (H1 & H2 & H3 & H4).
    destruct (IH (flushOne I opts s e)) as (K1 & K2 & K3 & K4).
    repeat split; try congruence.
    change (S (List.length r)) with (1 + List.length r)%nat.
    eapply growsBy_trans; eassumption.
Qed.

Lemma flush_facts s :
  growsBy (List.length (pending s)) s (flushPendingToolResults I opts s) /\
  (allowSynthetic opts = false -> growsBy 0 s (flushPendingToolResults I opts s)) /\
  pending (flushPendingToolResults I opts s) = [] /\
  updates (flushPendingToolResults I opts s) = updates s /\
  sessionFile (flushPendingToolResults I opts s) = sessionFile s.
Proof.
  unfold flushPendingToolResults. destruct (pending s) as [|e r] eqn:E.
  - repeat split; try assumption. apply growsBy_same; reflexivity. intros _. apply growsBy_same; reflexivity.
  - destruct (fold_flushOne_facts (e :: r) s) as (H1 & H2 & H3 & H4).
    destruct (allowSynthetic opts); cbn [setPending entries pending updates sessionFile].
    + repeat split; try assumption. discriminate.
    + repeat split.
      * apply growsBy_same; reflexivity.
      * intros _. apply growsBy_same; reflexivity.
Qed.

(** What the part of [guardedAppend] before the write of a message that is
    not a tool result does to the session. *)
Lemma flushes_facts (calls : list (string * option string)) (isAssistant : bool) s :
  let s' := if nonEmpty (pending s) && (negb (nonEmpty calls) || negb isAssistant)
            then flushPendingToolResults I opts s else s in
  let s1 := if nonEmpty (pending s') && nonEmpty calls
            then flushPendingToolResults I opts s' else s' in
  growsBy (List.length (pending s)) s s1 /\
  (allowSynthetic opts = false -> growsBy 0 s s1) /\
  updates s1 = updates s /\ sessionFile s1 = sessionFile s.
Proof.
  cbv zeta. destruct (flush_facts s) as (F1 & F0 & F2 & F3 & F4).
  destruct (nonEmpty (pending s) && _) eqn:E1.
  - rewrite F2. cbn [nonEmpty andb]. repeat split; assumption.
  - destruct (nonEmpty (pending s) && nonEmpty calls).
    + repeat split; assumption.
    + repeat split. apply growsBy_same; reflexivity. intros _. apply growsBy_same; reflexivity.
Qed.

(** An append through the guard keeps the entries already written and adds
    after them at most one placeholder for each pending call and one entry
    for the message; with [allowSyntheticToolResults] false, and for a tool
    result, it adds at most one entry. *)
Theorem guardedAppend_appends_only msg s :
  growsBy (S (List.length (pending s))) s (guardedAppend I opts msg s) /\
  (allowSyntheticToolResults opts = Some false ->
   growsBy 1 s (guardedAppend I opts msg s)) /\
  (role msg = toolResult -> growsBy 1 s (guardedAppend I opts msg s)).
Proof.
  assert (Hmain :
    growsBy (S (List.length (pending s))) s (guardedAppend I opts msg s) /\
    (allowSynthetic opts = false -> growsBy 1 s (guardedAppend I opts msg s)) /\
    (role msg = toolResult -> growsBy 1 s (guardedAppend I opts msg s))).
  { unfold guardedAppend. cbv zeta.
    destruct (flush_facts s) as (F1 & F0 & F2 & F3 & F4).
    assert (Htool : forall next,
      role next = toolResult ->
      growsBy 1 s
        match applyBeforeWriteHook opts
                (persistToolResult I opts
                   (capToolResultSize (HARD_MAX_TOOL_RESULT_CHARS I)
                      (persistMessage opts next))
                   {| m_toolCallId := extractToolResultId I next;
                      m_toolName :=
                        if truthyOpt (extractToolResultId I next)
                        then mapGet (orElse (extractToolResultId I next) "") (pending s)
                        else None;
                      m_isSynthetic := false |}) with
        | Some persisted =>
            originalAppend persisted
              (if truthyOpt (extractToolResultId I next)
               then setPending
                      (mapDelete (orElse (extractToolResultId I next) "") (pending s)) s
               else s)
        | None =>
            if truthyOpt (extractToolResultId I next)
            then setPending
                   (mapDelete (orElse (extractToolResultId I next) "") (pending s)) s
            else s
        end).
    { intros next _. destruct (applyBeforeWriteHook _ _) as [p|].
      - destruct (truthyOpt _); exists [p]; (split; [reflexivity | cbn; lia]).
      - destruct (truthyOpt _); apply growsBy_same; reflexivity. }
    assert (Hother : forall next (calls : list (string * option string)) isA,
      let s' := if nonEmpty (pending s) && (negb (nonEmpty calls) || negb isA)
                then flushPendingToolResults I opts s else s in
      let s1 := if allowSynthetic opts
                then (if nonEmpty (pending s') && nonEmpty calls
                      then flushPendingToolResults I opts s' else s')
                else s in
      let out :=
        match applyBeforeWriteHook opts (persistMessage opts next) with
        | None => s1
        | Some finalMessage =>
            setPending
              (fold_left (fun p call => mapSet (fst call) (snd call) p) calls
                 (pending (if truthyOpt (sessionFile (originalAppend finalMessage s1))
                           then emitSessionTranscriptUpdate (originalAppend finalMessage s1)
                           else originalAppend finalMessage s1)))
              (if truthyOpt (sessionFile (originalAppend finalMessage s1))
               then emitSessionTranscriptUpdate (originalAppend finalMessage s1)
               else originalAppend finalMessage s1)
        end in
      growsBy (S (List.length (pending s))) s out /\
      (allowSynthetic opts = false -> growsBy 1 s out)).
    { intros next calls isA. cbv zeta.
      destruct (flushes_facts calls isA s) as (G1 & G0 & _ & _). cbv zeta in G1, G0.
      destruct (allowSynthetic opts) eqn:Ea.
      - split; [|discriminate].
        destruct (applyBeforeWriteHook opts (persistMessage opts next)) as [m|].
        + destruct (truthyOpt _);
            cbn [setPending emitSessionTranscriptUpdate entries];
            (apply (growsBy_le (List.length (pending s) + 1)); [lia|]);
            (eapply growsBy_trans; [exact G1 | apply growsBy_append]).
        + eapply growsBy_le; [|exact G1]. lia.
      - assert (H1 : growsBy 1 s
                  match applyBeforeWriteHook opts (persistMessage opts next) with
                  | Some finalMessage =>
                      setPending
                        (fold_left (fun p call => mapSet (fst call) (snd call) p) calls
                           (pending
                              (if truthyOpt (sessionFile (originalAppend finalMessage s))
                               then emitSessionTranscriptUpdate (originalAppend finalMessage s)
                               else originalAppend finalMessage s)))
                        (if truthyOpt (sessionFile (originalAppend finalMessage s))
                         then emitSessionTranscriptUpdate (originalAppend finalMessage s)
                         else originalAppend finalMessage s)
                  | None => s
                  end).
        { destruct (applyBeforeWriteHook opts (persistMessage opts next)) as [m|].
          - destruct (truthyOpt _); exists [m]; (split; [reflexivity | cbn; lia]).
          - apply growsBy_same; reflexivity. }
        split; [|intros _; exact H1]. eapply growsBy_le; [|exact H1]. lia. }
    destruct (role msg) eqn:Er.
    - destruct (sanitizeToolCallInputs I msg) as [next|].
      + destruct (role next) eqn:En.
        * destruct (Hother next (extractToolCallsFromAssistant I next) true) as (A & B).
          cbv zeta in A, B. cbn [role_eqb]. split; [exact A|]. split; [exact B | discriminate].
        * split; [apply (growsBy_le 1); [lia | exact (Htool next En)]|].
          split; [intros _; exact (Htool next En) | discriminate].
        * destruct (Hother next [] false) as (A & B).
          cbv zeta in A, B. cbn [role_eqb]. split; [exact A|]. split; [exact B | discriminate].
      + split; [|split; [|discriminate]].
        * destruct (allowSynthetic opts && nonEmpty (pending s)).
          -- eapply growsBy_le; [|exact F1]. lia.
          -- apply growsBy_same; reflexivity.
        * intros Ea. rewrite Ea. cbn [andb]. apply growsBy_same; reflexivity.
    - cbv beta iota. rewrite Er.
      split; [apply (growsBy_le 1); [lia | exact (Htool msg Er)]|].
      split; intros _; exact (Htool msg Er).
    - cbv beta iota. rewrite Er. destruct (Hother msg [] false) as (A & B).
      cbv zeta in A, B. split; [exact A|].
      split; [exact B | discriminate]. }
  destruct Hmain as (A & B & C). split; [exact A|]. split; [|exact C].
  intros Hf. apply B. unfold allowSynthetic. rewrite Hf. reflexivity.
Qed.

Lemma flush_updates s : updates (flushPendingToolResults I opts s) = updates s.
Proof. apply flush_facts. Qed.

Lemma flush_sessionFile s :
  sessionFile (flushPendingToolResults I opts s) = sessionFile s.
Proof. apply flush_facts. Qed.

Ltac split_ifs :=
  repeat match goal with
         | |- context [match ?b with _ => _ end] =>
             match b with
             | context [match _ with _ => _ end] => fail 1
             | _ => destruct b eqn:?
             end
         end.

Ltac settle_updates :=
  cbn [updates sessionFile setPending emitSessionTranscriptUpdate originalAppend] in *;
  rewrite ?flush_updates, ?flush_sessionFile in *;
  try solve [auto | congruence].

(** An append through the guard emits at most one transcript update, and
    none for a tool result, none when the session has no file; a flush emits
    none. *)
Theorem guardedAppend_transcript_updates msg s :
  (updates (guardedAppend I opts msg s) = updates s \/
   updates (guardedAppend I opts msg s) = S (updates s)) /\
  (role msg = toolResult -> updates (guardedAppend I opts msg s) = updates s) /\
  (truthyOpt (sessionFile s) = false ->
   updates (guardedAppend I opts msg s) = updates s) /\
  updates (flushPendingToolResults I opts s) = updates s.
Proof.
  split; [|split; [|split; [|apply flush_updates]]].
  - unfold guardedAppend. cbv zeta. split_ifs; settle_updates.
  - intros Hr. unfold guardedAppend. cbv zeta. rewrite Hr. cbv beta iota. rewrite Hr.
    split_ifs; settle_updates.
  - intros Hf. unfold guardedAppend. cbv zeta. split_ifs; settle_updates.
Qed.

Section HookBlocks.
Variable hook : AgentMessage -> option HookResult.
Hypothesis Hhook : beforeMessageWriteHook opts = Some hook.
Hypothesis Hblocks : forall m, exists r, hook m = Some r /\ block r = true.

Lemma blocked m : applyBeforeWriteHook opts m = None.
Proof.
  unfold applyBeforeWriteHook. rewrite Hhook.
  destruct (Hblocks m) as (r & -> & ->). reflexivity.
Qed.

Lemma fold_flushOne_blocked l s : fold_left (flushOne I opts) l s = s.
Proof.
  induction l as [|e r IH]; cbn [fold_left]; [reflexivity|].
  unfold flushOne at 2. cbv zeta. rewrite blocked. exact IH.
Qed.

Lemma flush_blocked s :
  entries (flushPendingToolResults I opts s) = entries s.
Proof.
  unfold flushPendingToolResults. destruct (pending s); [reflexivity|].
  rewrite fold_flushOne_blocked. destruct (allowSynthetic opts); reflexivity.
Qed.

Lemma guardedAppend_blocked msg s :
  entries (guardedAppend I opts msg s) = entries s /\
  updates (guardedAppend I opts msg s) = updates s.
Proof.
  unfold guardedAppend. cbv zeta.
  split; split_ifs;
    try match goal with
        | H : applyBeforeWriteHook _ _ = Some _ |- _ => rewrite blocked in H; discriminate
        end;
    cbn [entries updates setPending];
    rewrite ?flush_blocked, ?flush_updates, ?flush_blocked; reflexivity.
Qed.

Lemma appendAll_blocked msgs :
  forall s,
    entries (appendAll I opts msgs s) = entries s /\
    updates (appendAll I opts msgs s) = updates s.
Proof.
  induction msgs as [|m r IH]; intros s; [split; reflexivity|].
  cbn [appendAll fold_left]. destruct (IH (guardedAppend I opts m s)) as (A & B).
  destruct (guardedAppend_blocked m s) as (C & D).
  unfold appendAll in A, B. split; congruence.
Qed.

End HookBlocks.

(** When the before-write hook blocks every message, nothing is written:
    whatever is appended through the guard, and after a flush, the entries
    are those from before and no transcript update has been emitted. *)
Theorem blocked_messages_leave_no_trace hook msgs s :
  beforeMessageWriteHook opts = Some hook ->
  (forall m, exists r, hook m = Some r /\ block r = true) ->
  entries (appendAll I opts msgs s) = entries s /\
  updates (appendAll I opts msgs s) = updates s /\
  entries (flushPendingToolResults I opts (appendAll I opts msgs s)) = entries s.
Proof.
  intros Hh Hb. destruct (appendAll_blocked hook Hh Hb msgs s) as (A & B).
  split; [exact A|]. split; [exact B|].
  rewrite (flush_blocked hook Hh Hb). exact A.
Qed.

End WithOptions.

(** Without transforms and hook, a flush writes the placeholder of every
    pending call, in the order in which the calls were recorded, when
    synthetic results are allowed, and nothing when they are not; either way
    no call is pending afterwards, and a second flush changes nothing. *)
Theorem flushPendingToolResults_placeholders allow s :
  let opts := {| transformMessageForPersistence := None;
                 transformToolResultForPersistence := None;
                 allowSyntheticToolResults := allow;
                 beforeMessageWriteHook := None |} in
  entries (flushPendingToolResults I opts s)
  = entries s
    ++ (if orElse allow true
        then map (fun e => makeMissingToolResult I (fst e) (snd e)) (pending s)
        else []) /\
  pending (flushPendingToolResults I opts s) = [] /\
  flushPendingToolResults I opts (flushPendingToolResults I opts s)
  = flushPendingToolResults I opts s.
Proof.
  intros opts.
  assert (Hfold : forall l s0,
    entries (fold_left (flushOne I opts) l s0)
    = entries s0 ++ map (fun e => makeMissingToolResult I (fst e) (snd e)) l).
  { induction l as [|e r IH]; intros s0; cbn [fold_left map].
    - rewrite app_nil_r. reflexivity.
    - rewrite IH. unfold flushOne. cbn. rewrite <- app_assoc. reflexivity. }
  assert (Hp : pending (flushPendingToolResults I opts s) = []).
  { apply flush_facts. }
  split; [|split; [exact Hp|]].
  - unfold flushPendingToolResults. destruct (pending s) as [|e r] eqn:E.
    + destruct (orElse allow true); rewrite app_nil_r; reflexivity.
    + unfold allowSynthetic. cbn [allowSyntheticToolResults opts].
      destruct (orElse allow true); cbn [setPending entries].
      * apply Hfold.
      * rewrite app_nil_r. reflexivity.
  - unfold flushPendingToolResults at 1. rewrite Hp. reflexivity.
Qed.

End GuardFacts.

Section GuardScenarios.
Import Guard.

Lemma blocked_messages_witness :
  entries (appendAll (specImports 0)
             {| transformMessageForPersistence := None;
                transformToolResultForPersistence := None;
                allowSyntheticToolResults := None;
                beforeMessageWriteHook :=
                  Some (fun _ => Some {| block := true; message := None |}) |}
             [{| role := assistant;
                 content := Some [ToolCallBlock "call_1" (Some "read")];
                 toolCallId := None; toolName := None; isError := false |};
              {| role := otherRole; content := Some [TextBlock (units "hi")];
                 toolCallId := None; toolName := None; isError := false |}]
             (newSession (Some "session.jsonl"))) = [] /\
  updates (appendAll (specImports 0)
             {| transformMessageForPersistence := None;
                transformToolResultForPersistence := None;
                allowSyntheticToolResults := None;
                beforeMessageWriteHook :=
                  Some (fun _ => Some {| block := true; message := None |}) |}
             [{| role := assistant;
                 content := Some [ToolCallBlock "call_1" (Some "read")];
                 toolCallId := None; toolName := None; isError := false |};
              {| role := otherRole; content := Some [TextBlock (units "hi")];
                 toolCallId := None; toolName := None; isError := false |}]
             (newSession (Some "session.jsonl"))) = 0%nat.
Proof.
  pose proof (blocked_messages_leave_no_trace (specImports 0)
           {| transformMessageForPersistence := None;
              transformToolResultForPersistence := None;
              allowSyntheticToolResults := None;
              beforeMessageWriteHook :=
                Some (fun _ => Some {| block := true; message := None |}) |}
           (fun _ => Some {| block := true; message := None |})
           [{| role := assistant;
               content := Some [ToolCallBlock "call_1" (Some "read")];
               toolCallId := None; toolName := None; isError := false |};
            {| role := otherRole; content := Some [TextBlock (units "hi")];
               toolCallId := None; toolName := None; isError := false |}]
           (newSession (Some "session.jsonl"))
           eq_refl
           (fun _ => ex_intro _ {| block := true; message := None |}
                       (conj eq_refl eq_refl))) as (A & B & _).
  split; [exact A | exact B].
Defined.

End GuardScenarios.

(** ** The announce queue: settings, ageing and the end of a pass *)

Section QueueFacts.
Import Announce.

(** The numeric settings of a queue are in range. *)
Definition settingsInRange (q : AnnounceQueueState) : Prop :=
  0 <= debounceMs q /\ 0 < cap q /\ 0 <= maxAgeMs q.

(** [getAnnounceQueue], with whole numbers as settings, keeps the numeric
    settings in range: a negative debounce or maximal age is taken as 0 and a
    cap that is not positive is ignored.  It takes the mode as given, and
    leaves the items, the dropped count, the summary lines and the draining
    flag of an existing queue as they are. *)
Theorem getAnnounceQueue_settings_in_range existing settings :
  (forall q, existing = Some q -> settingsInRange q) ->
  settingsInRange (getAnnounceQueue existing settings) /\
  mode (getAnnounceQueue existing settings) = s_mode settings /\
  (forall q, existing = Some q ->
     items (getAnnounceQueue existing settings) = items q /\
     droppedCount (getAnnounceQueue existing settings) = droppedCount q /\
     summaryLines (getAnnounceQueue existing settings) = summaryLines q /\
     draining (getAnnounceQueue existing settings) = draining q).
Proof.
  intros Hex. unfold getAnnounceQueue, settingsInRange.
  destruct existing as [q|].
  - destruct (Hex q eq_refl) as (Hd & Hc & Ha).
    cbn [debounceMs cap maxAgeMs mode items droppedCount summaryLines draining].
    repeat split.
    + destruct (s_debounceMs settings); lia.
    + destruct (s_cap settings) as [c|]; [|exact Hc].
      destruct (0 <? c) eqn:E; [apply Z.ltb_lt in E; exact E | exact Hc].
    + destruct (s_maxAgeMs settings); lia.
    + injection H as <-. reflexivity.
    + injection H as <-. reflexivity.
    + injection H as <-. reflexivity.
    + injection H as <-. reflexivity.
  - cbn [debounceMs cap maxAgeMs mode]. repeat split; try discriminate.
    + destruct (s_debounceMs settings); lia.
    + destruct (s_cap settings) as [c|]; [|lia].
      destruct (0 <? c) eqn:E; [apply Z.ltb_lt in E; exact E | lia].
    + destruct (s_maxAgeMs settings); lia.
Qed.

Lemma getAnnounceQueue_settings_witness :
  settingsInRange
    (getAnnounceQueue None
       {| s_mode := followup; s_debounceMs := Some (-1); s_cap := Some (-5);
          s_dropPolicy := None; s_maxAgeMs := Some (-3) |}) /\
  cap (getAnnounceQueue None
         {| s_mode := followup; s_debounceMs := Some (-1); s_cap := Some (-5);
            s_dropPolicy := None; s_maxAgeMs := Some (-3) |}) = 20.
Proof.
  split; [|reflexivity].
  apply (getAnnounceQueue_settings_in_range None
           {| s_mode := followup; s_debounceMs := Some (-1); s_cap := Some (-5);
              s_dropPolicy := None; s_maxAgeMs := Some (-3) |}).
  intros q E. discriminate E.
Defined.

Lemma filter_filter_weaker {A} (f g : A -> bool) l :
  (forall x, g x = true -> f x = true) ->
  filter g (filter f l) = filter g l.
Proof.
  intros Hfg. induction l as [|x r IH]; cbn [filter]; [reflexivity|].
  destruct (f x) eqn:Ef; cbn [filter].
  - rewrite IH. reflexivity.
  - destruct (g x) eqn:Eg; [rewrite (Hfg x Eg) in Ef; discriminate | exact IH].
Qed.

(** Dropping the stale items at one time and then again at a later time
    leaves the queue that dropping them once at the later time leaves; an
    item of high priority stays in the queue whatever the time. *)
Theorem dropStaleItemsInPlace_later_subsumes q now later :
  now <= later ->
  dropStaleItemsInPlace (dropStaleItemsInPlace q now) later
  = dropStaleItemsInPlace q later /\
  filter highPriority (items (dropStaleItemsInPlace q now))
  = filter highPriority (items q).
Proof.
  intros Hle. unfold dropStaleItemsInPlace.
  destruct (maxAgeMs q <=? 0) eqn:E.
  - rewrite E. split; reflexivity.
  - cbn [maxAgeMs setItems items]. rewrite E. split.
    + unfold setItems. cbn [items draining lastEnqueuedAt mode debounceMs cap
                            dropPolicy droppedCount summaryLines maxAgeMs].
      f_equal.
      rewrite (filter_ext
                 (fun i => negb (isStaleItem
                    {| items := filter (fun i0 => negb (isStaleItem q i0 now)) (items q);
                       draining := draining q; lastEnqueuedAt := lastEnqueuedAt q;
                       mode := mode q; debounceMs := debounceMs q; cap := cap q;
                       dropPolicy := dropPolicy q; droppedCount := droppedCount q;
                       summaryLines := summaryLines q; maxAgeMs := maxAgeMs q |} i later))
                 (fun i => negb (isStaleItem q i later))) by reflexivity.
      apply filter_filter_weaker. intros x. unfold isStaleItem.
      destruct (highPriority x); [reflexivity|]. rewrite E.
      rewrite !negb_true_iff, !Z.ltb_ge. lia.
    + apply filter_filter_weaker. intros x Hx. unfold isStaleItem. rewrite Hx.
      reflexivity.
Qed.

Definition stillInMap (w : World) : Prop := inMap w = true.

Lemma keeps_inMap {A} (m : M World A) :
  (forall w, inMap (worldOf (m w)) = inMap w) -> keeps stillInMap m.
Proof. intros H w Hw. unfold stillInMap in *. rewrite H. exact Hw. Qed.

Ltac inMap_go :=
  lazymatch goal with
  | |- keeps _ (bind _ _) => apply keeps_bind; [ inMap_go | intros ?; inMap_go ]
  | |- keeps _ (ret _) => apply keeps_ret
  | |- keeps _ (emit _) => apply keeps_emit
  | |- keeps _ getQueue => apply keeps_inMap; reflexivity
  | |- keeps _ dateNow => apply keeps_inMap; reflexivity
  | |- keeps _ (modifyQueue _) => apply keeps_inMap; reflexivity
  | |- keeps _ shiftItems => apply keeps_inMap; reflexivity
  | |- keeps _ (sendIfFresh _ _) =>
      apply keeps_inMap; intros ?; apply sendIfFresh_queue
  | |- keeps _ (if ?b then _ else _) => destruct b; inMap_go
  | |- keeps _ (match ?x with _ => _ end) => destruct x; inMap_go
  | _ => idtac
  end.

Lemma drainLoop_inMap H ok fuel :
  forall force, keeps stillInMap (drainLoop H ok fuel force).
Proof.
  induction fuel as [|fuel IH]; intros force; cbn [drainLoop]; [apply keeps_ret|].
  inMap_go; apply IH.
Qed.

(** A pass over a queue that is in the map and not draining never fails,
    also when a send rejects: it ends with the draining flag off, and it
    either finds the queue empty with nothing dropped and removes it from
    the map, or leaves it in the map and schedules the next pass. *)
Theorem drainPass_finally H ok w :
  inMap w = true -> draining (queue w) = false ->
  exists again,
    resultOf (drainPass H ok w) = Ret again /\
    draining (queue (worldOf (drainPass H ok w))) = false /\
    inMap (worldOf (drainPass H ok w)) = again /\
    (again = false <->
     items (queue (worldOf (drainPass H ok w))) = [] /\
     droppedCount (queue (worldOf (drainPass H ok w))) = 0).
Proof.
  intros Hin Hdr. pose proof (drainPass_obs H ok w Hin Hdr) as E. cbv zeta in E.
  unfold obs in E.
  set (wc := match resultOf (passLoop H ok w) with
             | Ret _ => worldOf (passLoop H ok w)
             | Throw => caught (worldOf (passLoop H ok w))
             end) in *.
  assert (Hwc : inMap wc = true).
  { assert (Hl : inMap (worldOf (passLoop H ok w)) = true).
    { unfold passLoop. apply (drainLoop_inMap H ok). exact Hin. }
    unfold wc. destruct (resultOf (passLoop H ok w)); [exact Hl | exact Hl]. }
  destruct (Nat.eqb (List.length (items (setDraining false (queue wc)))) 0
            && (droppedCount (setDraining false (queue wc)) =? 0)) eqn:Ec.
  - injection E as Ew Er. exists false. rewrite Ew, Er.
    cbn [queue inMap setDraining draining items droppedCount].
    apply andb_true_iff in Ec. destruct Ec as [Ei Ed].
    cbn [setDraining items droppedCount] in Ei, Ed.
    apply Nat.eqb_eq, length_zero_iff_nil in Ei. apply Z.eqb_eq in Ed.
    repeat split; assumption.
  - injection E as Ew Er. exists true. rewrite Ew, Er.
    cbn [queue inMap withQueue setDraining draining items droppedCount].
    repeat split; try assumption; try discriminate.
    intros [Hi Hd]. cbn [setDraining items droppedCount] in Ec.
    rewrite Hi, Hd in Ec. discriminate Ec.
Qed.

Lemma dropStaleItemsInPlace_later_witness :
  dropStaleItemsInPlace (dropStaleItemsInPlace (queue (retryWorld 10 1)) 1005) 1020
  = dropStaleItemsInPlace (queue (retryWorld 10 1)) 1020 /\
  filter highPriority (items (dropStaleItemsInPlace (queue (retryWorld 10 1)) 1005))
  = filter highPriority (items (queue (retryWorld 10 1))).
Proof.
  apply (dropStaleItemsInPlace_later_subsumes (queue (retryWorld 10 1)) 1005 1020).
  lia.
Defined.

Lemma drainPass_finally_witness :
  exists again,
    resultOf (drainPass specHelpers failsOnce (retryWorld 600000 1)) = Ret again /\
    draining (queue (worldOf (drainPass specHelpers failsOnce (retryWorld 600000 1))))
    = false /\
    inMap (worldOf (drainPass specHelpers failsOnce (retryWorld 600000 1))) = again /\
    (again = false <->
     items (queue (worldOf (drainPass specHelpers failsOnce (retryWorld 600000 1)))) = [] /\
     droppedCount (queue (worldOf (drainPass specHelpers failsOnce (retryWorld 600000 1))))
     = 0).
Proof.
  apply (drainPass_finally specHelpers failsOnce (retryWorld 600000 1));
    reflexivity.
Defined.

End QueueFacts.
